(** * OpenChamber multi-user server: instance pool, tenant paths and RBAC

    A shallow embedding of the parts of the server that the specification
    talks about:

    - [lib/users/rbac.js]      : [hasPermission]
    - [lib/users/storage.js]   : [getUserDataPath], [getRole]
    - tenant isolation         : [getTenantPath], [isPathInTenant]
    - [lib/opencode/pool.js]   : the [OpenCodePoolManager] class
    - [routes/instances.js]    : [sanitizeInstance], [findInstanceById] and
                                 the [GET /api/instances] handler

    The methods of the pool manager are asynchronous.  Each is cut at its
    [await]s into stretches of code that run without interruption; a
    suspended call is a [task], and the environment (the network, the
    operating system, the clock, the random source) supplies the answer
    each [await] resumes with.  A call can be run on its own ([run]) or
    interleaved with others at the [await]s ([step], [exec]).

    JavaScript values are modelled by the inductive type [jsval], strings by
    [string], numbers that the code only uses as integers (ports, time
    stamps, counters) by [Z], the [Map] of instances by a [gmap] from user
    ids to object references and the [Set] of leased ports by a [gset].
    Instance objects are shared and mutated in place by the code, so they
    live in a store and the registry holds references into it. *)

From Stdlib Require Import ZArith String Ascii List Lia Bool.
From stdpp Require Import base option list gmap strings fin_maps fin_sets.

Import ListNotations.
Set Warnings "-register-all,-clear-no-such-hyp".
Local Open Scope string_scope.
Local Open Scope Z_scope.

(* ===================================================================== *)
(** ** JavaScript values and exceptions                                  *)
(* ===================================================================== *)

(** The JSON-like fragment of JavaScript values that crosses the HTTP
    boundary.  An object is an association list of own properties. *)
Inductive jsval : Type :=
| JUndefined
| JNull
| JBool (b : bool)
| JNum (n : Z)
| JStr (s : string)
| JArr (items : list jsval)
| JObj (props : list (string * jsval)).

(** A thrown JavaScript [Error], identified by its message. *)
Inductive exn : Type :=
| JsError (message : string).

(** Result of a computation that may throw. *)
Inductive result (A : Type) : Type :=
| Ok (a : A)
| Throw (e : exn).
Arguments Ok {A} a.
Arguments Throw {A} e.

Definition bindR {A B} (m : result A) (k : A -> result B) : result B :=
  match m with
  | Ok a => k a
  | Throw e => Throw e
  end.

(** [try { m } catch (e) { h e }] *)
Definition try_catch {A} (m : result A) (h : exn -> result A) : result A :=
  match m with
  | Ok a => Ok a
  | Throw e => h e
  end.

(** Own-property lookup [o.key]; a missing property reads as [undefined]. *)
Fixpoint get_prop (key : string) (props : list (string * jsval)) : jsval :=
  match props with
  | [] => JUndefined
  | (k, v) :: rest => if String.eqb k key then v else get_prop key rest
  end.

(** Optional chaining [v?.key].  [null] and [undefined] short-circuit to
    [undefined]; primitives and arrays have no own property with the names
    used by the server, so they read [undefined] as well. *)
Definition optional_get (v : jsval) (key : string) : jsval :=
  match v with
  | JObj props => get_prop key props
  | _ => JUndefined
  end.

(** [v === true] *)
Definition strict_eq_true (v : jsval) : bool :=
  match v with
  | JBool true => true
  | _ => false
  end.

(** The names of the own properties of an object, in order. *)
Definition keys (v : jsval) : list string :=
  match v with
  | JObj props => map fst props
  | _ => []
  end.

(* ===================================================================== *)
(** ** Strings                                                            *)
(* ===================================================================== *)

(** [s.split(sep)] for a one-character separator. *)
Fixpoint split_on (sep : ascii) (s : string) : list string :=
  match s with
  | EmptyString => [EmptyString]
  | String c rest =>
      if Ascii.eqb c sep then EmptyString :: split_on sep rest
      else match split_on sep rest with
           | [] => [String c EmptyString]
           | seg :: segs => String c seg :: segs
           end
  end.

(** [s.startsWith(p)] *)
Fixpoint startsWith (s p : string) : bool :=
  match p, s with
  | EmptyString, _ => true
  | String _ _, EmptyString => false
  | String a p', String b s' => Ascii.eqb a b && startsWith s' p'
  end.

(** [arr.includes(x)] on an array of strings. *)
Fixpoint includes (arr : list string) (x : string) : bool :=
  match arr with
  | [] => false
  | y :: rest => String.eqb y x || includes rest x
  end.

(** [segments.join(sep)] *)
Fixpoint join (sep : string) (segments : list string) : string :=
  match segments with
  | [] => ""
  | [s] => s
  | s :: rest => s ++ sep ++ join sep rest
  end.

Definition colon : ascii := ":"%char.
Definition slash : ascii := "/"%char.

(* ===================================================================== *)
(** ** lib/users/rbac.js and the role table of lib/users/storage.js       *)
(* ===================================================================== *)

Module Rbac.

(** The part of a user object that the permission check reads.  [role]
    is [None] when the property is missing. *)
Record User : Type := mkUser {
  user_id : string;
  role : option string
}.

(** An entry of [data.roles]; [permissions] may be missing. *)
Record Role : Type := mkRole {
  name : string;
  permissions : option (list string);
  description : string
}.

Definition WILDCARD_PERMISSION : string := "*".

(** [getRole(roleName)]: [data.roles[roleName] || null]. *)
Definition getRole (roles : gmap string Role) (roleName : string) : option Role :=
  roles !! roleName.

(** [!user.role]: a missing or empty role is falsy. *)
Definition falsy_role (r : option string) : bool :=
  match r with
  | None => true
  | Some s => String.eqb s ""
  end.

Definition hasPermission (roles : gmap string Role)
    (user : option User) (permission : string) : bool :=
  match user with
  | None => false
  | Some u =>
      if falsy_role (role u) then false
      else
        let r := default "" (role u) in
        (* Super admin check *)
        if String.eqb r "admin" then true
        else
          match getRole roles r with
          | None => false
          | Some rl =>
              let perms := default [] (permissions rl) in
              if includes perms WILDCARD_PERMISSION then true
              else if includes perms permission then true
              else
                let scope := hd "" (split_on colon permission) in
                if includes perms (scope ++ ":*") then true
                else false
          end
  end.

(** [hasAllPermissions] and [hasAnyPermission] over an array. *)
Definition hasAllPermissions roles user (perms : list string) : bool :=
  forallb (hasPermission roles user) perms.

Definition hasAnyPermission roles user (perms : list string) : bool :=
  existsb (hasPermission roles user) perms.

Definition INSTANCE_ADMIN : string := "instance:admin".
Definition INSTANCE_WRITE : string := "instance:write".

(** [getUserPermissions(user)] *)
Definition getUserPermissions (roles : gmap string Role)
    (user : option User) : list string :=
  match user with
  | None => []
  | Some u =>
      if falsy_role (role u) then []
      else
        match getRole roles (default "" (role u)) with
        | None => []
        | Some rl => default [] (permissions rl)
        end
  end.

(** [canAccess(user, resource, action, resourceData)]; [ownerId] is
    [resourceData.ownerId], [None] when the property is missing.  (When
    the permission check passes there is a user, so [user.id] is never
    read from [null].) *)
Definition canAccess (roles : gmap string Role) (user : option User)
    (resource action : string) (ownerId : option string) : bool :=
  let permission := resource ++ ":" ++ action in
  (* First check if user has the permission *)
  if negb (hasPermission roles user permission) then false
  else
    (* For self-scoped actions, check ownership *)
    if String.eqb action "write:self" && negb (falsy_role ownerId) then
      match user with
      | Some u => String.eqb (user_id u) (default "" ownerId)
      | None => false
      end
    else true.

(** The [permissions] argument of the middleware factories: a string or
    an array of strings. *)
Inductive PermissionsArg : Type :=
| OnePermission (permission : string)
| ManyPermissions (permissions : list string).

(** [checkFn(req.user, permissions)], with the [!Array.isArray] branch
    of [hasAllPermissions] and [hasAnyPermission]. *)
Definition checkFn (requireAll : bool) (roles : gmap string Role)
    (user : option User) (arg : PermissionsArg) : bool :=
  match arg with
  | OnePermission p => hasPermission roles user p
  | ManyPermissions ps =>
      if requireAll then hasAllPermissions roles user ps
      else hasAnyPermission roles user ps
  end.

(** What an Express middleware does with a request: call [next()] or
    answer it. *)
Inductive Middleware : Type :=
| Next
| Respond (statusCode : Z) (body : jsval).

(** [requirePermission(permissions, { requireAll, errorMessage })],
    applied to a request whose [req.user] is [user]. *)
Definition requirePermission (arg : PermissionsArg) (requireAll : bool)
    (errorMessage : string) (roles : gmap string Role) (user : option User)
    : Middleware :=
  match user with
  | None => Respond 401 (JObj [("error", JStr "Authentication required")])
  | Some u =>
      if negb (checkFn requireAll roles (Some u) arg) then
        Respond 403
          (JObj [("error", JStr errorMessage);
                 ("required",
                  JArr (map JStr match arg with
                                 | OnePermission p => [p]
                                 | ManyPermissions ps => ps
                                 end))])
      else Next
  end.

(** [requireOwnershipOrAdmin(getResourceOwner)], applied to a request
    whose [req.user] is [user]; [ownerId] is what [getResourceOwner(req)]
    resolves to ([None] for [undefined] or [null]). *)
Definition requireOwnershipOrAdmin (ownerId : option string)
    (user : option User) : Middleware :=
  match user with
  | None => Respond 401 (JObj [("error", JStr "Authentication required")])
  | Some u =>
      (* Admin can access anything *)
      if bool_decide (role u = Some "admin") then Next
      else if negb (falsy_role ownerId)
              && String.eqb (default "" ownerId) (user_id u) then Next
      else Respond 403 (JObj [("error", JStr "Access denied")])
  end.

(** The property names that the object literal [roleHierarchy] inherits
    from [Object.prototype].  Their values are functions, and the
    prototype object itself for ["__proto__"]: all truthy. *)
Definition object_prototype_members : list string :=
  ["constructor"; "hasOwnProperty"; "isPrototypeOf"; "propertyIsEnumerable";
   "toLocaleString"; "toString"; "valueOf"; "__proto__";
   "__defineGetter__"; "__defineSetter__"; "__lookupGetter__";
   "__lookupSetter__"].

(** The value of [roleHierarchy[role] || 0]: a number, or an inherited
    member of [Object.prototype]. *)
Inductive Level : Type :=
| LevelNumber (n : Z)
| LevelInherited (member : string).

Definition roleLevel (role : option string) : Level :=
  match role with
  | None => LevelNumber 0
  | Some r =>
      if String.eqb r "viewer" then LevelNumber 1
      else if String.eqb r "developer" then LevelNumber 2
      else if String.eqb r "admin" then LevelNumber 3
      else if includes object_prototype_members r then LevelInherited r
      else LevelNumber 0
  end.

Section WithEngine.
(** The string [ToPrimitive] gives for an inherited member (the source
    text of a native function, ["[object Object]"] for the prototype):
    it depends on the engine and is never a numeral. *)
Variable primitive : string -> string.

(** [currentLevel > targetLevel]: numbers compare as numbers, two
    strings compare as strings, and a string that is not a numeral is
    [NaN] against a number. *)
Definition level_gt (a b : Level) : bool :=
  match a, b with
  | LevelNumber x, LevelNumber y => x >? y
  | LevelInherited x, LevelInherited y =>
      String.ltb (primitive y) (primitive x)
  | _, _ => false
  end.

Definition canManageUser (currentUser targetUser : User) : bool :=
  (* Can't manage yourself through this check *)
  if String.eqb (user_id currentUser) (user_id targetUser) then false
  (* Admin can manage anyone *)
  else if bool_decide (role currentUser = Some "admin") then true
  else
    (* Can't manage users with same or higher role *)
    level_gt (roleLevel (role currentUser)) (roleLevel (role targetUser)).

End WithEngine.

End Rbac.

(* ===================================================================== *)
(** ** Node's [path] module (POSIX flavour)                               *)
(* ===================================================================== *)

Module Path.

Definition is_dot (seg : string) : bool := String.eqb seg ".".
Definition is_dotdot (seg : string) : bool := String.eqb seg "..".

(** [normalizeString]: resolve ["."], [".."] and empty segments.  The
    segments kept so far are held most recent first in [kept]. *)
Fixpoint normalize_segments (allowAboveRoot : bool)
    (kept : list string) (segs : list string) : list string :=
  match segs with
  | [] => rev kept
  | seg :: rest =>
      if String.eqb seg "" || is_dot seg then
        normalize_segments allowAboveRoot kept rest
      else if is_dotdot seg then
        match kept with
        | top :: below =>
            if is_dotdot top then
              normalize_segments allowAboveRoot
                (if allowAboveRoot then ".." :: kept else kept) rest
            else normalize_segments allowAboveRoot below rest
        | [] =>
            normalize_segments allowAboveRoot
              (if allowAboveRoot then [".."] else []) rest
        end
      else normalize_segments allowAboveRoot (seg :: kept) rest
  end.

Definition normalizeString (path : string) (allowAboveRoot : bool) : string :=
  join "/" (normalize_segments allowAboveRoot [] (split_on slash path)).

Definition isAbsolute (path : string) : bool :=
  match path with
  | String c _ => Ascii.eqb c slash
  | EmptyString => false
  end.

Fixpoint endsWithSlash (path : string) : bool :=
  match path with
  | EmptyString => false
  | String c EmptyString => Ascii.eqb c slash
  | String _ rest => endsWithSlash rest
  end.

(** [path.normalize(p)] *)
Definition normalize (path : string) : string :=
  if String.eqb path "" then "."
  else
    let abs := isAbsolute path in
    let trailingSeparator := endsWithSlash path in
    let p := normalizeString path (negb abs) in
    if String.eqb p "" then
      if abs then "/" else if trailingSeparator then "./" else "."
    else
      let p := if trailingSeparator then p ++ "/" else p in
      if abs then "/" ++ p else p.

(** [path.join(...args)] *)
Definition join_paths (args : list string) : string :=
  match List.filter (fun a => negb (String.eqb a "")) args with
  | [] => "."
  | parts => normalize (join "/" parts)
  end.

(** The right-to-left scan of [path.resolve]: prepend arguments until
    the accumulated path is absolute. *)
Fixpoint resolve_scan (rev_args : list string) (resolvedPath : string)
    : string * bool :=
  match rev_args with
  | [] => (resolvedPath, false)
  | p :: rest =>
      if String.eqb p "" then resolve_scan rest resolvedPath
      else
        let resolvedPath := p ++ "/" ++ resolvedPath in
        if isAbsolute p then (resolvedPath, true)
        else resolve_scan rest resolvedPath
  end.

(** [path.resolve(...args)], with the process working directory [cwd]
    (an absolute path) as the last resort. *)
Definition resolve (cwd : string) (args : list string) : string :=
  let '(resolvedPath, resolvedAbsolute) := resolve_scan (rev (cwd :: args)) "" in
  let p := normalizeString resolvedPath (negb resolvedAbsolute) in
  if resolvedAbsolute then "/" ++ p
  else if String.eqb p "" then "." else p.

End Path.

(* ===================================================================== *)
(** ** Tenant paths: [getUserDataPath], [getTenantPath], [isPathInTenant] *)
(* ===================================================================== *)

Module Tenant.

Section WithEnvironment.
(** [MULTIUSER_DATA_DIR] (storage.js) and [process.cwd()]. *)
Variable MULTIUSER_DATA_DIR : string.
Variable cwd : string.

(** storage.js: [path.join(MULTIUSER_DATA_DIR, 'users', userId)] *)
Definition getUserDataPath (userId : string) : string :=
  Path.join_paths [MULTIUSER_DATA_DIR; "users"; userId].

Definition getTenantPath (tenantId filePath : string) : result string :=
  let tenantRoot := getUserDataPath tenantId in
  (* Prevent directory traversal *)
  let resolved := Path.resolve cwd [tenantRoot; filePath] in
  if negb (startsWith resolved tenantRoot) then
    Throw (JsError "Path traversal detected")
  else Ok resolved.

Definition isPathInTenant (tenantId checkPath : string) : bool :=
  let tenantRoot := getUserDataPath tenantId in
  let resolved := Path.resolve cwd [checkPath] in
  startsWith resolved tenantRoot.

(** [req.tenant.paths] *)
Record Paths : Type := mkPaths {
  root : string;
  settings : string;
  projects : string;
  themes : string;
  opencode : string;
  temp : string
}.

(** [req.tenant] *)
Record TenantContext : Type := mkTenantContext {
  id : string;
  tenant_userId : string;
  paths : Paths
}.

(** [tenantIsolation(req, res, next)]: what the middleware leaves in
    [req.tenant] before it calls [next()]; [user] is [req.user.id], [None]
    when there is no authenticated user. *)
Definition tenantIsolation (user : option string) : option TenantContext :=
  match user with
  | None => None
  | Some userId =>
      let tenantId := userId in
      Some (mkTenantContext tenantId userId
              (mkPaths
                 (getUserDataPath userId)
                 (Path.join_paths [getUserDataPath userId; "settings.json"])
                 (Path.join_paths [getUserDataPath userId; "projects.json"])
                 (Path.join_paths [getUserDataPath userId; "themes"])
                 (Path.join_paths [getUserDataPath userId; "opencode"])
                 (Path.join_paths [MULTIUSER_DATA_DIR; "temp"; userId])))
  end.

End WithEnvironment.

(** [p] is the directory [root] itself or lies below it. *)
Definition within (root p : string) : Prop :=
  p = root \/ startsWith p (root ++ "/") = true.

End Tenant.

(* ===================================================================== *)
(** ** lib/opencode/pool.js: data                                         *)
(* ===================================================================== *)

(** JavaScript truthiness and [a || b]. *)
Definition truthy (v : jsval) : bool :=
  match v with
  | JUndefined | JNull | JBool false | JNum 0 | JStr "" => false
  | _ => true
  end.

Definition js_or (a b : jsval) : jsval := if truthy a then a else b.

(** [o[key] = v] on an object: overwrite in place or append. *)
Fixpoint set_prop (key : string) (v : jsval) (props : list (string * jsval))
    : list (string * jsval) :=
  match props with
  | [] => [(key, v)]
  | (k, old) :: rest =>
      if String.eqb k key then (k, v) :: rest
      else (k, old) :: set_prop key v rest
  end.

(** [{ ...target, ...source }] *)
Definition spread (target source : list (string * jsval)) : list (string * jsval) :=
  fold_left (fun acc kv => set_prop (fst kv) (snd kv) acc) source target.

Module Pool.

Inductive Status : Type :=
| Starting | Running | Stopping | Stopped | Errored | Destroyed.

Definition status_string (s : Status) : string :=
  match s with
  | Starting => "starting"
  | Running => "running"
  | Stopping => "stopping"
  | Stopped => "stopped"
  | Errored => "error"
  | Destroyed => "destroyed"
  end.

Definition status_eqb (a b : Status) : bool :=
  String.eqb (status_string a) (status_string b).

(** The instance object built by [createInstance].  [process] is the
    handle of the child process ([None] is [null]). *)
Record Instance : Type := mkInstance {
  instance_id : string;
  userId : string;
  port : Z;
  password : string;
  process : option nat;
  status : Status;
  createdAt : Z;
  lastActivity : Z;
  config : list (string * jsval)
}.

Definition with_status (st : Status) (i : Instance) : Instance :=
  mkInstance (instance_id i) (userId i) (port i) (password i) (process i)
    st (createdAt i) (lastActivity i) (config i).

Definition with_lastActivity (t : Z) (i : Instance) : Instance :=
  mkInstance (instance_id i) (userId i) (port i) (password i) (process i)
    (status i) (createdAt i) t (config i).

Definition with_process (p : option nat) (i : Instance) : Instance :=
  mkInstance (instance_id i) (userId i) (port i) (password i) p
    (status i) (createdAt i) (lastActivity i) (config i).

Definition with_password (pw : string) (i : Instance) : Instance :=
  mkInstance (instance_id i) (userId i) (port i) pw (process i)
    (status i) (createdAt i) (lastActivity i) (config i).

(* ------------------------------------------------------------------- *)
(** *** Health prober: [checkHealth]                                    *)
(* ------------------------------------------------------------------- *)

(** What the network gives back to the [fetch] of the health endpoint. *)
Inductive FetchFailure : Type :=
| Aborted               (* the 2 s [AbortController] timeout fired *)
| ConnectionRefused
| NetworkFailure (reason : string).

(** An HTTP response: its status code and what [response.json()]
    resolves to ([None] when the body is not valid JSON and the promise
    rejects). *)
Record Response : Type := mkResponse {
  http_status : Z;
  json_body : option jsval
}.

Inductive FetchOutcome : Type :=
| Rejected (f : FetchFailure)
| Resolved (r : Response).

(** [response.ok] *)
Definition ok (r : Response) : bool :=
  (200 <=? http_status r) && (http_status r <=? 299).

Definition fetch (net : FetchOutcome) : result Response :=
  match net with
  | Rejected Aborted => Throw (JsError "This operation was aborted")
  | Rejected ConnectionRefused => Throw (JsError "fetch failed")
  | Rejected (NetworkFailure reason) => Throw (JsError reason)
  | Resolved r => Ok r
  end.

(** [response.json()] *)
Definition json (r : Response) : result jsval :=
  match json_body r with
  | Some v => Ok v
  | None => Throw (JsError "Unexpected token in JSON")
  end.

Definition checkHealth (instance : option Instance) (net : FetchOutcome)
    : result bool :=
  match instance with
  | None => Ok false
  | Some i =>
      if port i =? 0 then Ok false
      else
        try_catch
          (bindR (fetch net) (fun response =>
             if negb (ok response) then Ok false
             else
               bindR (try_catch (json response) (fun _ => Ok JNull))
                 (fun data =>
                    Ok (strict_eq_true (optional_get data "healthy")))))
          (fun _ => Ok false)
  end.

(** The boolean a caller of [await this.checkHealth(instance)] sees. *)
Definition isHealthy (instance : option Instance) (net : FetchOutcome) : bool :=
  match checkHealth instance net with
  | Ok b => b
  | Throw _ => false
  end.

(* ------------------------------------------------------------------- *)
(** *** The pool manager object                                         *)
(* ------------------------------------------------------------------- *)

Inductive Signal : Type := SIGTERM | SIGKILL.

(** A child process started by [spawn]: the instance object it was
    started for, the [--port] argument and the signals sent to it. *)
Record Proc : Type := mkProc {
  proc_instance : nat;
  proc_user : string;
  proc_port : Z;
  proc_signals : list Signal
}.

Inductive Event : Type :=
| onInstanceCreated (instance : nat)
| onInstanceDestroyed (instance : nat)
| onInstanceError (instance : nat) (e : exn).

(** The fields of [OpenCodePoolManager].  [store] holds the instance
    objects ever created, indexed by reference; [instances] is the [Map]
    from user id to instance; [procs] and [emitted] record the child
    processes spawned and the events handed to the listeners. *)
Record PoolManager : Type := mkPool {
  instances : gmap string nat;
  store : list Instance;
  usedPorts : gset Z;
  nextPort : Z;
  procs : list Proc;
  emitted : list Event
}.

Definition set_instances f (pm : PoolManager) : PoolManager :=
  mkPool (f (instances pm)) (store pm) (usedPorts pm) (nextPort pm)
    (procs pm) (emitted pm).
Definition set_store f (pm : PoolManager) : PoolManager :=
  mkPool (instances pm) (f (store pm)) (usedPorts pm) (nextPort pm)
    (procs pm) (emitted pm).
Definition set_usedPorts f (pm : PoolManager) : PoolManager :=
  mkPool (instances pm) (store pm) (f (usedPorts pm)) (nextPort pm)
    (procs pm) (emitted pm).
Definition set_nextPort (p : Z) (pm : PoolManager) : PoolManager :=
  mkPool (instances pm) (store pm) (usedPorts pm) p (procs pm) (emitted pm).
Definition set_procs f (pm : PoolManager) : PoolManager :=
  mkPool (instances pm) (store pm) (usedPorts pm) (nextPort pm)
    (f (procs pm)) (emitted pm).

(** [this.emit(event, data)]: the handlers are external listeners whose
    exceptions are caught; the call is recorded. *)
Definition emit (e : Event) (pm : PoolManager) : PoolManager :=
  mkPool (instances pm) (store pm) (usedPorts pm) (nextPort pm)
    (procs pm) (emitted pm ++ [e])%list.

(** In-place update of the instance object behind a reference. *)
Definition update (ref : nat) (f : Instance -> Instance) (pm : PoolManager)
    : PoolManager :=
  set_store (alter f ref) pm.

Definition INSTANCE_TIMEOUT : Z := 5 * 60 * 1000.
Definition HEALTH_TIMEOUT : Z := 30000.

(** The environment a synchronous stretch of code reads: [Date.now()],
    the outputs of [crypto.randomBytes], whether [spawn] throws and
    [process.cwd()]. *)
Record World : Type := mkWorld {
  w_now : Z;
  w_randomId : string;
  w_randomPassword : string;
  w_spawn : option exn;
  w_cwd : string
}.

(** What an [await] resumes with. *)
Inductive answer : Type :=
| APort (isAvailable : bool)      (* [isPortAvailable(port)] *)
| AHealth (net : FetchOutcome)    (* the network, for [checkHealth] *)
| ATick.                          (* a timer or an already settled promise *)

(** Who called [allocatePort]. *)
Inductive caller : Type :=
| FromCreateInstance (userId : string) (config : list (string * jsval))
| FromOutside.

(** An asynchronous call suspended at an [await]. *)
Inductive task : Type :=
(* getOrCreateInstance: [await this.checkHealth(instance)] *)
| GetOrCreate_health (userId : string) (config : list (string * jsval))
    (instance : nat)
(* getOrCreateInstance: [await this.destroyInstance(userId)] *)
| GetOrCreate_destroyed (userId : string) (config : list (string * jsval))
(* allocatePort: [await this.isPortAvailable(port)], with the number of
   loop rounds left after this one *)
| AllocatePort_probe (k : caller) (remaining : nat) (port : Z)
(* waitForHealthy: [await this.checkHealth(instance)] *)
| WaitForHealthy_check (userId : string) (instance : nat) (port : Z)
    (startTime : Z)
(* waitForHealthy: [await new Promise(r => setTimeout(r, 500))] *)
| WaitForHealthy_sleep (userId : string) (instance : nat) (port : Z)
    (startTime : Z)
(* health-check loop: [await this.checkHealth(instance)] *)
| Reaper_check (userId : string) (instance : nat) (now : Z).

Inductive value : Type :=
| VInstance (instance : nat)
| VPort (port : Z)
| VBool (b : bool)
| VUndefined.

Inductive outcome : Type :=
| Suspended (t : task)
| Returned (v : value)
| Threw (e : exn).

End Pool.

(* ===================================================================== *)
(** ** lib/opencode/pool.js: the methods of [OpenCodePoolManager]          *)
(* ===================================================================== *)

Module PoolManager.
Import Pool.

Section WithPortRange.
(** [PORT_RANGE_START] and [PORT_RANGE_END], read from the environment
    when the module is loaded (9000 and 10000 by default). *)
Variables PORT_RANGE_START PORT_RANGE_END : Z.

(** [new OpenCodePoolManager()] *)
Definition new : PoolManager :=
  mkPool ∅ [] ∅ PORT_RANGE_START [] [].

(** [const maxAttempts = PORT_RANGE_END - PORT_RANGE_START] *)
Definition maxAttempts : Z := PORT_RANGE_END - PORT_RANGE_START.

(** [this.nextPort++], wrapping past the end of the range. *)
Definition advance (pm : PoolManager) : PoolManager :=
  let next := nextPort pm + 1 in
  set_nextPort (if next >? PORT_RANGE_END then PORT_RANGE_START else next) pm.

(** The [while] loop of [allocatePort], run from its test up to the
    next [await this.isPortAvailable(port)] or to the loop exit.
    [remaining] is [maxAttempts - attempts].  The result is the port
    being probed with the rounds left after it, or [None] when the
    loop is over. *)
Fixpoint allocatePort_scan (remaining : nat) (pm : PoolManager)
    : PoolManager * option (Z * nat) :=
  match remaining with
  | O => (pm, None)
  | S n =>
      let port := nextPort pm in
      let pm := advance pm in
      if decide (port ∈ usedPorts pm) then allocatePort_scan n pm
      else (pm, Some (port, n))
  end.

Definition releasePort (port : Z) (pm : PoolManager) : PoolManager :=
  set_usedPorts (fun s => s ∖ {[port]}) pm.

(** [instance.process.kill(sig)] *)
Definition kill (pid : nat) (sig : Signal) (pm : PoolManager) : PoolManager :=
  set_procs (alter (fun p => mkProc (proc_instance p) (proc_user p)
                               (proc_port p) (proc_signals p ++ [sig])%list) pid) pm.

(** [destroyInstance(userId)].  The 5 s timer that escalates to
    [SIGKILL] only acts on the child process and is left out. *)
Definition destroyInstance (userId : string) (pm : PoolManager)
    : PoolManager * bool :=
  match instances pm !! userId with
  | None => (pm, false)
  | Some ref =>
      match store pm !! ref with
      | None => (pm, false)
      | Some instance =>
          (* Kill process *)
          let pm := match process instance with
                    | Some pid => kill pid SIGTERM pm
                    | None => pm
                    end in
          (* Release port *)
          let pm := releasePort (port instance) pm in
          (* Remove from map *)
          let pm := set_instances (delete userId) pm in
          let pm := update ref (with_status Destroyed) pm in
          (emit (onInstanceDestroyed ref) pm, true)
      end
  end.

(** [getInstance(userId)] *)
Definition getInstance (userId : string) (pm : PoolManager) : option Instance :=
  ref ← instances pm !! userId; store pm !! ref.

(** [dispose()].  [destroyInstance] has no [await], so each call made by
    the loop over [this.instances.keys()] runs to its end at once, and
    removing the entry being visited does not disturb the iteration of
    the [Map].  ([stopHealthChecks] clears the timer of the health-check
    loop, whose rounds are actions of the environment here.) *)
Definition dispose (pm : PoolManager) : PoolManager :=
  fold_left (fun pm userId => fst (destroyInstance userId pm))
    (map fst (map_to_list (instances pm))) pm.

(** The [config] property built by [createInstance]. *)
Definition instance_config (w : World) (config : list (string * jsval))
    : list (string * jsval) :=
  spread [("maxMemoryMB", js_or (get_prop "maxMemoryMB" config) (JNum 2048));
          ("workingDir", js_or (get_prop "workingDir" config) (JStr (w_cwd w)))]
         config.

(** The [catch] block of [createInstance]. *)
Definition createInstance_failed (ref : nat) (port : Z) (e : exn)
    (pm : PoolManager) : PoolManager * outcome :=
  let pm := releasePort port pm in
  let pm := emit (onInstanceError ref e) pm in
  (pm, Threw e).

(** [spawnOpenCode(instance, dataDir)] when [spawn] does not throw: the
    child process is started with [--port instance.port] and the
    credential in its environment; the result is its handle. *)
Definition spawnOpenCode (ref : nat) (userId : string) (port : Z)
    (pm : PoolManager) : PoolManager * nat :=
  (set_procs (fun ps => ps ++ [mkProc ref userId port []])%list pm,
   length (procs pm)).

(** [waitForHealthy(instance)] up to its first [await]:
    [startTime = Date.now()], and the first test of the loop, which reads
    the clock again, passes. *)
Definition waitForHealthy (w : World) (userId : string) (ref : nat)
    (port : Z) (pm : PoolManager) : PoolManager * outcome :=
  (pm, Suspended (WaitForHealthy_check userId ref port (w_now w))).

(** [createInstance] from the return of [allocatePort] to the first
    [await] of [waitForHealthy]: build the instance object, spawn the
    child process, enter the polling loop.  (The port passes from
    [allocatePort] to its caller through a settled promise; nothing the
    pool manager does in between depends on it, and the two stretches are
    run as one.) *)
Definition createInstance_spawn (w : World) (userId : string)
    (config : list (string * jsval)) (port : Z) (pm : PoolManager)
    : PoolManager * outcome :=
  let instance :=
    mkInstance ("instance_" ++ w_randomId w) userId port
      (w_randomPassword w) None Starting (w_now w) (w_now w)
      (instance_config w config) in
  let ref := length (store pm) in
  let pm := set_store (fun st => st ++ [instance])%list pm in
  (* try *)
  match w_spawn w with
  | Some e => createInstance_failed ref port e pm
  | None =>
      (* Spawn OpenCode process *)
      let pid := snd (spawnOpenCode ref userId port pm) in
      let pm := fst (spawnOpenCode ref userId port pm) in
      let pm := update ref (with_process (Some pid)) pm in
      (* Wait for health check *)
      waitForHealthy w userId ref port pm
  end.

(** [createInstance] after [waitForHealthy] returned. *)
Definition createInstance_register (userId : string) (ref : nat)
    (pm : PoolManager) : PoolManager * outcome :=
  let pm := update ref (with_status Running) pm in
  let pm := set_instances <[userId := ref]> pm in
  let pm := emit (onInstanceCreated ref) pm in
  (pm, Returned (VInstance ref)).

(** [waitForHealthy] after [await this.checkHealth(instance)]. *)
Definition waitForHealthy_checked (userId : string) (ref : nat) (port : Z)
    (startTime : Z) (healthy : bool) (pm : PoolManager)
    : PoolManager * outcome :=
  if healthy then createInstance_register userId ref pm
  else (pm, Suspended (WaitForHealthy_sleep userId ref port startTime)).

(** [waitForHealthy] after the 500 ms sleep: the loop test, then either
    the next health check or the [throw], caught by [createInstance]. *)
Definition waitForHealthy_woke (w : World) (userId : string) (ref : nat)
    (port : Z) (startTime : Z) (pm : PoolManager) : PoolManager * outcome :=
  if w_now w - startTime <? HEALTH_TIMEOUT then
    (pm, Suspended (WaitForHealthy_check userId ref port startTime))
  else
    createInstance_failed ref port
      (JsError "Instance failed to become healthy within timeout") pm.

(** What happens when [allocatePort] hands [port] to its caller. *)
Definition allocatePort_return (w : World) (k : caller) (port : Z)
    (pm : PoolManager) : PoolManager * outcome :=
  match k with
  | FromOutside => (pm, Returned (VPort port))
  | FromCreateInstance userId config =>
      createInstance_spawn w userId config port pm
  end.

(** [allocatePort] from the loop test on. *)
Definition allocatePort_loop (k : caller) (remaining : nat)
    (pm : PoolManager) : PoolManager * outcome :=
  match allocatePort_scan remaining pm with
  | (pm, Some (port, n)) => (pm, Suspended (AllocatePort_probe k n port))
  | (pm, None) => (pm, Threw (JsError "No available ports in range"))
  end.

Definition allocatePort (k : caller) (pm : PoolManager)
    : PoolManager * outcome :=
  allocatePort_loop k (Z.to_nat maxAttempts) pm.

(** [createInstance(userId, config)] up to its first [await]. *)
Definition createInstance (userId : string)
    (config : list (string * jsval)) (pm : PoolManager)
    : PoolManager * outcome :=
  allocatePort (FromCreateInstance userId config) pm.

(** [getOrCreateInstance(userId, config)] up to its first [await]. *)
Definition getOrCreateInstance (userId : string)
    (config : list (string * jsval)) (pm : PoolManager)
    : PoolManager * outcome :=
  match instances pm !! userId with
  | Some ref => (pm, Suspended (GetOrCreate_health userId config ref))
  | None => createInstance userId config pm
  end.

(** One round of the loop of [startHealthChecks], for the entry of
    [userId], up to its [await]; [now] was read when the sweep began. *)
Definition reaper_visit (userId : string) (now : Z) (pm : PoolManager)
    : PoolManager * outcome :=
  match instances pm !! userId with
  | None => (pm, Returned VUndefined)
  | Some ref =>
      match store pm !! ref with
      | None => (pm, Returned VUndefined)
      | Some instance =>
          (* Skip if already stopping *)
          if status_eqb (status instance) Stopping
             || status_eqb (status instance) Destroyed
          then (pm, Returned VUndefined)
          else (pm, Suspended (Reaper_check userId ref now))
      end
  end.

(** The same round after [await this.checkHealth(instance)]. *)
Definition reaper_checked (userId : string) (ref : nat) (now : Z)
    (net : FetchOutcome) (pm : PoolManager) : PoolManager * outcome :=
  match store pm !! ref with
  | None => (pm, Returned VUndefined)
  | Some instance =>
      if negb (isHealthy (Some instance) net) then
        let '(pm, _) := destroyInstance userId pm in
        (pm, Returned VUndefined)
      else if now - lastActivity instance >? INSTANCE_TIMEOUT then
        (* Check for inactivity timeout *)
        let '(pm, _) := destroyInstance userId pm in
        (pm, Returned VUndefined)
      else (pm, Returned VUndefined)
  end.

(** [getOrCreateInstance] after [await this.checkHealth(instance)]. *)
Definition getOrCreateInstance_checked (w : World) (userId : string)
    (config : list (string * jsval)) (ref : nat) (healthy : bool)
    (pm : PoolManager) : PoolManager * outcome :=
  if healthy then
    (* Update last activity *)
    (update ref (with_lastActivity (w_now w)) pm, Returned (VInstance ref))
  else
    (* Instance is dead, clean it up *)
    let '(pm, _) := destroyInstance userId pm in
    (pm, Suspended (GetOrCreate_destroyed userId config)).

(** [allocatePort] after [await this.isPortAvailable(port)]. *)
Definition allocatePort_probed (w : World) (k : caller) (remaining : nat)
    (port : Z) (isAvailable : bool) (pm : PoolManager)
    : PoolManager * outcome :=
  if isAvailable then
    let pm := set_usedPorts (fun s => {[port]} ∪ s) pm in
    allocatePort_return w k port pm
  else allocatePort_loop k remaining pm.

(** The calls that can be made on the pool manager. *)
Inductive call : Type :=
| CallGetOrCreateInstance (userId : string) (config : list (string * jsval))
| CallCreateInstance (userId : string) (config : list (string * jsval))
| CallDestroyInstance (userId : string)
| CallAllocatePort
| CallReleasePort (port : Z)
| CallReaperVisit (userId : string) (now : Z).

(** Run a call up to its first [await] (or to its end). *)
Definition invoke (c : call) (pm : PoolManager) : PoolManager * outcome :=
  match c with
  | CallGetOrCreateInstance userId config =>
      getOrCreateInstance userId config pm
  | CallCreateInstance userId config => createInstance userId config pm
  | CallDestroyInstance userId =>
      let '(pm, b) := destroyInstance userId pm in (pm, Returned (VBool b))
  | CallAllocatePort => allocatePort FromOutside pm
  | CallReleasePort port => (releasePort port pm, Returned VUndefined)
  | CallReaperVisit userId now => reaper_visit userId now pm
  end.

(** Resume a suspended call with the answer to its [await] and run it
    up to its next [await] (or to its end).  An answer of the wrong
    kind leaves the call suspended. *)
Definition resume (w : World) (a : answer) (t : task) (pm : PoolManager)
    : PoolManager * outcome :=
  match t, a with
  | GetOrCreate_health userId config ref, AHealth net =>
      getOrCreateInstance_checked w userId config ref
        (isHealthy (store pm !! ref) net) pm
  | GetOrCreate_destroyed userId config, ATick =>
      createInstance userId config pm
  | AllocatePort_probe k remaining port, APort isAvailable =>
      allocatePort_probed w k remaining port isAvailable pm
  | WaitForHealthy_check userId ref port startTime, AHealth net =>
      waitForHealthy_checked userId ref port startTime
        (isHealthy (store pm !! ref) net) pm
  | WaitForHealthy_sleep userId ref port startTime, ATick =>
      waitForHealthy_woke w userId ref port startTime pm
  | Reaper_check userId ref now, AHealth net =>
      reaper_checked userId ref now net pm
  | _, _ => (pm, Suspended t)
  end.

(** A call run on its own: the script gives, for each [await] in turn,
    the answer it resumes with and the environment of the stretch of
    code that follows. *)
Fixpoint drive (script : list (answer * World)) (pm : PoolManager)
    (o : outcome) : PoolManager * outcome :=
  match o, script with
  | Suspended t, (a, w) :: rest =>
      let '(pm, o) := resume w a t pm in drive rest pm o
  | _, _ => (pm, o)
  end.

Definition run (c : call) (script : list (answer * World))
    (pm : PoolManager) : PoolManager * outcome :=
  let '(pm, o) := invoke c pm in drive script pm o.

(* ----------------------------------------------------------------- *)
(** *** Overlapping calls                                             *)
(* ----------------------------------------------------------------- *)

(** The server is single threaded: a call runs without interruption
    from one [await] to the next, and calls made while others are
    suspended interleave at these points.  [calls] lists the calls
    made so far, each with its current state. *)
Record System : Type := mkSystem {
  pool : PoolManager;
  calls : list outcome
}.

Inductive action : Type :=
(* a new call, run up to its first [await] *)
| Invoke (c : call)
(* the [await] of call number [i] settles *)
| Resume (i : nat) (a : answer) (w : World)
(* the ['exit'] listener of child process [pid] fires *)
| ProcessExit (pid : nat) (code : option Z)
(* [POST /api/instances/:id/activity] on an instance object *)
| Activity (instance : nat) (now : Z).

(** [proc.on('exit', code => ...)] *)
Definition on_exit (pid : nat) (code : option Z) (pm : PoolManager)
    : PoolManager :=
  match procs pm !! pid with
  | None => pm
  | Some p =>
      update (proc_instance p)
        (with_status (if decide (code = Some 0) then Stopped else Errored)) pm
  end.

Definition step (a : action) (s : System) : System :=
  match a with
  | Invoke c =>
      let '(pm, o) := invoke c (pool s) in
      mkSystem pm (calls s ++ [o])%list
  | Resume i a w =>
      match calls s !! i with
      | Some (Suspended t) =>
          let '(pm, o) := resume w a t (pool s) in
          mkSystem pm (<[i := o]> (calls s))
      | _ => s
      end
  | ProcessExit pid code => mkSystem (on_exit pid code (pool s)) (calls s)
  | Activity ref now =>
      mkSystem (update ref (with_lastActivity now) (pool s)) (calls s)
  end.

Definition initial : System := mkSystem new [].

Definition exec (acts : list action) (s : System) : System :=
  fold_left (fun s a => step a s) acts s.

(** The states the server can be in. *)
Definition reachable (s : System) : Prop :=
  exists acts, s = exec acts initial.

(* ----------------------------------------------------------------- *)
(** *** Listings                                                      *)
(* ----------------------------------------------------------------- *)

(** [this.instances.values()].  A [Map] iterates in insertion order; the
    order of the list below is that of the [gmap], and nothing proved
    here depends on it. *)
Definition values (pm : PoolManager) : list Instance :=
  omap (fun entry => store pm !! snd entry) (map_to_list (instances pm)).

(** The object literal built by [listInstances] for each instance. *)
Definition instance_summary (instance : Instance) : jsval :=
  JObj [("id", JStr (instance_id instance));
        ("userId", JStr (userId instance));
        ("port", JNum (port instance));
        ("status", JStr (status_string (status instance)));
        ("createdAt", JNum (createdAt instance));
        ("lastActivity", JNum (lastActivity instance));
        ("config", JObj [("maxMemoryMB",
                          get_prop "maxMemoryMB" (config instance))])].

Definition listInstances (pm : PoolManager) : list jsval :=
  map instance_summary (values pm).

(** [i => i.status === 'running'] *)
Definition is_running (i : jsval) : bool :=
  match optional_get i "status" with
  | JStr s => String.eqb s "running"
  | _ => false
  end.

Definition getStats (pm : PoolManager) : jsval :=
  let instances := listInstances pm in
  JObj [("totalInstances", JNum (Z.of_nat (length instances)));
        ("runningInstances",
           JNum (Z.of_nat (length (List.filter is_running instances))));
        ("usedPorts", JNum (Z.of_nat (size (usedPorts pm))));
        ("availablePorts",
           JNum (PORT_RANGE_END - PORT_RANGE_START
                 - Z.of_nat (size (usedPorts pm))));
        ("instances", JArr instances)].

End WithPortRange.

End PoolManager.

(* ===================================================================== *)
(** ** lib/opencode/pool.js: event handlers                               *)
(* ===================================================================== *)

Module Events.

Section WithListeners.
(** The state the listeners act on and the data handed to them. *)
Variables (S D : Type).

(** A handler: what calling it does to the state of the listeners, and
    the error it throws, if any. *)
Definition handler : Type := D -> S -> S * option exn.

(** [this.eventHandlers] *)
Record EventHandlers : Type := mkEventHandlers {
  onInstanceCreated : list handler;
  onInstanceDestroyed : list handler;
  onInstanceError : list handler
}.

(** [new OpenCodePoolManager()] starts with three empty arrays. *)
Definition no_handlers : EventHandlers := mkEventHandlers [] [] [].

(** [this.eventHandlers[event]]: one of the three arrays, a member
    inherited from [Object.prototype] (a function or the prototype
    itself: truthy, and neither [push] nor [forEach] is a function of
    it), or [undefined]. *)
Inductive Entry : Type :=
| Handlers (hs : list handler)
| Inherited
| Undefined.

Definition entry (handlers : EventHandlers) (event : string) : Entry :=
  if String.eqb event "onInstanceCreated" then
    Handlers (onInstanceCreated handlers)
  else if String.eqb event "onInstanceDestroyed" then
    Handlers (onInstanceDestroyed handlers)
  else if String.eqb event "onInstanceError" then
    Handlers (onInstanceError handlers)
  else if includes Rbac.object_prototype_members event then Inherited
  else Undefined.

(** [this.eventHandlers[event].push(handler)] *)
Definition push (handlers : EventHandlers) (event : string) (h : handler)
    : EventHandlers :=
  if String.eqb event "onInstanceCreated" then
    mkEventHandlers (onInstanceCreated handlers ++ [h])%list
      (onInstanceDestroyed handlers) (onInstanceError handlers)
  else if String.eqb event "onInstanceDestroyed" then
    mkEventHandlers (onInstanceCreated handlers)
      (onInstanceDestroyed handlers ++ [h])%list (onInstanceError handlers)
  else if String.eqb event "onInstanceError" then
    mkEventHandlers (onInstanceCreated handlers)
      (onInstanceDestroyed handlers) (onInstanceError handlers ++ [h])%list
  else handlers.

(** [on(event, handler)] *)
Definition on (handlers : EventHandlers) (event : string) (h : handler)
    : result EventHandlers :=
  match entry handlers event with
  | Handlers _ => Ok (push handlers event h)
  | Inherited =>
      Throw (JsError "this.eventHandlers[event].push is not a function")
  | Undefined => Ok handlers
  end.

(** The [forEach] of [emit]: each handler is called inside [try]; what
    it throws is caught and logged with [console.error].  The result is
    the state of the listeners and the errors logged. *)
Fixpoint forEach (hs : list handler) (data : D) (s : S) (logged : list exn)
    : S * list exn :=
  match hs with
  | [] => (s, logged)
  | h :: rest =>
      match h data s with
      | (s, None) => forEach rest data s logged
      | (s, Some err) => forEach rest data s (logged ++ [err])%list
      end
  end.

(** [emit(event, data)].  A handler cannot register handlers here, so
    the array does not change while it is traversed. *)
Definition emit (handlers : EventHandlers) (event : string) (data : D)
    (s : S) : result (S * list exn) :=
  match entry handlers event with
  | Handlers hs => Ok (forEach hs data s [])
  | Inherited =>
      Throw (JsError "this.eventHandlers[event].forEach is not a function")
  | Undefined => Ok (s, [])
  end.

End WithListeners.

End Events.

(* ===================================================================== *)
(** ** routes/instances.js                                                *)
(* ===================================================================== *)

Module Routes.
Import Pool PoolManager.

(** Helper function to sanitize instance for API response *)
Definition sanitizeInstance (instance : Instance) : jsval :=
  JObj [("id", JStr (instance_id instance));
        ("userId", JStr (userId instance));
        ("port", JNum (port instance));
        ("status", JStr (status_string (status instance)));
        ("createdAt", JNum (createdAt instance));
        ("lastActivity", JNum (lastActivity instance));
        ("config", JObj [("maxMemoryMB",
                          get_prop "maxMemoryMB" (config instance))])].

(** Helper function to find instance by ID *)
Definition findInstanceById (id : string) (pm : PoolManager) : option Instance :=
  List.find (fun instance => String.eqb (instance_id instance) id) (values pm).

(** Helper function for permission check.  The role table is read from
    disk by [getRole] for every role but ['admin']; [roles] is the
    outcome of that read. *)
Definition hasPermission (roles : result (gmap string Rbac.Role))
    (user : Rbac.User) (permission : string) : result bool :=
  if Rbac.falsy_role (Rbac.role user) then Ok false
  else if String.eqb (default "" (Rbac.role user)) "admin" then Ok true
  else bindR roles (fun table =>
         Ok (Rbac.hasPermission table (Some user) permission)).

(** The request as the handler reads it: [req.user] (set by
    [requireAuth]) and [req.query.all]. *)
Record Request : Type := mkRequest {
  user : Rbac.User;
  query_all : option string
}.

Record HttpResponse : Type := mkHttpResponse {
  statusCode : Z;
  body : jsval
}.

Section WithPortRange.
Variables PORT_RANGE_START PORT_RANGE_END : Z.

(** [GET /api/instances] *)
Definition list_instances (roles : result (gmap string Rbac.Role))
    (pm : PoolManager) (req : Request) : HttpResponse :=
  match
    (* Check if admin requesting all instances *)
    bindR (hasPermission roles (user req) Rbac.INSTANCE_ADMIN)
      (fun canViewAll =>
         if canViewAll && bool_decide (query_all req = Some "true") then
           let stats := getStats PORT_RANGE_START PORT_RANGE_END pm in
           Ok (JObj [("instances", optional_get stats "instances");
                     ("stats",
                      JObj [("totalInstances", optional_get stats "totalInstances");
                            ("runningInstances", optional_get stats "runningInstances");
                            ("usedPorts", optional_get stats "usedPorts");
                            ("availablePorts", optional_get stats "availablePorts")])])
         else
           (* Return user's instance *)
           let instance := getInstance (Rbac.user_id (user req)) pm in
           Ok (JObj [("instances",
                      JArr match instance with
                           | Some i => [sanitizeInstance i]
                           | None => []
                           end);
                     ("stats", JNull)]))
  with
  | Ok response => mkHttpResponse 200 response
  | Throw _ =>
      mkHttpResponse 500 (JObj [("error", JStr "Failed to list instances")])
  end.

End WithPortRange.

(** The elements of the [instances] array of a response body. *)
Definition listed (response : HttpResponse) : list jsval :=
  match optional_get (body response) "instances" with
  | JArr items => items
  | _ => []
  end.

(** The own properties of an object, for [{ ...v }]; spreading
    [undefined], [null] or a primitive adds nothing. *)
Definition own_props (v : jsval) : list (string * jsval) :=
  match v with
  | JObj props => props
  | _ => []
  end.

Definition error_body (message : string) : jsval :=
  JObj [("error", JStr message)].

(** [err.message || fallback] *)
Definition message_or (e : exn) (fallback : string) : string :=
  match e with
  | JsError message => if String.eqb message "" then fallback else message
  end.

(** The entries of [poolManager.instances], each with the reference of
    its instance object. *)
Definition entries (pm : PoolManager) : list (nat * Instance) :=
  omap (fun entry => (fun i => (snd entry, i)) <$> store pm !! snd entry)
    (map_to_list (instances pm)).

(** [findInstanceById], keeping the reference of the object it returns
    (for the handler that writes to it). *)
Definition findInstanceEntry (id : string) (pm : PoolManager)
    : option (nat * Instance) :=
  List.find (fun e => String.eqb (instance_id (snd e)) id) (entries pm).

(** [instance.userId !== req.user.id &&
     !(await hasPermission(req.user, PERMISSIONS.INSTANCE_ADMIN))] *)
Definition denied (roles : result (gmap string Rbac.Role)) (req : Request)
    (instance : Instance) : result bool :=
  if negb (String.eqb (userId instance) (Rbac.user_id (user req))) then
    bindR (hasPermission roles (user req) Rbac.INSTANCE_ADMIN)
      (fun isAdmin => Ok (negb isAdmin))
  else Ok false.

(** [instance.userId === req.user.id ||
     await hasPermission(req.user, PERMISSIONS.INSTANCE_ADMIN)] *)
Definition canManage (roles : result (gmap string Rbac.Role)) (req : Request)
    (instance : Instance) : result bool :=
  if String.eqb (userId instance) (Rbac.user_id (user req)) then Ok true
  else hasPermission roles (user req) Rbac.INSTANCE_ADMIN.

(** The handlers below are run on their own: no other call on the pool
    manager runs between their [await]s.  [roles] is the outcome of
    reading the role table, [net] what the network answers to the health
    check, [id] is [req.params.id]. *)

(** [GET /api/instances/:id] *)
Definition get_instance (roles : result (gmap string Rbac.Role))
    (net : FetchOutcome) (pm : PoolManager) (req : Request) (id : string)
    : HttpResponse :=
  (* Find instance by ID *)
  match findInstanceById id pm with
  | None => mkHttpResponse 404 (error_body "Instance not found")
  | Some instance =>
      (* Check ownership or admin *)
      match denied roles req instance with
      | Throw _ => mkHttpResponse 500 (error_body "Failed to get instance")
      | Ok true => mkHttpResponse 403 (error_body "Access denied")
      | Ok false =>
          (* Check health *)
          let isHealthy := isHealthy (Some instance) net in
          mkHttpResponse 200
            (JObj [("instance",
                    JObj (spread (own_props (sanitizeInstance instance))
                            [("healthy", JBool isHealthy)]))])
      end
  end.

(** [GET /api/instances/:id/status] *)
Definition get_status (roles : result (gmap string Rbac.Role))
    (net : FetchOutcome) (pm : PoolManager) (req : Request) (id : string)
    : HttpResponse :=
  match findInstanceById id pm with
  | None => mkHttpResponse 404 (error_body "Instance not found")
  | Some instance =>
      match denied roles req instance with
      | Throw _ => mkHttpResponse 500 (error_body "Failed to get status")
      | Ok true => mkHttpResponse 403 (error_body "Access denied")
      | Ok false =>
          let isHealthy := isHealthy (Some instance) net in
          mkHttpResponse 200
            (JObj [("id", JStr (instance_id instance));
                   ("status", JStr (status_string (status instance)));
                   ("healthy", JBool isHealthy);
                   ("lastActivity", JNum (lastActivity instance))])
      end
  end.

(** [DELETE /api/instances/:id] *)
Definition delete_instance (roles : result (gmap string Rbac.Role))
    (pm : PoolManager) (req : Request) (id : string)
    : PoolManager * HttpResponse :=
  match findInstanceById id pm with
  | None => (pm, mkHttpResponse 404 (error_body "Instance not found"))
  | Some instance =>
      match canManage roles req instance with
      | Throw _ =>
          (pm, mkHttpResponse 500 (error_body "Failed to destroy instance"))
      | Ok false => (pm, mkHttpResponse 403 (error_body "Access denied"))
      | Ok true =>
          (fst (destroyInstance (userId instance) pm),
           mkHttpResponse 200 (JObj [("success", JBool true)]))
      end
  end.

(** [POST /api/instances/:id/activity]; [now] is [Date.now()]. *)
Definition report_activity (now : Z) (pm : PoolManager) (req : Request)
    (id : string) : PoolManager * HttpResponse :=
  match findInstanceEntry id pm with
  | None => (pm, mkHttpResponse 404 (error_body "Instance not found"))
  | Some (ref, instance) =>
      (* Only owner can report activity *)
      if negb (String.eqb (userId instance) (Rbac.user_id (user req))) then
        (pm, mkHttpResponse 403 (error_body "Access denied"))
      else
        (* Update activity *)
        (update ref (with_lastActivity now) pm,
         mkHttpResponse 200 (JObj [("success", JBool true)]))
  end.

(** The middleware [requirePermission(permission)] of rbac.js in front
    of a handler, [req.user] being set: [None] when reading the role
    table fails, for then the promise of the middleware rejects and this
    code sends no response. *)
Definition requirePermission (permission : string)
    (roles : result (gmap string Rbac.Role)) (req : Request)
    : option Rbac.Middleware :=
  match hasPermission roles (user req) permission with
  | Throw _ => None
  | Ok granted =>
      Some (if negb granted then
              Rbac.Respond 403
                (JObj [("error", JStr "Forbidden");
                       ("required", JArr [JStr permission])])
            else Rbac.Next)
  end.

(** [user?.opencodeConfig?.resources?.maxMemoryMB || 2048] *)
Definition maxMemoryMB_of (account : jsval) : jsval :=
  js_or (optional_get
           (optional_get (optional_get account "opencodeConfig") "resources")
           "maxMemoryMB")
        (JNum 2048).

Section Handlers.
Variables PORT_RANGE_START PORT_RANGE_END : Z.

(** [POST /api/instances/:id/restart].  [account] is what
    [getUserById(instance.userId)] resolves to, [script] the answers to
    the [await]s of [getOrCreateInstance]; the result is [None] as long
    as that call has not settled. *)
Definition restart_instance (roles : result (gmap string Rbac.Role))
    (account : jsval) (script : list (answer * World)) (pm : PoolManager)
    (req : Request) (id : string) : PoolManager * option HttpResponse :=
  match findInstanceById id pm with
  | None => (pm, Some (mkHttpResponse 404 (error_body "Instance not found")))
  | Some instance =>
      match canManage roles req instance with
      | Throw e =>
          (pm, Some (mkHttpResponse 500
                       (error_body (message_or e "Failed to restart instance"))))
      | Ok false => (pm, Some (mkHttpResponse 403 (error_body "Access denied")))
      | Ok true =>
          (* Destroy and recreate *)
          let pm := fst (destroyInstance (userId instance) pm) in
          match run PORT_RANGE_START PORT_RANGE_END
                  (CallGetOrCreateInstance (userId instance)
                     [("maxMemoryMB", maxMemoryMB_of account)])
                  script pm with
          | (pm, Returned (VInstance ref)) =>
              match store pm !! ref with
              | Some newInstance =>
                  (pm, Some (mkHttpResponse 200
                               (JObj [("success", JBool true);
                                      ("instance", sanitizeInstance newInstance)])))
              | None => (pm, None)
              end
          | (pm, Threw e) =>
              (pm, Some (mkHttpResponse 500
                           (error_body (message_or e "Failed to restart instance"))))
          | (pm, _) => (pm, None)
          end
      end
  end.

(** [POST /api/instances], behind [requirePermission(INSTANCE_WRITE)].
    [account] is what [getUserById(req.user.id)] resolves to and
    [body_config] is [req.body.config]. *)
Definition create_instance (roles : result (gmap string Rbac.Role))
    (account body_config : jsval) (script : list (answer * World))
    (pm : PoolManager) (req : Request) : PoolManager * option HttpResponse :=
  match requirePermission Rbac.INSTANCE_WRITE roles req with
  | None => (pm, None)
  | Some (Rbac.Respond statusCode body) =>
      (pm, Some (mkHttpResponse statusCode body))
  | Some Rbac.Next =>
      if negb (truthy account) then
        (pm, Some (mkHttpResponse 404 (error_body "User not found")))
      else
        (* Check if instance already exists *)
        match getInstance (Rbac.user_id (user req)) pm with
        | Some existingInstance =>
            (pm, Some (mkHttpResponse 200
                         (JObj [("success", JBool true);
                                ("instance", sanitizeInstance existingInstance);
                                ("message", JStr "Instance already exists")])))
        | None =>
            (* Create new instance with user config *)
            let config :=
              spread [("maxMemoryMB", maxMemoryMB_of account)]
                (own_props body_config) in
            match run PORT_RANGE_START PORT_RANGE_END
                    (CallGetOrCreateInstance (Rbac.user_id (user req)) config)
                    script pm with
            | (pm, Returned (VInstance ref)) =>
                match store pm !! ref with
                | Some instance =>
                    (pm, Some (mkHttpResponse 201
                                 (JObj [("success", JBool true);
                                        ("instance", sanitizeInstance instance)])))
                | None => (pm, None)
                end
            | (pm, Threw e) =>
                (pm, Some (mkHttpResponse 500
                             (error_body (message_or e "Failed to create instance"))))
            | (pm, _) => (pm, None)
            end
        end
  end.

(** The handler registered for [GET /api/instances/stats], behind
    [requirePermission(INSTANCE_ADMIN)]. *)
Definition get_stats (roles : result (gmap string Rbac.Role))
    (pm : PoolManager) (req : Request) : option HttpResponse :=
  match requirePermission Rbac.INSTANCE_ADMIN roles req with
  | None => None
  | Some (Rbac.Respond statusCode body) =>
      Some (mkHttpResponse statusCode body)
  | Some Rbac.Next =>
      Some (mkHttpResponse 200 (getStats PORT_RANGE_START PORT_RANGE_END pm))
  end.

End Handlers.

(** *** The router *)

Inductive Method : Type := GET | POST | DELETE.

Definition method_eqb (a b : Method) : bool :=
  match a, b with
  | GET, GET | POST, POST | DELETE, DELETE => true
  | _, _ => false
  end.

(** A segment of a route path: a literal or a parameter such as [:id]. *)
Inductive Segment : Type :=
| Literal (text : string)
| Param.

Inductive Handler : Type :=
| ListInstances | CreateInstance | GetInstance | RestartInstance
| DestroyInstance | InstanceStatus | ReportActivity | PoolStats.

(** The routes of the router, in the order in which the file registers
    them. *)
Definition routes : list (Method * list Segment * Handler) :=
  [(GET, [], ListInstances);
   (POST, [], CreateInstance);
   (GET, [Param], GetInstance);
   (POST, [Param; Literal "restart"], RestartInstance);
   (DELETE, [Param], DestroyInstance);
   (GET, [Param; Literal "status"], InstanceStatus);
   (POST, [Param; Literal "activity"], ReportActivity);
   (GET, [Literal "stats"], PoolStats)].

(** Express matches a route path segment by segment: a literal matches
    itself, a parameter any non-empty segment, which it captures. *)
Fixpoint match_path (pattern : list Segment) (path : list string)
    : option (list string) :=
  match pattern, path with
  | [], [] => Some []
  | Literal text :: pattern, segment :: path =>
      if String.eqb text segment then match_path pattern path else None
  | Param :: pattern, segment :: path =>
      if String.eqb segment "" then None
      else cons segment <$> match_path pattern path
  | _, _ => None
  end.

(** The first route, in registration order, whose method and path match
    the request; every handler of this router answers the request or
    fails without calling [next()], so no later route is tried. *)
Fixpoint dispatch_in (table : list (Method * list Segment * Handler))
    (method : Method) (path : list string) : option (Handler * list string) :=
  match table with
  | [] => None
  | (m, pattern, handler) :: rest =>
      if method_eqb m method then
        match match_path pattern path with
        | Some params => Some (handler, params)
        | None => dispatch_in rest method path
        end
      else dispatch_in rest method path
  end.

Definition dispatch (method : Method) (path : list string)
    : option (Handler * list string) :=
  dispatch_in routes method path.

End Routes.

(* ===================================================================== *)
(** * Vocabulary of the properties                                        *)
(* ===================================================================== *)

Section Vocabulary.
Import Pool PoolManager.

(** ** Strings and permissions *)

(** No character of [s] is [c]. *)
Fixpoint lacks (c : ascii) (s : string) : Prop :=
  match s with
  | EmptyString => True
  | String a rest => a <> c /\ lacks c rest
  end.

(** [scope] is the part of [permission] before its first [':'] (all of
    it when it has none). *)
Definition scope_of (permission scope : string) : Prop :=
  lacks colon scope /\
  (permission = scope \/ exists rest, permission = scope ++ String colon rest).

(** What the role table grants for [permission]. *)
Definition role_grants (rl : Rbac.Role) (permission : string) : Prop :=
  let perms := default [] (Rbac.permissions rl) in
  "*" ∈ perms \/ permission ∈ perms \/
  exists scope, scope_of permission scope /\ (scope ++ ":*") ∈ perms.

(** ** The health prober *)

(** The response is a success whose JSON body is an object with the
    property [healthy] equal to [true]. *)
Definition reports_healthy (net : FetchOutcome) : Prop :=
  exists r props,
    net = Resolved r /\ ok r = true /\
    json_body r = Some (JObj props) /\ get_prop "healthy" props = JBool true.

Definition body_healthy_false : jsval := JObj [("healthy", JBool false)].

(** ** The registry *)

(** The object behind [ref] exists and was created for [user]. *)
Definition owned_by (st : list Instance) (ref : nat) (user : string) : Prop :=
  exists i, st !! ref = Some i /\ userId i = user.

(** The store only grows, and an instance object never changes owner. *)
Definition store_le (st st' : list Instance) : Prop :=
  forall ref user, owned_by st ref user -> owned_by st' ref user.

(** Every entry of the [Map] is filed under the user id of its
    instance. *)
Definition registry_keyed (pm : PoolManager) : Prop :=
  forall user ref, instances pm !! user = Some ref ->
    owned_by (store pm) ref user.

(** A creation waiting for its instance to become healthy will register
    it under the user id the instance was built with. *)
Definition task_keyed (st : list Instance) (t : task) : Prop :=
  match t with
  | WaitForHealthy_check user ref _ _
  | WaitForHealthy_sleep user ref _ _ => owned_by st ref user
  | _ => True
  end.

Definition outcome_keyed (st : list Instance) (o : outcome) : Prop :=
  match o with
  | Suspended t => task_keyed st t
  | _ => True
  end.

(** What one uninterrupted stretch of code does to the registry. *)
Definition keeps_keyed (pm : PoolManager) (res : PoolManager * outcome) : Prop :=
  registry_keyed pm ->
  store_le (store pm) (store (fst res)) /\
  registry_keyed (fst res) /\
  outcome_keyed (store (fst res)) (snd res).

(** The invariant of the whole server: the registry is keyed by owner
    and so is every creation in flight. *)
Definition system_keyed (s : System) : Prop :=
  registry_keyed (pool s) /\
  forall i o, calls s !! i = Some o -> outcome_keyed (store (pool s)) o.

(** [ref] is a live instance of tenant [T]: the registry holds it
    ([destroyInstance] takes the instance it destroys out of the registry)
    and it was created for [T]. *)
Definition live_instance_of (pm : PoolManager) (T : string) (ref : nat) : Prop :=
  exists key i, instances pm !! key = Some ref /\
                store pm !! ref = Some i /\ userId i = T.

(** Every entry of the registry refers to an instance object. *)
Definition registry_valid (pm : PoolManager) : Prop :=
  forall user ref, instances pm !! user = Some ref -> is_Some (store pm !! ref).

(** ** Port leases *)

(** The live instance of [user] holds port [p]. *)
Definition holds (ins : gmap string nat) (st : list Instance)
    (user : string) (p : Z) : Prop :=
  exists ref i, ins !! user = Some ref /\ st !! ref = Some i /\ port i = p.

(** No live instance holds port [p]. *)
Definition unheld (ins : gmap string nat) (st : list Instance) (p : Z) : Prop :=
  forall user, ~ holds ins st user p.

(** Every registry entry refers to an instance object, the port of every
    live instance is in the lease set, and no port is held by the live
    instances of two tenants. *)
Definition leases_ok (ins : gmap string nat) (st : list Instance)
    (used : gset Z) : Prop :=
  (forall user ref, ins !! user = Some ref -> (ref < length st)%nat) /\
  (forall user p, holds ins st user p -> p ∈ used) /\
  (forall u1 u2 p, holds ins st u1 p -> holds ins st u2 p -> u1 = u2).

Definition ports_exclusive (pm : PoolManager) : Prop :=
  leases_ok (instances pm) (store pm) (usedPorts pm).

(** What a call run on its own knows at each of its [await]s. *)
Definition lease_stage (t : task) (cur : PoolManager) : Prop :=
  match t with
  | AllocatePort_probe _ _ p => ports_exclusive cur /\ p ∉ usedPorts cur
  | WaitForHealthy_check _ ref p _
  | WaitForHealthy_sleep _ ref p _ =>
      ports_exclusive cur /\ p ∈ usedPorts cur /\
      unheld (instances cur) (store cur) p /\
      (port <$> store cur !! ref) = Some p
  | _ => ports_exclusive cur
  end.

Definition lease_step (res : PoolManager * outcome) : Prop :=
  match snd res with
  | Suspended t => lease_stage t (fst res)
  | _ => ports_exclusive (fst res)
  end.

(** The call gives back a port that a live instance holds. *)
Definition releases_held_port (c : call) (pm : PoolManager) : Prop :=
  match c with
  | CallReleasePort p => exists user, holds (instances pm) (store pm) user p
  | _ => False
  end.

(** ** Creation *)

(** Compared with [pm], the slot of [user] is empty in [cur], the other
    slots are as they were and no further port is leased. *)
Definition cleaned (user : string) (pm cur : PoolManager) : Prop :=
  instances cur !! user = None /\
  (forall u, u <> user -> instances cur !! u = instances pm !! u) /\
  usedPorts cur ⊆ usedPorts pm.

(** The stages of a [getOrCreateInstance(user)] that started on [pm]. *)
Definition creating (user : string) (pm : PoolManager) (t : task)
    (cur : PoolManager) : Prop :=
  match t with
  | GetOrCreate_health u _ ref =>
      u = user /\ instances cur = instances pm /\
      usedPorts cur ⊆ usedPorts pm /\
      instances cur !! user = Some ref /\ is_Some (store cur !! ref)
  | GetOrCreate_destroyed u _ => u = user /\ cleaned user pm cur
  | AllocatePort_probe (FromCreateInstance u _) _ _ =>
      u = user /\ cleaned user pm cur
  | WaitForHealthy_check u _ port _
  | WaitForHealthy_sleep u _ port _ =>
      u = user /\ cleaned user pm (releasePort port cur)
  | _ => False
  end.

(** The errors a creation can end with. *)
Definition creation_error (w : World) (e : exn) : Prop :=
  e = JsError "No available ports in range" \/
  e = JsError "Instance failed to become healthy within timeout" \/
  w_spawn w = Some e.

Definition creation_step (user : string) (pm : PoolManager) (w : World)
    (res : PoolManager * outcome) : Prop :=
  match snd res with
  | Suspended t => creating user pm t (fst res)
  | Threw e => cleaned user pm (fst res) /\ creation_error w e
  | Returned _ => True
  end.

(** The child processes spawned for a tenant. *)
Definition spawned_for (T : string) (pm : PoolManager) : list Proc :=
  List.filter (fun p => String.eqb (proc_user p) T) (procs pm).

(** The first [await] of a caller is the health check of the registered
    instance, and the instance passes it. *)
Definition passes_health_check (st : list Instance) (ref : nat)
    (caller : list (string * jsval) * list (answer * World)) : Prop :=
  exists net w rest,
    snd caller = (AHealth net, w) :: rest /\ isHealthy (st !! ref) net = true.

(** Compared with [pm], one process has been spawned, for [T], and its
    instance is registered under [T]. *)
Definition created (T : string) (pm cur : PoolManager) (ref : nat) : Prop :=
  instances cur !! T = Some ref /\
  exists p, procs cur = (procs pm ++ [p])%list /\ proc_user p = T.

Definition spawning (T : string) (pm : PoolManager) (t : task)
    (cur : PoolManager) : Prop :=
  match t with
  | AllocatePort_probe (FromCreateInstance u _) _ _ =>
      u = T /\ procs cur = procs pm
  | WaitForHealthy_check u _ _ _
  | WaitForHealthy_sleep u _ _ _ =>
      u = T /\ exists p, procs cur = (procs pm ++ [p])%list /\ proc_user p = T
  | _ => False
  end.

Definition spawning_step (T : string) (pm : PoolManager)
    (res : PoolManager * outcome) : Prop :=
  match snd res with
  | Suspended t => spawning T pm t (fst res)
  | Returned v => exists ref, v = VInstance ref /\ created T pm (fst res) ref
  | Threw _ => True
  end.

(** ** The listing *)

(** The properties an instance has in a listing. *)
Definition sanitized (v : jsval) : Prop :=
  keys v = ["id"; "userId"; "port"; "status"; "createdAt"; "lastActivity";
            "config"] /\
  keys (optional_get v "config") = ["maxMemoryMB"].

(** Two instance objects that differ at most in their credential. *)
Definition same_but_password (i j : Instance) : Prop :=
  with_password "" i = with_password "" j.

(** Two pool managers that differ at most in the credentials of their
    instances. *)
Definition same_but_passwords (pm pm' : PoolManager) : Prop :=
  instances pm' = instances pm /\ usedPorts pm' = usedPorts pm /\
  Forall2 same_but_password (store pm) (store pm').

(** ** Concrete environments and executions *)

Definition data_dir : string := "/srv/openchamber/multiuser".

Definition tenant_a : string := "user_a1b2c3d4e5f60718".

(** A worker that answers its health check. *)
Definition healthy_answer : FetchOutcome :=
  Resolved (mkResponse 200 (Some (JObj [("healthy", JBool true)]))).

Definition world_a : World := mkWorld 1000 "5f1c0a7e" "secret-a" None "/srv/app".

Definition world_b : World := mkWorld 1010 "9b3d42c8" "secret-b" None "/srv/app".

Definition world_late : World := mkWorld 40000 "00000000" "unused" None "/srv/app".

Definition world_no_binary : World :=
  mkWorld 1000 "5f1c0a7e" "secret-a" (Some (JsError "spawn opencode ENOENT")) "/srv/app".

Definition getOrCreate (user : string) : action :=
  Invoke (CallGetOrCreateInstance user []).

(** One tenant asks for its instance, the port probe succeeds and the
    worker answers its first health check. *)
Definition one_tenant : list action :=
  [getOrCreate "alice"; Resume 0 (APort true) world_a;
   Resume 0 (AHealth healthy_answer) world_a].

(** Three creations overlap on a range of two ports.  The first is still
    waiting for its probe of 9000 when the second takes 9001 and wraps the
    cursor, so the third probes 9000 as well: the lease set does not hold
    it yet. *)
Definition three_overlapping_creations : list action :=
  [getOrCreate "alice"; getOrCreate "bob"; getOrCreate "carol";
   Resume 0 (APort true) world_a; Resume 2 (APort true) world_b;
   Resume 0 (AHealth healthy_answer) world_a;
   Resume 2 (AHealth healthy_answer) world_b].

(** Two callers for the same tenant overlap: the second arrives while the
    creation started by the first is still in flight. *)
Definition two_callers_one_tenant : list action :=
  [getOrCreate "alice"; getOrCreate "alice";
   Resume 0 (APort true) world_a; Resume 1 (APort true) world_b;
   Resume 0 (AHealth healthy_answer) world_a;
   Resume 1 (AHealth healthy_answer) world_b].

(** [allocatePort()] called on its own, the operating system reporting
    every port free. *)
Definition allocate_on (first last : Z) (pm : PoolManager) : PoolManager * outcome :=
  run first last CallAllocatePort [(APort true, world_a)] pm.

Definition no_ports : outcome := Threw (JsError "No available ports in range").

(** The worker never answers: the probe of port 9000 succeeds, the health
    check is refused and the clock passes the 30 s limit. *)
Definition never_healthy : list (answer * World) :=
  [(APort true, world_a); (AHealth (Rejected ConnectionRefused), world_a);
   (ATick, world_late)].

(** The first caller creates the instance, two more callers follow. *)
Definition first_caller : list (answer * World) :=
  [(APort true, world_a); (AHealth healthy_answer, world_a)].

Definition later_callers : list (list (string * jsval) * list (answer * World)) :=
  [([], [(AHealth healthy_answer, world_b)]);
   ([], [(AHealth healthy_answer, world_b)])].

(** ** Calls that do not overlap *)

Section Executions.
Variables PORT_RANGE_START PORT_RANGE_END : Z.

(** The callers of [getOrCreateInstance(T, config)] served one after the
    other, each call running to its end before the next one starts; a
    caller is its [config] and the script of its [await]s. *)
Fixpoint serve (T : string)
    (callers : list (list (string * jsval) * list (answer * World)))
    (pm : PoolManager) : PoolManager * list outcome :=
  match callers with
  | [] => (pm, [])
  | (config, script) :: rest =>
      let '(pm, o) := run PORT_RANGE_START PORT_RANGE_END
                        (CallGetOrCreateInstance T config) script pm in
      let '(pm, os) := serve T rest pm in
      (pm, o :: os)
  end.

(** The pool managers reached when calls never overlap: each call runs
    to its end (or is abandoned at an [await]) before the next starts;
    child processes may exit and activity may be reported in between.
    [releasePort] is only called directly for ports no live instance
    holds. *)
Inductive one_at_a_time : PoolManager -> Prop :=
| at_start : one_at_a_time (new PORT_RANGE_START)
| after_call pm c script :
    one_at_a_time pm -> ~ releases_held_port c pm ->
    one_at_a_time (fst (run PORT_RANGE_START PORT_RANGE_END c script pm))
| after_exit pm pid code :
    one_at_a_time pm -> one_at_a_time (on_exit pid code pm)
| after_activity pm ref now :
    one_at_a_time pm -> one_at_a_time (update ref (with_lastActivity now) pm).

End Executions.

(** ** Ports and statuses in every execution *)

Definition in_range (first last p : Z) : Prop := first <= p <= last.

(** The cursor, the leased ports and the ports of the instance objects
    lie in the configured range. *)
Definition pool_in_range (first last : Z) (pm : PoolManager) : Prop :=
  in_range first last (nextPort pm) /\
  (forall p, p ∈ usedPorts pm -> in_range first last p) /\
  (forall ref i, store pm !! ref = Some i -> in_range first last (port i)).

Definition outcome_in_range (first last : Z) (o : outcome) : Prop :=
  match o with
  | Suspended (AllocatePort_probe _ _ p) => in_range first last p
  | Suspended (WaitForHealthy_check _ _ p _) => in_range first last p
  | Suspended (WaitForHealthy_sleep _ _ p _) => in_range first last p
  | _ => True
  end.

Definition system_in_range (first last : Z) (s : System) : Prop :=
  pool_in_range first last (pool s) /\
  forall i o, calls s !! i = Some o -> outcome_in_range first last o.

(** The statuses an instance can have while it is registered. *)
Definition registered_status (s : Status) : Prop :=
  s = Running \/ s = Stopped \/ s = Errored.

Definition registry_started (pm : PoolManager) : Prop :=
  forall user ref, instances pm !! user = Some ref ->
    exists i, store pm !! ref = Some i /\ registered_status (status i).

(** ** Child processes *)

(** The process handle of every instance object refers to the child
    process that was spawned for it, with its port as [--port]. *)
Definition procs_ok (pm : PoolManager) : Prop :=
  forall ref i pid, store pm !! ref = Some i -> process i = Some pid ->
    exists p, procs pm !! pid = Some p /\ proc_instance p = ref /\
              proc_port p = port i /\ proc_user p = userId i.

Definition has_process (st : list Instance) (ref : nat) : Prop :=
  exists i pid, st !! ref = Some i /\ process i = Some pid.

Definition registry_spawned (pm : PoolManager) : Prop :=
  forall user ref, instances pm !! user = Some ref ->
    has_process (store pm) ref.

Definition outcome_spawned (st : list Instance) (o : outcome) : Prop :=
  match o with
  | Suspended (WaitForHealthy_check _ ref _ _)
  | Suspended (WaitForHealthy_sleep _ ref _ _) => has_process st ref
  | _ => True
  end.

Definition system_spawned (s : System) : Prop :=
  procs_ok (pool s) /\ registry_spawned (pool s) /\
  forall i o, calls s !! i = Some o -> outcome_spawned (store (pool s)) o.

(** What one uninterrupted stretch of code does to the process table. *)
Definition keeps_spawned (pm : PoolManager) (res : PoolManager * outcome)
    : Prop :=
  procs_ok pm -> registry_spawned pm ->
  procs_ok (fst res) /\ registry_spawned (fst res) /\
  outcome_spawned (store (fst res)) (snd res) /\
  (forall ref, has_process (store pm) ref -> has_process (store (fst res)) ref).

(** The instance object [i], registered under [user] with reference
    [ref] before a shutdown, has been torn down in [pm]: its slot is
    empty, it is marked destroyed, its port is free again and its child
    process has been sent [SIGTERM]. *)
Definition torn_down (pm : PoolManager) (user : string) (ref : nat)
    (i : Instance) : Prop :=
  instances pm !! user = None /\
  (status <$> store pm !! ref) = Some Destroyed /\
  (port i ∉ usedPorts pm) /\
  forall pid, process i = Some pid ->
    exists p, procs pm !! pid = Some p /\ SIGTERM ∈ proc_signals p.

(** ** The allocator *)

(** The positions the cursor of [allocatePort] goes through in [n] rounds
    of its loop, starting from [cursor]. *)
Fixpoint candidates (first last : Z) (n : nat) (cursor : Z) : list Z :=
  match n with
  | O => []
  | S n =>
      cursor :: candidates first last n
                  (if cursor + 1 >? last then first else cursor + 1)
  end.

(** The answers to the probes of [allocatePort] given by an operating
    system in which exactly the ports satisfying [free] can be bound:
    of the ports the cursor goes through, those that are leased are not
    probed. *)
Definition probes (free : Z -> bool) (w : World) (used : gset Z)
    (ports : list Z) : list (answer * World) :=
  map (fun p => (APort (free p), w))
    (List.filter (fun p => bool_decide (p ∉ used)) ports).

(** The first of [ports] that is neither leased nor taken. *)
Definition first_free (free : Z -> bool) (used : gset Z) (ports : list Z)
    : option Z :=
  List.find (fun p => bool_decide (p ∉ used) && free p) ports.

(** ** A creation run on its own *)

(** Compared with [pm], a creation for [user] has leased the port [p],
    which was free, built one instance object, [ref], with that port and
    the status [st], and spawned one child process, for that object;
    everything that was in the store, the process table and the lease
    set is as it was. *)
Definition built (user : string) (pm cur : PoolManager) (ref : nat) (p : Z)
    (st : Status) : Prop :=
  ref = length (store pm) /\
  (exists i, store cur = (store pm ++ [i])%list /\ userId i = user /\
             port i = p /\ process i = Some (length (procs pm)) /\
             status i = st) /\
  procs cur = (procs pm ++ [mkProc ref user p []])%list /\
  (p ∉ usedPorts pm) /\ usedPorts cur = {[p]} ∪ usedPorts pm.

(** Apart from the cursor, [cur] is [pm]. *)
Definition same_pool (pm cur : PoolManager) : Prop :=
  instances cur = instances pm /\ store cur = store pm /\
  usedPorts cur = usedPorts pm /\ procs cur = procs pm /\
  emitted cur = emitted pm.

(** The stages of a [createInstance(user)] that started on [pm]. *)
Definition building (user : string) (pm : PoolManager) (t : task)
    (cur : PoolManager) : Prop :=
  match t with
  | AllocatePort_probe (FromCreateInstance u _) _ p =>
      u = user /\ same_pool pm cur /\ p ∉ usedPorts pm
  | WaitForHealthy_check u ref p _
  | WaitForHealthy_sleep u ref p _ =>
      u = user /\ instances cur = instances pm /\
      emitted cur = emitted pm /\ built user pm cur ref p Starting
  | _ => False
  end.

(** What [createInstance(user)] has done when it returns: the instance
    it built has answered the health check [a], is registered and
    running. *)
Definition building_step (user : string) (pm : PoolManager) (a : answer)
    (res : PoolManager * outcome) : Prop :=
  match snd res with
  | Suspended t => building user pm t (fst res)
  | Returned v =>
      exists ref p i net,
        v = VInstance ref /\ a = AHealth net /\
        store (fst res) !! ref = Some i /\ isHealthy (Some i) net = true /\
        built user pm (fst res) ref p Running /\
        instances (fst res) = <[user := ref]> (instances pm) /\
        emitted (fst res) = (emitted pm ++ [onInstanceCreated ref])%list
  | Threw _ => True
  end.

(** ** A creation that fails *)

(** Compared with [pm], a creation for [user] has built one instance
    object, still ['starting'], and spawned one child process for it,
    which has been sent no signal; the port [p] it had leased is free
    again and the registry is as it was. *)
Definition abandoned (user : string) (pm cur : PoolManager) (p : Z) : Prop :=
  (exists i, store cur = (store pm ++ [i])%list /\ userId i = user /\
             port i = p /\ process i = Some (length (procs pm)) /\
             status i = Starting) /\
  procs cur = (procs pm ++ [mkProc (length (store pm)) user p []])%list /\
  (p ∉ usedPorts cur) /\ usedPorts cur = usedPorts pm /\
  instances cur = instances pm.

(** The three ways in which [createInstance(user)], started on [pm],
    throws [e], and what each leaves behind: no port could be leased and
    nothing was built; [spawn] threw (in the stretch of code that ran in
    the environment [w]) and no process exists; the instance never
    became healthy and its process is left behind. *)
Definition creation_failure (user : string) (pm : PoolManager) (w : World)
    (e : exn) (cur : PoolManager) : Prop :=
  (e = JsError "No available ports in range" /\ same_pool pm cur) \/
  (w_spawn w = Some e /\ procs cur = procs pm /\
   usedPorts cur = usedPorts pm /\ instances cur = instances pm) \/
  (e = JsError "Instance failed to become healthy within timeout" /\
   exists p, abandoned user pm cur p).

Definition failing_step (user : string) (pm : PoolManager) (w : World)
    (res : PoolManager * outcome) : Prop :=
  match snd res with
  | Suspended t => building user pm t (fst res)
  | Returned _ => True
  | Threw e => creation_failure user pm w e (fst res)
  end.

(** ** What [getOrCreateInstance] returns *)

(** The stages of a [getOrCreateInstance(user)] run on its own. *)
Definition fetching (user : string) (t : task) (cur : PoolManager) : Prop :=
  match t with
  | GetOrCreate_health u _ ref => u = user /\ instances cur !! user = Some ref
  | GetOrCreate_destroyed u _ => u = user
  | AllocatePort_probe (FromCreateInstance u _) _ _ => u = user
  | WaitForHealthy_check u _ _ _
  | WaitForHealthy_sleep u _ _ _ => u = user
  | _ => False
  end.

(** When the call returns, it returns the instance registered for
    [user], which has just answered the health check [a]. *)
Definition fetching_step (user : string) (a : answer)
    (res : PoolManager * outcome) : Prop :=
  match snd res with
  | Suspended t => fetching user t (fst res)
  | Returned v =>
      exists ref net,
        v = VInstance ref /\ a = AHealth net /\
        instances (fst res) !! user = Some ref /\
        isHealthy (store (fst res) !! ref) net = true
  | Threw _ => True
  end.

(** ** Access to the instance routes *)

(** The requester owns [instance] or is granted ['instance:admin']. *)
Definition may_manage (roles : result (gmap string Rbac.Role))
    (req : Routes.Request) (instance : Instance) : Prop :=
  userId instance = Rbac.user_id (Routes.user req) \/
  Routes.hasPermission roles (Routes.user req) Rbac.INSTANCE_ADMIN = Ok true.

(** The answer to a requester who may not manage the instance: 403
    ['Access denied'] when the permission check says no, 500 with an
    error message when the role table cannot be read. *)
Definition refused (check : result bool) (response : Routes.HttpResponse)
    : Prop :=
  match check with
  | Ok _ =>
      response = Routes.mkHttpResponse 403 (Routes.error_body "Access denied")
  | Throw _ =>
      Routes.statusCode response = 500 /\
      exists message, Routes.body response = Routes.error_body message
  end.

(** ** Paths *)

(** A path segment that names a file or a directory: not empty, not
    ["."] or [".."], and without ['/']. *)
Definition plain_segment (s : string) : Prop :=
  s <> "" /\ s <> "." /\ s <> ".." /\ lacks slash s.

(** The absolute path in normal form made of the segments [segs]. *)
Definition absolute (segs : list string) : string := "/" ++ join "/" segs.

(** ** Event handlers *)

(** The events the pool manager emits. *)
Definition known_event (event : string) : Prop :=
  event = "onInstanceCreated" \/ event = "onInstanceDestroyed" \/
  event = "onInstanceError".

(** The state of the listeners once each handler of [hs] has been called
    with [data], in order, whatever the handlers throw. *)
Definition all_called {S D : Type} (hs : list (Events.handler S D))
    (data : D) (s : S) : S :=
  fold_left (fun s h => fst (h data s)) hs s.

End Vocabulary.

(* ===================================================================== *)
(** * Properties                                                          *)
(* ===================================================================== *)

Section StringFacts.

Lemma includes_elem_of (arr : list string) (x : string) :
  includes arr x = true <-> x ∈ arr.
Proof.
  induction arr as [|y rest IH]; simpl.
  - split; [discriminate | intros H; inversion H].
  - rewrite orb_true_iff, IH, String.eqb_eq, elem_of_cons.
    split; intros [H|H]; auto.
Qed.

Lemma split_on_nonempty sep s : split_on sep s <> [].
Proof.
  destruct s as [|c rest]; simpl; [discriminate|].
  destruct (Ascii.eqb c sep); [discriminate|].
  destruct (split_on sep rest); discriminate.
Qed.

Lemma split_on_hd_lacks sep s : lacks sep (hd "" (split_on sep s)).
Proof.
  induction s as [|c rest IH]; simpl; [exact I|].
  destruct (Ascii.eqb c sep) eqn:E; simpl; [exact I|].
  destruct (split_on sep rest) as [|seg segs] eqn:Es; simpl.
  - split; [|exact I]. intros ->. rewrite Ascii.eqb_refl in E. discriminate.
  - split; [|exact IH]. intros ->. rewrite Ascii.eqb_refl in E. discriminate.
Qed.

Lemma split_on_hd_prefix sep s :
  s = hd "" (split_on sep s) \/
  exists rest, s = hd "" (split_on sep s) ++ String sep rest.
Proof.
  induction s as [|c rest IH]; simpl; [left; reflexivity|].
  destruct (Ascii.eqb c sep) eqn:E; simpl.
  - apply Ascii.eqb_eq in E. subst c. right. exists rest. reflexivity.
  - pose proof (split_on_nonempty sep rest) as Hne.
    destruct (split_on sep rest) as [|seg segs]; [congruence|]. simpl in *.
    destruct IH as [IH|[r IH]].
    + left. congruence.
    + right. exists r. rewrite IH at 1. reflexivity.
Qed.

Lemma lacks_prefix_unique c a b ra rb :
  lacks c a -> lacks c b ->
  a ++ String c ra = b ++ String c rb -> a = b.
Proof.
  revert b. induction a as [|x a IH]; intros [|y b]; simpl; intros Ha Hb E.
  - reflexivity.
  - injection E as E1 E2. destruct Hb as [Hb _]. congruence.
  - injection E as E1 E2. destruct Ha as [Ha _]. congruence.
  - injection E as E1 E2. destruct Ha as [_ Ha], Hb as [_ Hb].
    f_equal; [assumption | eapply IH; eassumption].
Qed.

Lemma lacks_no_split c a b rb :
  lacks c a -> a = b ++ String c rb -> False.
Proof.
  revert b. induction a as [|x a IH]; intros [|y b]; simpl; intros Ha E;
    try discriminate.
  - injection E as E1 E2. destruct Ha as [Ha _]. congruence.
  - injection E as E1 E2. destruct Ha as [_ Ha]. eapply IH; eassumption.
Qed.

End StringFacts.

Section RbacFacts.
Import Rbac.

Lemma scope_of_split permission :
  scope_of permission (hd "" (split_on colon permission)).
Proof.
  split; [apply split_on_hd_lacks | apply split_on_hd_prefix].
Qed.

Lemma scope_of_unique permission s1 s2 :
  scope_of permission s1 -> scope_of permission s2 -> s1 = s2.
Proof.
  intros [L1 [E1|[r1 E1]]] [L2 [E2|[r2 E2]]].
  - congruence.
  - subst permission. exfalso. exact (lacks_no_split _ _ _ _ L1 E2).
  - subst permission. exfalso. exact (lacks_no_split _ _ _ _ L2 (eq_sym E2)).
  - eapply lacks_prefix_unique; [exact L1 | exact L2 |].
    rewrite <- E1. exact E2.
Qed.

(** C10. [hasPermission] is true for the role ['admin'] whatever the
    permission; for any other role it is true exactly when the role is in
    the role table and its permission list holds ['*'], the permission
    itself, or ['<scope>:*'] for the part of the permission before its
    first [':']; it is false when the user or its role is absent or the
    role is not in the table. *)
Theorem hasPermission_spec (roles : gmap string Role)
    (user : option User) (permission : string) :
  hasPermission roles user permission = true <->
  exists u r, user = Some u /\ role u = Some r /\ r <> "" /\
    (r = "admin" \/
     exists rl, roles !! r = Some rl /\ role_grants rl permission).
Proof.
  unfold hasPermission. split.
  - destruct user as [u|]; [|discriminate].
    destruct (role u) as [r|] eqn:Hr; simpl; [|discriminate].
    destruct (String.eqb r "") eqn:E1; [discriminate|].
    apply String.eqb_neq in E1. intros H.
    exists u, r. repeat split; try assumption.
    destruct (String.eqb r "admin") eqn:E2;
      [left; apply String.eqb_eq; exact E2|right].
    unfold getRole in H.
    destruct (roles !! r) as [rl|] eqn:Hrl; [|discriminate].
    exists rl. split; [reflexivity|]. unfold role_grants.
    destruct (includes _ WILDCARD_PERMISSION) eqn:I1;
      [left; apply includes_elem_of; exact I1|].
    destruct (includes _ permission) eqn:I2;
      [right; left; apply includes_elem_of; exact I2|].
    destruct (includes _ (_ ++ ":*")) eqn:I3; [|discriminate].
    right; right. eexists. split; [apply scope_of_split|].
    apply includes_elem_of. exact I3.
  - intros (u & r & -> & Hr & Hne & Hg). rewrite Hr. simpl.
    apply String.eqb_neq in Hne. rewrite Hne.
    destruct (String.eqb r "admin") eqn:E2; [reflexivity|].
    destruct Hg as [->|(rl & Hrl & Hg)]; [discriminate|].
    unfold getRole. rewrite Hrl.
    destruct Hg as [Hg|[Hg|[scope [Hs Hg]]]].
    + apply includes_elem_of in Hg. unfold WILDCARD_PERMISSION. rewrite Hg.
      reflexivity.
    + apply includes_elem_of in Hg. rewrite Hg.
      destruct (includes _ WILDCARD_PERMISSION); reflexivity.
    + rewrite (scope_of_unique _ _ _ Hs (scope_of_split permission)) in Hg.
      apply includes_elem_of in Hg. rewrite Hg.
      destruct (includes _ WILDCARD_PERMISSION); [reflexivity|].
      destruct (includes _ permission); reflexivity.
Qed.

End RbacFacts.

Section TenantFacts.
Import Tenant.

Example getUserDataPath_example :
  getUserDataPath data_dir tenant_a
  = "/srv/openchamber/multiuser/users/user_a1b2c3d4e5f60718".
Proof. vm_compute. reflexivity. Qed.

Example getTenantPath_inside :
  getTenantPath data_dir "/" tenant_a "projects/../settings.json"
  = Ok "/srv/openchamber/multiuser/users/user_a1b2c3d4e5f60718/settings.json".
Proof. vm_compute. reflexivity. Qed.

Example getTenantPath_parent_rejected :
  getTenantPath data_dir "/" tenant_a "../../users.json"
  = Throw (JsError "Path traversal detected").
Proof. vm_compute. reflexivity. Qed.

Lemma startsWith_append s p : startsWith (p ++ s) p = true.
Proof.
  induction p as [|c p IH]; simpl; [destruct s; reflexivity|].
  rewrite Ascii.eqb_refl. exact IH.
Qed.

Lemma startsWith_length s p :
  startsWith s p = true -> (String.length p <= String.length s)%nat.
Proof.
  revert s. induction p as [|c p IH]; intros [|d s]; simpl; intros H;
    try lia; try discriminate.
  apply andb_true_iff in H. destruct H as [_ H]. apply IH in H. lia.
Qed.

(** What the prefix test of [getTenantPath] does establish: a returned
    path has the tenant root as a string prefix. *)
Lemma getTenantPath_prefix dir cwd tenantId filePath p :
  getTenantPath dir cwd tenantId filePath = Ok p ->
  startsWith p (getUserDataPath dir tenantId) = true.
Proof.
  unfold getTenantPath. intros H.
  destruct (startsWith _ _) eqn:E; simpl in H; [|discriminate].
  injection H as <-. exact E.
Qed.

(** C9 (the code breaks it). A relative path that climbs out of the
    tenant root into a sibling directory whose name extends the tenant id
    is returned by [getTenantPath], not rejected, although it is neither
    the root nor below it; [isPathInTenant] accepts the same path. *)
Theorem getTenantPath_sibling_escape :
  let root := getUserDataPath data_dir tenant_a in
  let escaped :=
    "/srv/openchamber/multiuser/users/user_a1b2c3d4e5f60718-old/settings.json" in
  getTenantPath data_dir "/" tenant_a
    "../user_a1b2c3d4e5f60718-old/settings.json" = Ok escaped /\
  isPathInTenant data_dir "/" tenant_a escaped = true /\
  ~ within root escaped.
Proof.
  repeat split; try (vm_compute; reflexivity).
  intros [H|H]; vm_compute in H; discriminate.
Qed.

End TenantFacts.

(* ===================================================================== *)
(** ** The instance registry                                              *)
(* ===================================================================== *)

Section RegistryFacts.
Import Pool PoolManager.
Variables PORT_RANGE_START PORT_RANGE_END : Z.

Abbreviation invoke := (PoolManager.invoke PORT_RANGE_START PORT_RANGE_END).
Abbreviation resume := (PoolManager.resume PORT_RANGE_START PORT_RANGE_END).
Abbreviation step := (PoolManager.step PORT_RANGE_START PORT_RANGE_END).
Abbreviation exec := (PoolManager.exec PORT_RANGE_START PORT_RANGE_END).
Abbreviation initial := (PoolManager.initial PORT_RANGE_START).

Lemma store_le_refl st : store_le st st.
Proof. intros ref user H. exact H. Qed.

Lemma store_le_trans st1 st2 st3 :
  store_le st1 st2 -> store_le st2 st3 -> store_le st1 st3.
Proof. intros H12 H23 ref user H. apply H23, H12, H. Qed.

Lemma store_le_alter st ref f :
  (forall i, userId (f i) = userId i) -> store_le st (alter f ref st).
Proof.
  intros Hf r user (i & Hi & Hu).
  destruct (decide (ref = r)) as [->|Hne].
  - exists (f i). rewrite list_lookup_alter_eq, Hi. simpl.
    split; [reflexivity | rewrite Hf; exact Hu].
  - exists i. rewrite list_lookup_alter_ne by exact Hne. auto.
Qed.

Lemma store_le_app st i : store_le st (st ++ [i])%list.
Proof.
  intros r user (j & Hj & Hu). exists j. split; [|exact Hu].
  apply lookup_app_l_Some. exact Hj.
Qed.

Lemma owned_by_new st i : owned_by (st ++ [i])%list (length st) (userId i).
Proof.
  exists i. split; [|reflexivity].
  rewrite lookup_app_r by lia. rewrite Nat.sub_diag. reflexivity.
Qed.

Lemma task_keyed_mono st st' t :
  store_le st st' -> task_keyed st t -> task_keyed st' t.
Proof. intros Hle. destruct t; simpl; auto. Qed.

Lemma outcome_keyed_mono st st' o :
  store_le st st' -> outcome_keyed st o -> outcome_keyed st' o.
Proof. intros Hle. destruct o; simpl; auto. apply task_keyed_mono, Hle. Qed.

Lemma registry_keyed_mono pm pm' :
  instances pm' = instances pm -> store_le (store pm) (store pm') ->
  registry_keyed pm -> registry_keyed pm'.
Proof.
  intros Hi Hle H user ref Hl. rewrite Hi in Hl. apply Hle, H, Hl.
Qed.

Lemma allocatePort_scan_fields n pm :
  let pm' := fst (allocatePort_scan PORT_RANGE_START PORT_RANGE_END n pm) in
  instances pm' = instances pm /\ store pm' = store pm /\
  usedPorts pm' = usedPorts pm /\ procs pm' = procs pm /\
  emitted pm' = emitted pm.
Proof.
  revert pm. induction n as [|n IH]; intros pm; simpl; [auto|].
  destruct (decide _); simpl; [|auto].
  destruct (IH (advance PORT_RANGE_START PORT_RANGE_END pm))
    as (H1 & H2 & H3 & H4 & H5).
  auto.
Qed.

Lemma allocatePort_loop_keyed k n pm :
  keeps_keyed pm (allocatePort_loop PORT_RANGE_START PORT_RANGE_END k n pm).
Proof.
  intros Hreg. unfold allocatePort_loop.
  pose proof (allocatePort_scan_fields n pm) as (Hi & Hs & _).
  destruct (allocatePort_scan _ _ n pm) as [pm' [[port m]|]]; simpl in *;
    rewrite Hs; (split; [apply store_le_refl|]);
    (split; [|exact I]);
    (eapply registry_keyed_mono; [exact Hi | rewrite Hs; apply store_le_refl | exact Hreg]).
Qed.

Lemma destroyInstance_keyed user pm :
  registry_keyed pm ->
  store_le (store pm) (store (fst (destroyInstance user pm))) /\
  registry_keyed (fst (destroyInstance user pm)).
Proof.
  intros Hreg. unfold destroyInstance.
  destruct (instances pm !! user) as [ref|] eqn:Hl;
    [|split; [apply store_le_refl | exact Hreg]].
  destruct (store pm !! ref) as [instance|] eqn:Hs;
    [|split; [apply store_le_refl | exact Hreg]].
  assert (Hle : store_le (store pm)
            (alter (with_status Destroyed) ref (store pm)))
    by (apply store_le_alter; reflexivity).
  destruct (process instance); simpl; (split; [exact Hle|]);
    intros u r Hu; simpl in Hu;
    apply lookup_delete_Some in Hu; destruct Hu as [_ Hu];
    apply Hle, Hreg, Hu.
Qed.

Lemma createInstance_spawn_keyed w user config port pm :
  keeps_keyed pm (createInstance_spawn w user config port pm).
Proof.
  intros Hreg. unfold createInstance_spawn, createInstance_failed, waitForHealthy,
    spawnOpenCode.
  set (instance := mkInstance _ _ _ _ _ _ _ _ _).
  destruct (w_spawn w) as [e|]; simpl.
  - split; [apply store_le_app|]. split; [|exact I].
    intros u r Hu. simpl in Hu. apply store_le_app, Hreg, Hu.
  - assert (Hle : store_le (store pm)
              (alter (with_process (Some (length (procs pm))))
                 (length (store pm)) (store pm ++ [instance])%list)).
    { eapply store_le_trans; [apply store_le_app|].
      apply store_le_alter. reflexivity. }
    split; [exact Hle|]. split.
    + intros u r Hu. simpl in Hu. apply Hle, Hreg, Hu.
    + apply (store_le_alter _ _ (with_process _)); [reflexivity|].
      apply (owned_by_new (store pm) instance).
Qed.

Lemma createInstance_register_keyed user ref pm :
  owned_by (store pm) ref user ->
  keeps_keyed pm (createInstance_register user ref pm).
Proof.
  intros Hown Hreg. unfold createInstance_register. simpl.
  assert (Hle : store_le (store pm) (alter (with_status Running) ref (store pm)))
    by (apply store_le_alter; reflexivity).
  split; [exact Hle|]. split; [|exact I].
  intros u r Hu. simpl in Hu.
  apply lookup_insert_Some in Hu. destruct Hu as [[<- <-]|[_ Hu]].
  - apply Hle, Hown.
  - apply Hle, Hreg, Hu.
Qed.

Lemma invoke_keyed c pm : keeps_keyed pm (invoke c pm).
Proof.
  destruct c as [user config|user config|user| |port|user now];
    unfold PoolManager.invoke.
  - unfold getOrCreateInstance, createInstance, allocatePort.
    destruct (instances pm !! user) as [ref|].
    + intros Hreg. simpl. repeat split; auto using store_le_refl.
    + apply allocatePort_loop_keyed.
  - apply allocatePort_loop_keyed.
  - intros Hreg. pose proof (destroyInstance_keyed user pm Hreg) as [H1 H2].
    destruct (destroyInstance user pm) as [pm' b]. simpl in *.
    repeat split; assumption.
  - apply allocatePort_loop_keyed.
  - intros Hreg. simpl. repeat split; auto using store_le_refl.
  - intros Hreg. unfold reaper_visit.
    destruct (instances pm !! user) as [ref|];
      [|simpl; repeat split; auto using store_le_refl].
    destruct (store pm !! ref) as [instance|];
      [|simpl; repeat split; auto using store_le_refl].
    destruct (_ || _); simpl; repeat split; auto using store_le_refl.
Qed.

Lemma resume_keyed w a t pm :
  task_keyed (store pm) t -> keeps_keyed pm (resume w a t pm).
Proof.
  intros Ht Hreg.
  assert (Hsame : store_le (store pm) (store pm) /\ registry_keyed pm /\
                  outcome_keyed (store pm) (Suspended t))
    by (repeat split; auto using store_le_refl).
  destruct t as [user config ref|user config|k n port|user ref port st
                |user ref port st|user ref now];
    destruct a as [avail|net|]; try exact Hsame; unfold PoolManager.resume, getOrCreateInstance_checked,
      allocatePort_probed, waitForHealthy_checked, waitForHealthy_woke,
      reaper_checked.
  - (* getOrCreateInstance after its health check *)
    destruct (isHealthy _ net).
    + simpl.
      assert (Hle : store_le (store pm)
                (alter (with_lastActivity (w_now w)) ref (store pm)))
        by (apply store_le_alter; reflexivity).
      split; [exact Hle|]. split; [|exact I].
      intros u r Hu. apply Hle, Hreg, Hu.
    + pose proof (destroyInstance_keyed user pm Hreg) as [H1 H2].
      destruct (destroyInstance user pm) as [pm' b]. simpl in *.
      repeat split; assumption.
  - apply allocatePort_loop_keyed, Hreg.
  - destruct avail; [|apply allocatePort_loop_keyed, Hreg].
    destruct k as [user config|]; simpl.
    + apply (createInstance_spawn_keyed w user config port
               (set_usedPorts (fun s => {[port]} ∪ s) pm)), Hreg.
    + repeat split; auto using store_le_refl.
  - destruct (isHealthy _ net).
    + apply createInstance_register_keyed; assumption.
    + simpl. repeat split; auto using store_le_refl.
  - destruct (_ <? _); simpl.
    + repeat split; auto using store_le_refl.
    + repeat split; auto using store_le_refl.
  - destruct (store pm !! ref) as [instance|];
      [|simpl; repeat split; auto using store_le_refl].
    pose proof (destroyInstance_keyed user pm Hreg) as [H1 H2].
    destruct (negb _); [|destruct (_ >? _)];
      try (destruct (destroyInstance user pm) as [pm' b]; simpl in *;
           repeat split; assumption).
    simpl. repeat split; auto using store_le_refl.
Qed.

Lemma initial_keyed : system_keyed initial.
Proof. split; [intros u r H | intros i o H]; inversion H. Qed.

Lemma step_keyed a s : system_keyed s -> system_keyed (step a s).
Proof.
  intros [Hreg Hcalls]. destruct a as [c|i a w|pid code|ref now];
    unfold PoolManager.step.
  - pose proof (invoke_keyed c (pool s) Hreg) as (Hle & Hreg' & Ho).
    destruct (invoke c (pool s)) as [pm o]. simpl in *.
    split; [exact Hreg'|]. intros j o' Hj.
    apply lookup_app_Some in Hj. destruct Hj as [Hj|[_ Hj]].
    + eapply outcome_keyed_mono; [exact Hle | eapply Hcalls; exact Hj].
    + apply list_lookup_singleton_Some in Hj. destruct Hj as [_ <-]. exact Ho.
  - destruct (calls s !! i) as [[t| |]|] eqn:Hi; try (split; assumption).
    pose proof (resume_keyed w a t (pool s) (Hcalls i _ Hi) Hreg)
      as (Hle & Hreg' & Ho).
    destruct (resume w a t (pool s)) as [pm o]. simpl in *.
    split; [exact Hreg'|]. intros j o' Hj.
    apply list_lookup_insert_Some in Hj.
    destruct Hj as [(_ & <- & _)|[_ Hj]]; [exact Ho|].
    eapply outcome_keyed_mono; [exact Hle | eapply Hcalls; exact Hj].
  - assert (Hle : store_le (store (pool s)) (store (on_exit pid code (pool s)))).
    { unfold on_exit. destruct (procs (pool s) !! pid);
        [apply store_le_alter; reflexivity | apply store_le_refl]. }
    assert (Hi : instances (on_exit pid code (pool s)) = instances (pool s)).
    { unfold on_exit. destruct (procs (pool s) !! pid); reflexivity. }
    split; simpl.
    + eapply registry_keyed_mono; eassumption.
    + intros j o Hj. eapply outcome_keyed_mono; [exact Hle | eapply Hcalls, Hj].
  - assert (Hle : store_le (store (pool s))
              (alter (with_lastActivity now) ref (store (pool s))))
      by (apply store_le_alter; reflexivity).
    split; simpl.
    + intros u r Hu. apply Hle, Hreg, Hu.
    + intros j o Hj. eapply outcome_keyed_mono; [exact Hle | eapply Hcalls, Hj].
Qed.

Lemma exec_keyed acts s : system_keyed s -> system_keyed (exec acts s).
Proof.
  revert s. induction acts as [|a acts IH]; intros s H; simpl; [exact H|].
  apply IH, step_keyed, H.
Qed.

(** C1. At every point of every execution of the server (any
    interleaving of [getOrCreateInstance], [createInstance],
    [destroyInstance], health-check sweeps, process exits and activity
    reports), the registry holds at most one live instance per tenant,
    and it is the one filed under the tenant's id. *)
Theorem one_live_instance_per_tenant (acts : list action) (T : string)
    (ref1 ref2 : nat) :
  let pm := pool (exec acts initial) in
  live_instance_of pm T ref1 -> live_instance_of pm T ref2 ->
  ref1 = ref2 /\ instances pm !! T = Some ref1.
Proof.
  intros pm (k1 & i1 & Hk1 & Hs1 & Hu1) (k2 & i2 & Hk2 & Hs2 & Hu2).
  destruct (exec_keyed acts initial initial_keyed) as [Hreg _].
  fold pm in Hreg.
  destruct (Hreg k1 ref1 Hk1) as (j1 & Hj1 & Ho1).
  destruct (Hreg k2 ref2 Hk2) as (j2 & Hj2 & Ho2).
  assert (k1 = T) by congruence. assert (k2 = T) by congruence.
  subst k1 k2. split; congruence.
Qed.

End RegistryFacts.

(* ===================================================================== *)
(** ** The health prober                                                  *)
(* ===================================================================== *)

Section HealthFacts.
Import Pool.

Lemma strict_eq_true_iff v : strict_eq_true v = true <-> v = JBool true.
Proof.
  split; [|intros ->; reflexivity].
  destruct v as [| |[|]| | | |]; simpl; intros H; try discriminate.
  reflexivity.
Qed.

Lemma optional_get_healthy data :
  optional_get data "healthy" = JBool true <->
  exists props, data = JObj props /\ get_prop "healthy" props = JBool true.
Proof.
  split.
  - destruct data; simpl; intros H; try discriminate. eauto.
  - intros (props & -> & H). exact H.
Qed.

(** C4. [checkHealth] always returns a boolean and never throws.  A
    rejected fetch (timeout, connection refused, any network error), a
    status outside 200-299 and a body that is not JSON all give [false];
    the result is [true] only when the body of a successful response
    carries [healthy: true], so a 200 response with the body
    [{"healthy": false}] is unhealthy. *)
Theorem checkHealth_never_throws (instance : option Instance)
    (net : FetchOutcome) :
  exists b, checkHealth instance net = Ok b /\
    (b = true <->
     exists i, instance = Some i /\ port i <> 0 /\ reports_healthy net) /\
    (forall f, net = Rejected f -> b = false) /\
    (forall r, net = Resolved r -> ok r = false -> b = false) /\
    (forall r, net = Resolved r -> json_body r = None -> b = false) /\
    (net = Resolved (mkResponse 200 (Some body_healthy_false)) -> b = false).
Proof.
  unfold checkHealth.
  destruct instance as [i|].
  2:{ exists false. split; [reflexivity|]. split.
      - split; [discriminate|]. intros (i & Hi & _). discriminate.
      - repeat split; reflexivity. }
  destruct (port i =? 0) eqn:Hport.
  { apply Z.eqb_eq in Hport. exists false. split; [reflexivity|]. split.
    - split; [discriminate|]. intros (j & Hj & Hp & _).
      injection Hj as <-. contradiction.
    - repeat split; reflexivity. }
  apply Z.eqb_neq in Hport.
  destruct net as [f|r].
  { exists false. split; [destruct f; reflexivity|]. split.
    - split; [discriminate|].
      intros (j & _ & _ & (r & props & Hr & _)). discriminate.
    - repeat split; try reflexivity; intros; discriminate. }
  simpl. destruct (ok r) eqn:Hok; simpl.
  2:{ exists false. split; [reflexivity|]. split.
      - split; [discriminate|].
        intros (j & _ & _ & (r' & props & Hr & Hok' & _)).
        injection Hr as <-. congruence.
      - repeat split; reflexivity. }
  unfold json. destruct (json_body r) as [data|] eqn:Hbody; simpl.
  2:{ exists false. split; [reflexivity|]. split.
      - split; [discriminate|].
        intros (j & _ & _ & (r' & props & Hr & _ & Hb & _)).
        injection Hr as <-. congruence.
      - repeat split; reflexivity. }
  exists (strict_eq_true (optional_get data "healthy")).
  split; [reflexivity|]. split; [|repeat split].
  - rewrite strict_eq_true_iff, optional_get_healthy. split.
    + intros (props & -> & Hp). exists i. repeat split; [exact Hport|].
      exists r, props. auto.
    + intros (j & _ & _ & (r' & props & Hr & _ & Hb & Hp)).
      injection Hr as <-. exists props. split; [congruence | exact Hp].
  - intros f Hf. discriminate.
  - intros r' Hr Hok'. injection Hr as <-. congruence.
  - intros r' Hr Hb. injection Hr as <-. congruence.
  - intros Hr. injection Hr as ->. simpl in Hbody. injection Hbody as <-.
    reflexivity.
Qed.

End HealthFacts.

(* ===================================================================== *)
(** ** The instance listing                                               *)
(* ===================================================================== *)

Section ListingFacts.
Import Pool PoolManager Routes.
Variables PORT_RANGE_START PORT_RANGE_END : Z.

Abbreviation list_instances :=
  (Routes.list_instances PORT_RANGE_START PORT_RANGE_END).

Lemma sanitizeInstance_sanitized i : sanitized (sanitizeInstance i).
Proof. split; reflexivity. Qed.

Lemma instance_summary_sanitized i : sanitized (instance_summary i).
Proof. split; reflexivity. Qed.

Lemma sanitizeInstance_password i j :
  same_but_password i j -> sanitizeInstance i = sanitizeInstance j.
Proof.
  destruct i, j. unfold same_but_password, with_password. simpl.
  intros H. injection H as -> -> -> -> -> -> -> ->. reflexivity.
Qed.

Lemma instance_summary_password i j :
  same_but_password i j -> instance_summary i = instance_summary j.
Proof.
  destruct i, j. unfold same_but_password, with_password. simpl.
  intros H. injection H as -> -> -> -> -> -> -> ->. reflexivity.
Qed.

Lemma listInstances_password pm pm' :
  same_but_passwords pm pm' -> listInstances pm' = listInstances pm.
Proof.
  intros (Hi & _ & Hst). unfold listInstances, values. rewrite Hi.
  induction (map_to_list (instances pm)) as [|[k ref] l IH]; simpl;
    [reflexivity|].
  destruct (store pm !! ref) as [i|] eqn:E.
  - destruct (Forall2_lookup_l _ _ _ _ _ Hst E) as (j & -> & Hij). simpl.
    f_equal; [symmetry; apply instance_summary_password, Hij | exact IH].
  - assert (store pm' !! ref = None) as ->.
    { apply lookup_ge_None. rewrite <- (Forall2_length _ _ _ Hst).
      apply lookup_ge_None. exact E. }
    exact IH.
Qed.

Lemma getInstance_password pm pm' u :
  same_but_passwords pm pm' ->
  sanitizeInstance <$> getInstance u pm' = sanitizeInstance <$> getInstance u pm.
Proof.
  intros (Hi & _ & Hst). unfold getInstance. rewrite Hi.
  destruct (instances pm !! u) as [ref|]; simpl; [|reflexivity].
  destruct (store pm !! ref) as [i|] eqn:E.
  - destruct (Forall2_lookup_l _ _ _ _ _ Hst E) as (j & -> & Hij). simpl.
    rewrite (sanitizeInstance_password _ _ Hij). reflexivity.
  - assert (store pm' !! ref = None) as ->; [|reflexivity].
    apply lookup_ge_None. rewrite <- (Forall2_length _ _ _ Hst).
    apply lookup_ge_None. exact E.
Qed.

Lemma listInstances_sanitized pm x :
  x ∈ listInstances pm -> sanitized x.
Proof.
  unfold listInstances. intros H. apply list_elem_of_fmap in H.
  destruct H as (i & -> & _). apply instance_summary_sanitized.
Qed.

(** C8. Every instance in the answer of [GET /api/instances], in the
    per-user branch and in the admin branch, has exactly the properties
    id, userId, port, status, createdAt, lastActivity and
    config.maxMemoryMB, and the whole answer is the same whatever the
    credentials of the instances are: the credential is never exposed. *)
Theorem list_instances_hides_credential
    (roles : result (gmap string Rbac.Role)) (pm pm' : PoolManager)
    (req : Request) :
  (forall x, x ∈ listed (list_instances roles pm req) -> sanitized x) /\
  (same_but_passwords pm pm' ->
   list_instances roles pm' req = list_instances roles pm req).
Proof.
  unfold Routes.list_instances. split.
  - destruct (Routes.hasPermission roles (user req) Rbac.INSTANCE_ADMIN)
      as [canViewAll|e]; simpl; [|intros x H; inversion H].
    destruct (canViewAll && _); unfold listed; simpl.
    + apply listInstances_sanitized.
    + destruct (getInstance _ pm) as [i|]; intros x H.
      * apply list_elem_of_singleton in H. subst x.
        apply sanitizeInstance_sanitized.
      * inversion H.
  - intros Hsame.
    destruct (Routes.hasPermission roles (user req) Rbac.INSTANCE_ADMIN)
      as [canViewAll|e]; simpl; [|reflexivity].
    destruct (canViewAll && _).
    + unfold getStats. simpl.
      rewrite (listInstances_password pm pm' Hsame).
      destruct Hsame as (_ & -> & _). reflexivity.
    + pose proof (getInstance_password pm pm' (Rbac.user_id (user req)) Hsame) as H.
      destruct (getInstance _ pm') as [i'|], (getInstance _ pm) as [i|];
        cbv [fmap option_fmap option_map] in H; congruence.
Qed.

End ListingFacts.

(* ===================================================================== *)
(** ** Scenarios on concrete pool managers                                *)
(* ===================================================================== *)

Section Scenarios.
Import Pool PoolManager.

Example one_tenant_registered :
  let s := exec 9000 10000 one_tenant (initial 9000) in
  calls s = [Returned (VInstance 0)] /\
  instances (pool s) !! "alice" = Some 0%nat /\
  elements (usedPorts (pool s)) = [9000] /\
  (status <$> store (pool s) !! 0%nat) = Some Running.
Proof. vm_compute. repeat split; reflexivity. Qed.

(** What the owner sees in [GET /api/instances] once the instance runs:
    the credential ["secret-a"] of the instance is not in the answer. *)
Example listing_of_one_tenant :
  let pm := pool (exec 9000 10000 one_tenant (initial 9000)) in
  (password <$> getInstance "alice" pm) = Some "secret-a" /\
  Routes.list_instances 9000 10000 (Ok ∅) pm
    (Routes.mkRequest (Rbac.mkUser "alice" (Some "developer")) None)
  = Routes.mkHttpResponse 200
      (JObj [("instances",
              JArr [JObj [("id", JStr "instance_5f1c0a7e");
                          ("userId", JStr "alice");
                          ("port", JNum 9000);
                          ("status", JStr "running");
                          ("createdAt", JNum 1000);
                          ("lastActivity", JNum 1000);
                          ("config", JObj [("maxMemoryMB", JNum 2048)])]]);
             ("stats", JNull)]).
Proof. vm_compute. split; reflexivity. Qed.

(** Witness for the registry invariant: the state reached by
    [one_tenant] has a live instance, and it is the only one. *)
Lemma one_live_instance_per_tenant_witness :
  let pm := pool (exec 9000 10000 one_tenant (initial 9000)) in
  live_instance_of pm "alice" 0 /\ live_instance_of pm "alice" 0 /\
  (0%nat = 0%nat /\ instances pm !! "alice" = Some 0%nat).
Proof.
  assert (H : live_instance_of
                (pool (exec 9000 10000 one_tenant (initial 9000))) "alice" 0).
  { eexists "alice", _. vm_compute. repeat split; reflexivity. }
  split; [exact H|]. split; [exact H|].
  exact (one_live_instance_per_tenant 9000 10000 one_tenant "alice" 0 0 H H).
Defined.

(** C2 (the code breaks it). [allocatePort] tests the lease set, then
    awaits the probe of the port, and only then adds the port to the set.
    With the range 9000-9001 and three overlapping creations, port 9000 is
    handed out twice and two live instances of different tenants end up
    holding it. *)
Theorem overlapping_creations_share_port :
  let s := exec 9000 9001 three_overlapping_creations (initial 9000) in
  exists i1 i2,
    getInstance "alice" (pool s) = Some i1 /\
    getInstance "carol" (pool s) = Some i2 /\
    userId i1 = "alice" /\ userId i2 = "carol" /\
    port i1 = 9000 /\ port i2 = 9000.
Proof. vm_compute. do 2 eexists. repeat split; reflexivity. Qed.


(** C7 (the code breaks it). [maxAttempts] is
    [PORT_RANGE_END - PORT_RANGE_START], one less than the number of ports
    the cursor cycles through.  On the range 9000-9002 three allocations
    lease the three ports and a fourth fails, as it should; but after
    [releasePort(9001)] the next allocation looks at 9002 and 9000 only
    and fails again, although 9001 is free and was never tried.  (If the
    size of the range is taken to be [maxAttempts], as on 9000-9003, the
    fourth allocation does not fail at all: it returns 9003.) *)
Theorem allocatePort_gives_up_before_full_cycle :
  let allocate := allocate_on 9000 9002 in
  let pm3 := fst (allocate (fst (allocate (fst (allocate (new 9000)))))) in
  let pm4 := fst (allocate pm3) in
  let pm5 := releasePort 9001 pm4 in
  elements (usedPorts pm3) = [9001; 9002; 9000] /\
  snd (allocate pm3) = no_ports /\
  elements (usedPorts pm5) = [9002; 9000] /\
  snd (allocate pm5) = no_ports /\
  let allocate' := allocate_on 9000 9003 in
  let pm3' := fst (allocate' (fst (allocate' (fst (allocate' (new 9000)))))) in
  Z.to_nat (maxAttempts 9000 9003) = 3%nat /\
  elements (usedPorts pm3') = [9001; 9002; 9000] /\
  snd (allocate' pm3') = Returned (VPort 9003).
Proof. vm_compute. repeat split; reflexivity. Qed.

(** After [releasePort(9002)] or [releasePort(9000)] the same allocation
    succeeds. *)
Example allocatePort_after_other_releases :
  let allocate := allocate_on 9000 9002 in
  let pm3 := fst (allocate (fst (allocate (fst (allocate (new 9000)))))) in
  let pm4 := fst (allocate pm3) in
  snd (allocate (releasePort 9002 pm4)) = Returned (VPort 9002) /\
  snd (allocate (releasePort 9000 pm4)) = Returned (VPort 9000).
Proof. vm_compute. repeat split; reflexivity. Qed.

End Scenarios.

(* ===================================================================== *)
(** ** Port allocator and destruction                                     *)
(* ===================================================================== *)

Section AllocatorFacts.
Import Pool PoolManager.

(** [releasePort] of a port that is not leased changes nothing. *)
Lemma releasePort_not_leased port pm :
  port ∉ usedPorts pm -> releasePort port pm = pm.
Proof.
  intros H. destruct pm as [ins st used next ps ev].
  unfold releasePort, set_usedPorts. simpl in *. f_equal.
  apply set_eq. intros x. rewrite elem_of_difference, elem_of_singleton.
  split; [tauto|]. intros Hx. split; [exact Hx|]. intros ->. contradiction.
Qed.

(** [releasePort] twice is [releasePort] once. *)
Lemma releasePort_idempotent port pm :
  releasePort port (releasePort port pm) = releasePort port pm.
Proof.
  apply releasePort_not_leased. unfold releasePort, set_usedPorts. simpl.
  rewrite elem_of_difference, elem_of_singleton. tauto.
Qed.

(** C6. A second [destroyInstance] for the same tenant finds nothing to
    destroy: it returns [false], throws nothing and leaves the pool
    manager exactly as the first call left it. *)
Theorem destroyInstance_twice (first last : Z) (user : string) (pm : PoolManager) :
  let once := fst (destroyInstance user pm) in
  destroyInstance user once = (once, false) /\
  invoke first last (CallDestroyInstance user) once = (once, Returned (VBool false)).
Proof.
  assert (H : destroyInstance user (fst (destroyInstance user pm))
              = (fst (destroyInstance user pm), false)).
  { destruct (destroyInstance user pm) as [pm1 b] eqn:E.
    unfold destroyInstance in E.
    destruct (instances pm !! user) as [ref|] eqn:Hl.
    - destruct (store pm !! ref) as [instance|] eqn:Hs.
      + destruct (process instance); injection E as <- <-;
          unfold destroyInstance; simpl; rewrite lookup_delete_eq; reflexivity.
      + injection E as <- <-. unfold destroyInstance. simpl.
        rewrite Hl, Hs. reflexivity.
    - injection E as <- <-. unfold destroyInstance. simpl.
      rewrite Hl. reflexivity. }
  simpl. split; [exact H|]. unfold invoke. rewrite H. reflexivity.
Qed.

End AllocatorFacts.

(* ===================================================================== *)
(** ** Creation on its own: failure and sharing                           *)
(* ===================================================================== *)

Section CreationFacts.
Import Pool PoolManager.
Variables PORT_RANGE_START PORT_RANGE_END : Z.

Abbreviation invoke' := (PoolManager.invoke PORT_RANGE_START PORT_RANGE_END).
Abbreviation resume' := (PoolManager.resume PORT_RANGE_START PORT_RANGE_END).
Abbreviation drive' := (PoolManager.drive PORT_RANGE_START PORT_RANGE_END).
Abbreviation run' := (PoolManager.run PORT_RANGE_START PORT_RANGE_END).
Abbreviation loop' := (PoolManager.allocatePort_loop PORT_RANGE_START PORT_RANGE_END).

Lemma cleaned_fields user pm a b :
  instances b = instances a -> usedPorts b = usedPorts a ->
  cleaned user pm a -> cleaned user pm b.
Proof. intros Hi Hu (H1 & H2 & H3). unfold cleaned. rewrite Hi, Hu. auto. Qed.

Lemma allocatePort_loop_creating user config n pm cur w :
  cleaned user pm cur ->
  creation_step user pm w (loop' (FromCreateInstance user config) n cur).
Proof.
  intros Hc. unfold allocatePort_loop, creation_step.
  pose proof (allocatePort_scan_fields PORT_RANGE_START PORT_RANGE_END n cur)
    as (Hi & _ & Hu & _).
  destruct (allocatePort_scan _ _ n cur) as [cur' [[port m]|]]; simpl in *.
  - split; [reflexivity|]. eapply cleaned_fields; eassumption.
  - split; [eapply cleaned_fields; eassumption|]. left. reflexivity.
Qed.

Lemma createInstance_spawn_creating user config port pm cur w :
  cleaned user pm cur ->
  creation_step user pm w
    (createInstance_spawn w user config port
       (set_usedPorts (fun s => {[port]} ∪ s) cur)).
Proof.
  intros (H1 & H2 & H3). unfold createInstance_spawn, createInstance_failed, waitForHealthy,
    spawnOpenCode.
  destruct (w_spawn w) as [e|] eqn:Hw; unfold creation_step; simpl.
  - split; [|right; right; exact Hw].
    repeat split; simpl; try assumption. set_solver.
  - split; [reflexivity|]. repeat split; simpl; try assumption. set_solver.
Qed.

Lemma destroyInstance_cleaned user pm cur ref :
  instances cur = instances pm -> usedPorts cur ⊆ usedPorts pm ->
  instances cur !! user = Some ref -> is_Some (store cur !! ref) ->
  cleaned user pm (fst (destroyInstance user cur)).
Proof.
  intros Hi Hu Hl [instance Hs]. unfold destroyInstance. rewrite Hl, Hs.
  destruct (process instance); simpl; repeat split; simpl.
  - apply lookup_delete_eq.
  - intros u Hne. rewrite lookup_delete_ne by congruence. rewrite Hi. reflexivity.
  - set_solver.
  - apply lookup_delete_eq.
  - intros u Hne. rewrite lookup_delete_ne by congruence. rewrite Hi. reflexivity.
  - set_solver.
Qed.

Lemma resume_creating user pm w a t cur :
  creating user pm t cur -> creation_step user pm w (resume' w a t cur).
Proof.
  intros Hc.
  assert (Hsame : creation_step user pm w (cur, Suspended t)) by exact Hc.
  destruct t as [u config ref|u config|[u config|] n port|u ref port st
                |u ref port st|u ref now];
    simpl in Hc; try contradiction;
    destruct a as [avail|net|]; try exact Hsame; unfold PoolManager.resume, getOrCreateInstance_checked,
      allocatePort_probed, waitForHealthy_checked, waitForHealthy_woke,
      reaper_checked.
  - destruct Hc as (-> & Hi & Hu & Hl & Hs).
    destruct (isHealthy _ net); [exact I|].
    pose proof (destroyInstance_cleaned user pm cur ref Hi Hu Hl Hs) as Hd.
    destruct (destroyInstance user cur) as [cur' b]. simpl in *.
    split; [reflexivity | exact Hd].
  - destruct Hc as (-> & Hc). apply allocatePort_loop_creating, Hc.
  - destruct Hc as (-> & Hc). destruct avail.
    + apply createInstance_spawn_creating, Hc.
    + apply allocatePort_loop_creating, Hc.
  - destruct Hc as (-> & Hc). destruct (isHealthy _ net); [exact I|].
    split; [reflexivity | exact Hc].
  - destruct Hc as (-> & Hc). destruct (_ <? _).
    + split; [reflexivity | exact Hc].
    + split; [|right; left; reflexivity].
      eapply cleaned_fields; [| |exact Hc]; reflexivity.
Qed.

Lemma invoke_creating user config pm w :
  registry_valid pm ->
  creation_step user pm w (invoke' (CallGetOrCreateInstance user config) pm).
Proof.
  intros Hv. unfold PoolManager.invoke, getOrCreateInstance.
  destruct (instances pm !! user) as [ref|] eqn:Hl.
  - repeat split; simpl; auto. eapply Hv, Hl.
  - apply allocatePort_loop_creating. repeat split; auto.
Qed.

Lemma drive_creating user pm script : forall cur t e,
  creating user pm t cur ->
  snd (drive' script cur (Suspended t)) = Threw e ->
  cleaned user pm (fst (drive' script cur (Suspended t))) /\
  exists a w, (a, w) ∈ script /\ creation_error w e.
Proof.
  induction script as [|[a w] rest IH]; intros cur t e Hc He;
    [discriminate|].
  simpl in *.
  pose proof (resume_creating user pm w a t cur Hc) as Hstep.
  destruct (resume' w a t cur) as [cur' [t'|v|e']]; unfold creation_step in Hstep;
    simpl in Hstep.
  - destruct (IH cur' t' e Hstep He) as (H1 & a' & w' & Hin & Herr).
    split; [exact H1|]. exists a', w'. split; [|exact Herr].
    apply elem_of_cons. right. exact Hin.
  - destruct rest; discriminate.
  - assert (e' = e) as -> by (destruct rest; simpl in He; congruence).
    destruct Hstep as [H1 Herr].
    split; [destruct rest; exact H1|].
    exists a, w. split; [apply elem_of_cons; left; reflexivity | exact Herr].
Qed.

(** Whatever other calls are in flight, the stretch of code in which a
    call throws writes nothing to the registry and leaves no port leased
    that was not leased when the stretch began. *)
Lemma failing_stretch_keeps_registry w a t cur e :
  snd (resume' w a t cur) = Threw e ->
  instances (fst (resume' w a t cur)) = instances cur /\
  usedPorts (fst (resume' w a t cur)) ⊆ usedPorts cur.
Proof.
  assert (Hloop : forall k n pm,
            instances (fst (loop' k n pm)) = instances pm /\
            usedPorts (fst (loop' k n pm)) ⊆ usedPorts pm).
  { intros k n pm. unfold allocatePort_loop.
    pose proof (allocatePort_scan_fields PORT_RANGE_START PORT_RANGE_END n pm)
      as (Hi & _ & Hu & _).
    destruct (allocatePort_scan _ _ n pm) as [pm' [[port m]|]]; simpl in *;
      rewrite Hi, Hu; split; reflexivity. }
  destruct t as [u config ref|u config|k n port|u ref port st
                |u ref port st|u ref now];
    destruct a as [avail|net|]; try discriminate;
    unfold PoolManager.resume, getOrCreateInstance_checked,
      allocatePort_probed, waitForHealthy_checked, waitForHealthy_woke,
      reaper_checked.
  - destruct (isHealthy _ net); [discriminate|].
    destruct (destroyInstance u cur). discriminate.
  - intros _. apply Hloop.
  - destruct avail; [|intros _; apply Hloop].
    destruct k as [u config|]; [|discriminate].
    unfold allocatePort_return, createInstance_spawn, createInstance_failed,
      waitForHealthy.
    destruct (w_spawn w); [|discriminate].
    intros _. simpl. split; [reflexivity | set_solver].
  - destruct (isHealthy _ net); discriminate.
  - destruct (_ <? _); [discriminate|].
    intros _. simpl. split; [reflexivity | set_solver].
  - destruct (store cur !! ref); [|discriminate].
    destruct (negb _); [|destruct (_ >? _)];
      try (destruct (destroyInstance u cur)); discriminate.
Qed.

(** C5. When [getOrCreateInstance(user, config)], run on its own, ends by
    throwing, the error is the one raised where creation failed (no port,
    [spawn] threw, the instance never became healthy); the slot of the
    tenant is empty, every other slot is as it was, and no port is leased
    that was not leased before the call: the port the creation had
    acquired has been released. *)
Theorem getOrCreateInstance_failure_cleans_up (user : string)
    (config : list (string * jsval)) (script : list (answer * World))
    (pm : PoolManager) (e : exn) :
  registry_valid pm ->
  snd (run' (CallGetOrCreateInstance user config) script pm) = Threw e ->
  let pm' := fst (run' (CallGetOrCreateInstance user config) script pm) in
  instances pm' !! user = None /\
  (forall u, u <> user -> instances pm' !! u = instances pm !! u) /\
  usedPorts pm' ⊆ usedPorts pm /\
  (e = JsError "No available ports in range" \/
   e = JsError "Instance failed to become healthy within timeout" \/
   exists a w, (a, w) ∈ script /\ w_spawn w = Some e).
Proof.
  intros Hv He. unfold PoolManager.run in *.
  pose proof (invoke_creating user config pm
                (mkWorld 0 "" "" None "") Hv) as Hstep.
  destruct (invoke' (CallGetOrCreateInstance user config) pm)
    as [cur [t|v|e']]; unfold creation_step in Hstep; simpl in Hstep.
  - destruct (drive_creating user pm script cur t e Hstep He)
      as ((H1 & H2 & H3) & a & w & Hin & Herr).
    cbv zeta. repeat split; try assumption.
    destruct Herr as [->|[->|Hw]]; auto.
    right; right. exists a, w. auto.
  - destruct script; discriminate.
  - assert (e' = e) as -> by (destruct script; simpl in He; congruence).
    destruct Hstep as [(H1 & H2 & H3) Herr]. cbv zeta.
    assert (Hfst : fst (drive' script cur (Threw e)) = cur)
      by (destruct script; reflexivity).
    rewrite Hfst. repeat split; try assumption.
    destruct Herr as [->|[->|Hw]]; auto. discriminate.
Qed.

End CreationFacts.

Section CreationWitness.
Import Pool PoolManager.

Lemma getOrCreateInstance_failure_witness :
  let c := CallGetOrCreateInstance "alice" [] in
  let e := JsError "Instance failed to become healthy within timeout" in
  let pm' := fst (run 9000 10000 c never_healthy (new 9000)) in
  registry_valid (new 9000) /\
  snd (run 9000 10000 c never_healthy (new 9000)) = Threw e /\
  instances pm' !! "alice" = None /\
  (forall u, u <> "alice" -> instances pm' !! u = instances (new 9000) !! u) /\
  usedPorts pm' ⊆ usedPorts (new 9000) /\
  (e = JsError "No available ports in range" \/
   e = JsError "Instance failed to become healthy within timeout" \/
   exists a w, (a, w) ∈ never_healthy /\ w_spawn w = Some e).
Proof.
  assert (Hv : registry_valid (new 9000)).
  { intros u r H. unfold new in H. simpl in H. rewrite lookup_empty in H.
    discriminate. }
  assert (He : snd (run 9000 10000 (CallGetOrCreateInstance "alice" [])
                      never_healthy (new 9000))
               = Threw (JsError "Instance failed to become healthy within timeout"))
    by (vm_compute; reflexivity).
  split; [exact Hv|]. split; [exact He|].
  exact (getOrCreateInstance_failure_cleans_up 9000 10000 "alice" []
           never_healthy (new 9000) _ Hv He).
Defined.

(** [spawn] throws: the port just acquired is released again. *)
Example spawn_failure_releases_port :
  let res := run 9000 10000 (CallGetOrCreateInstance "alice" [])
               [(APort true, world_no_binary)] (new 9000) in
  snd res = Threw (JsError "spawn opencode ENOENT") /\
  elements (usedPorts (fst res)) = [] /\
  instances (fst res) !! "alice" = None /\
  emitted (fst res) = [onInstanceError 0 (JsError "spawn opencode ENOENT")].
Proof. vm_compute. repeat split; reflexivity. Qed.

End CreationWitness.

Section SharingFacts.
Import Pool PoolManager.
Variables PORT_RANGE_START PORT_RANGE_END : Z.

Abbreviation invoke' := (PoolManager.invoke PORT_RANGE_START PORT_RANGE_END).
Abbreviation resume' := (PoolManager.resume PORT_RANGE_START PORT_RANGE_END).
Abbreviation drive' := (PoolManager.drive PORT_RANGE_START PORT_RANGE_END).
Abbreviation run' := (PoolManager.run PORT_RANGE_START PORT_RANGE_END).
Abbreviation loop' := (PoolManager.allocatePort_loop PORT_RANGE_START PORT_RANGE_END).
Abbreviation serve' := (serve PORT_RANGE_START PORT_RANGE_END).

Lemma allocatePort_loop_spawning T config n pm cur :
  procs cur = procs pm ->
  spawning_step T pm (loop' (FromCreateInstance T config) n cur).
Proof.
  intros Hp. unfold allocatePort_loop, spawning_step.
  pose proof (allocatePort_scan_fields PORT_RANGE_START PORT_RANGE_END n cur)
    as (_ & _ & _ & Hp' & _).
  destruct (allocatePort_scan _ _ n cur) as [cur' [[port m]|]]; simpl in *;
    [|exact I].
  split; [reflexivity | congruence].
Qed.

Lemma resume_spawning T pm w a t cur :
  spawning T pm t cur -> spawning_step T pm (resume' w a t cur).
Proof.
  intros Hs.
  assert (Hsame : spawning_step T pm (cur, Suspended t)) by exact Hs.
  destruct t as [u config ref|u config|[u config|] n port|u ref port st
                |u ref port st|u ref now];
    simpl in Hs; try contradiction;
    destruct a as [avail|net|]; try exact Hsame; unfold PoolManager.resume, getOrCreateInstance_checked,
      allocatePort_probed, waitForHealthy_checked, waitForHealthy_woke,
      reaper_checked.
  - destruct Hs as (-> & Hp). destruct avail;
      [|apply allocatePort_loop_spawning, Hp].
    unfold allocatePort_return, createInstance_spawn, createInstance_failed.
    destruct (w_spawn w); [exact I|].
    unfold spawning_step. simpl. split; [reflexivity|].
    eexists. split; [rewrite Hp; reflexivity | reflexivity].
  - destruct Hs as (-> & Hp). destruct (isHealthy _ net).
    + unfold createInstance_register, spawning_step. simpl.
      exists ref. split; [reflexivity|]. split; [|exact Hp].
      apply lookup_insert_eq.
    + split; [reflexivity | exact Hp].
  - destruct Hs as (-> & Hp). destruct (_ <? _); [|exact I].
    split; [reflexivity | exact Hp].
Qed.

Lemma drive_spawning T pm script : forall cur t v,
  spawning T pm t cur ->
  snd (drive' script cur (Suspended t)) = Returned v ->
  exists ref, v = VInstance ref /\
    created T pm (fst (drive' script cur (Suspended t))) ref.
Proof.
  induction script as [|[a w] rest IH]; intros cur t v Hs Hv;
    [discriminate|].
  simpl in *.
  pose proof (resume_spawning T pm w a t cur Hs) as Hstep.
  destruct (resume' w a t cur) as [cur' [t'|v'|e']];
    unfold spawning_step in Hstep; simpl in Hstep.
  - exact (IH cur' t' v Hstep Hv).
  - assert (v' = v) as -> by (destruct rest; simpl in Hv; congruence).
    destruct rest; exact Hstep.
  - destruct rest; discriminate.
Qed.

Lemma isHealthy_port (a b : option Instance) net :
  port <$> a = port <$> b -> isHealthy a net = isHealthy b net.
Proof.
  destruct a as [i|], b as [j|]; simpl; intros H; try discriminate;
    [|reflexivity].
  injection H as H. unfold isHealthy, checkHealth. rewrite H. reflexivity.
Qed.

(** A caller that finds the instance registered and healthy gets it and
    only touches its [lastActivity]. *)
Lemma run_registered T config net w rest pm ref :
  instances pm !! T = Some ref ->
  isHealthy (store pm !! ref) net = true ->
  run' (CallGetOrCreateInstance T config) ((AHealth net, w) :: rest) pm
  = (update ref (with_lastActivity (w_now w)) pm, Returned (VInstance ref)).
Proof.
  intros Hl Hh. unfold PoolManager.run, PoolManager.invoke, getOrCreateInstance.
  rewrite Hl. simpl. rewrite Hh. destruct rest; reflexivity.
Qed.

Lemma serve_registered T ref st0 callers : forall pm,
  instances pm !! T = Some ref ->
  port <$> store pm !! ref = port <$> st0 !! ref ->
  Forall (passes_health_check st0 ref) callers ->
  Forall (fun o => o = Returned (VInstance ref)) (snd (serve' T callers pm)) /\
  length (snd (serve' T callers pm)) = length callers /\
  procs (fst (serve' T callers pm)) = procs pm /\
  instances (fst (serve' T callers pm)) !! T = Some ref.
Proof.
  induction callers as [|[config script] rest IH]; intros pm Hl Hport Hall.
  - simpl. auto.
  - apply Forall_cons in Hall. destruct Hall as [(net & w & tl & Hs & Hh) Hall].
    simpl in Hs. subst script. simpl serve.
    rewrite (run_registered T config net w tl pm ref Hl)
      by (rewrite (isHealthy_port _ _ net Hport); exact Hh).
    specialize (IH (update ref (with_lastActivity (w_now w)) pm)).
    destruct (serve' T rest (update ref (with_lastActivity (w_now w)) pm))
      as [pmN os]. simpl in *.
    destruct IH as (H1 & H2 & H3 & H4); [exact Hl| |exact Hall|].
    + rewrite list_lookup_alter_eq, <- Hport.
      destruct (store pm !! ref); reflexivity.
    + repeat split; auto.
Qed.

(** Whatever other calls are in flight: a caller that found the instance
    [ref] registered and whose health check of it passes receives [ref];
    nothing is spawned and the registry is not written. *)
Lemma waiting_caller_gets_registered_instance (s : System) i T config ref net w :
  calls s !! i = Some (Suspended (GetOrCreate_health T config ref)) ->
  isHealthy (store (pool s) !! ref) net = true ->
  let s' := PoolManager.step PORT_RANGE_START PORT_RANGE_END
              (Resume i (AHealth net) w) s in
  calls s' !! i = Some (Returned (VInstance ref)) /\
  procs (pool s') = procs (pool s) /\
  instances (pool s') = instances (pool s).
Proof.
  intros Hi Hh. unfold PoolManager.step. rewrite Hi.
  unfold PoolManager.resume, getOrCreateInstance_checked. rewrite Hh. simpl.
  repeat split. apply list_lookup_insert_eq.
  apply lookup_lt_is_Some. eauto.
Qed.


End SharingFacts.

Section SharingWitness.
Import Pool PoolManager.


End SharingWitness.

(* ===================================================================== *)
(** ** Port leases when calls do not overlap                              *)
(* ===================================================================== *)

Section LeaseFacts.
Import Pool PoolManager.

Lemma holds_alter ins st f r user p :
  (forall i, port (f i) = port i) ->
  holds ins (alter f r st) user p <-> holds ins st user p.
Proof.
  intros Hf. unfold holds. split.
  - intros (ref & i & Hl & Hs & Hp).
    destruct (decide (r = ref)) as [->|Hne].
    + rewrite list_lookup_alter_eq in Hs.
      destruct (st !! ref) as [j|] eqn:Hj; [|discriminate].
      injection Hs as <-. exists ref, j. rewrite Hf in Hp. auto.
    + rewrite list_lookup_alter_ne in Hs by exact Hne. eauto.
  - intros (ref & i & Hl & Hs & Hp).
    destruct (decide (r = ref)) as [->|Hne].
    + exists ref, (f i). rewrite list_lookup_alter_eq, Hs, Hf. auto.
    + exists ref, i. rewrite list_lookup_alter_ne by exact Hne. auto.
Qed.

Lemma holds_app ins st i user p :
  (forall u ref, ins !! u = Some ref -> (ref < length st)%nat) ->
  holds ins (st ++ [i])%list user p <-> holds ins st user p.
Proof.
  intros Hv. unfold holds. split; intros (ref & j & Hl & Hs & Hp);
    exists ref, j; repeat split; auto.
  - rewrite lookup_app_l in Hs by (eapply Hv, Hl). exact Hs.
  - apply lookup_app_l_Some. exact Hs.
Qed.

Lemma leases_alter ins st used f r :
  (forall i, port (f i) = port i) ->
  leases_ok ins st used -> leases_ok ins (alter f r st) used.
Proof.
  intros Hf (H1 & H2 & H3). repeat split.
  - intros u ref Hl. rewrite length_alter. eapply H1, Hl.
  - intros u p Hh. apply holds_alter in Hh; [|exact Hf]. eapply H2, Hh.
  - intros u1 u2 p Ha Hb. apply holds_alter in Ha, Hb; try exact Hf.
    eapply H3; eassumption.
Qed.

Lemma unheld_alter ins st f r p :
  (forall i, port (f i) = port i) ->
  unheld ins st p -> unheld ins (alter f r st) p.
Proof. intros Hf H u Hh. apply holds_alter in Hh; [|exact Hf]. exact (H u Hh). Qed.

Lemma leases_app ins st used i :
  leases_ok ins st used -> leases_ok ins (st ++ [i])%list used.
Proof.
  intros (H1 & H2 & H3). repeat split.
  - intros u ref Hl. rewrite length_app. simpl. specialize (H1 u ref Hl). lia.
  - intros u p Hh. apply holds_app in Hh; [|exact H1]. eapply H2, Hh.
  - intros u1 u2 p Ha Hb. apply holds_app in Ha, Hb; try exact H1.
    eapply H3; eassumption.
Qed.

Lemma unheld_app ins st used i p :
  leases_ok ins st used -> unheld ins st p -> unheld ins (st ++ [i])%list p.
Proof.
  intros (H1 & _) H u Hh. apply holds_app in Hh; [|exact H1]. exact (H u Hh).
Qed.

Lemma leases_lease ins st used p :
  leases_ok ins st used -> leases_ok ins st ({[p]} ∪ used).
Proof.
  intros (H1 & H2 & H3). repeat split; auto.
  intros u q Hh. apply elem_of_union. right. eapply H2, Hh.
Qed.

Lemma leases_release ins st used p :
  leases_ok ins st used -> unheld ins st p -> leases_ok ins st (used ∖ {[p]}).
Proof.
  intros (H1 & H2 & H3) Hu. repeat split; auto.
  intros u q Hh. apply elem_of_difference. split; [eapply H2, Hh|].
  rewrite elem_of_singleton. intros ->. exact (Hu u Hh).
Qed.

Lemma holds_delete ins st u user p :
  holds (delete u ins) st user p -> holds ins st user p /\ user <> u.
Proof.
  intros (ref & i & Hl & Hs & Hp). apply lookup_delete_Some in Hl.
  destruct Hl as [Hne Hl]. split; [exists ref, i; auto | congruence].
Qed.

Lemma leases_destroy ins st used u ref i :
  leases_ok ins st used -> ins !! u = Some ref -> st !! ref = Some i ->
  leases_ok (delete u ins) st (used ∖ {[port i]}).
Proof.
  intros (H1 & H2 & H3) Hl Hs. repeat split.
  - intros v r Hv. apply lookup_delete_Some in Hv. eapply H1, Hv.
  - intros v q Hh. apply holds_delete in Hh. destruct Hh as [Hh Hne].
    apply elem_of_difference. split; [eapply H2, Hh|].
    rewrite elem_of_singleton. intros ->. apply Hne.
    eapply H3; [exact Hh|]. exists ref, i. auto.
  - intros u1 u2 q Ha Hb. apply holds_delete in Ha, Hb.
    eapply H3; [apply Ha | apply Hb].
Qed.

Lemma leases_register ins st used u ref i :
  leases_ok ins st used -> st !! ref = Some i -> port i ∈ used ->
  unheld ins st (port i) -> leases_ok (<[u := ref]> ins) st used.
Proof.
  intros (H1 & H2 & H3) Hs Hin Hun.
  assert (Hcase : forall v q, holds (<[u := ref]> ins) st v q ->
            (v = u /\ q = port i) \/ (v <> u /\ holds ins st v q)).
  { intros v q (r & j & Hl & Hj & Hq). apply lookup_insert_Some in Hl.
    destruct Hl as [[<- <-]|[Hne Hl]].
    - left. split; [reflexivity | congruence].
    - right. split; [congruence | exists r, j; auto]. }
  repeat split.
  - intros v r Hl. apply lookup_insert_Some in Hl.
    destruct Hl as [[_ <-]|[_ Hl]]; [|eapply H1, Hl].
    apply lookup_lt_is_Some. eauto.
  - intros v q Hh. destruct (Hcase v q Hh) as [[_ ->]|[_ Hv]];
      [exact Hin | eapply H2, Hv].
  - intros u1 u2 q Ha Hb.
    destruct (Hcase u1 q Ha) as [[E1 Q1]|[Hn1 Hv1]],
             (Hcase u2 q Hb) as [[E2 Q2]|[Hn2 Hv2]].
    + congruence.
    + subst q. exfalso. exact (Hun u2 Hv2).
    + subst q. exfalso. exact (Hun u1 Hv1).
    + eapply H3; eassumption.
Qed.

Variables PORT_RANGE_START PORT_RANGE_END : Z.

Lemma allocatePort_scan_fresh n : forall pm port m,
  snd (allocatePort_scan PORT_RANGE_START PORT_RANGE_END n pm) = Some (port, m) ->
  port ∉ usedPorts pm.
Proof.
  induction n as [|n IH]; intros pm port m; simpl; [discriminate|].
  destruct (decide _) as [Hin|Hnot]; simpl.
  - intros H. apply IH in H. exact H.
  - intros H. injection H as <- <-. exact Hnot.
Qed.

Lemma allocatePort_loop_leases k n cur :
  ports_exclusive cur ->
  lease_step (allocatePort_loop PORT_RANGE_START PORT_RANGE_END k n cur).
Proof.
  intros Hc. unfold allocatePort_loop, lease_step.
  pose proof (allocatePort_scan_fields PORT_RANGE_START PORT_RANGE_END n cur)
    as (Hi & Hs & Hu & _).
  pose proof (allocatePort_scan_fresh n cur) as Hfresh.
  destruct (allocatePort_scan _ _ n cur) as [cur' [[port m]|]]; simpl in *.
  - unfold ports_exclusive. rewrite Hi, Hs, Hu. split; [exact Hc|].
    eapply Hfresh. reflexivity.
  - unfold ports_exclusive. rewrite Hi, Hs, Hu. exact Hc.
Qed.

Lemma destroyInstance_leases user cur :
  ports_exclusive cur -> ports_exclusive (fst (destroyInstance user cur)).
Proof.
  intros Hc. unfold destroyInstance.
  destruct (instances cur !! user) as [ref|] eqn:Hl; [|exact Hc].
  destruct (store cur !! ref) as [i|] eqn:Hs; [|exact Hc].
  destruct (process i); unfold ports_exclusive; simpl;
    (apply leases_alter; [reflexivity|]);
    eapply leases_destroy; eassumption.
Qed.

Lemma createInstance_spawn_leases w user config p cur :
  ports_exclusive cur -> p ∉ usedPorts cur ->
  lease_step (createInstance_spawn w user config p
                (set_usedPorts (fun s => {[p]} ∪ s) cur)).
Proof.
  intros Hc Hfresh.
  assert (Hun : unheld (instances cur) (store cur) p).
  { intros u Hh. apply Hfresh. destruct Hc as (_ & H2 & _). eapply H2, Hh. }
  unfold createInstance_spawn, createInstance_failed, waitForHealthy,
    spawnOpenCode, lease_step.
  set (i := mkInstance _ _ _ _ _ _ _ _ _).
  destruct (w_spawn w); unfold ports_exclusive; simpl.
  - apply leases_release.
    + apply leases_app, leases_lease, Hc.
    + eapply unheld_app; [exact Hc | exact Hun].
  - split; [|split; [|split]].
    + apply leases_alter; [reflexivity|]. apply leases_app, leases_lease, Hc.
    + apply elem_of_union. left. apply elem_of_singleton. reflexivity.
    + apply unheld_alter; [reflexivity|].
      eapply unheld_app; [exact Hc | exact Hun].
    + rewrite list_lookup_alter_eq, lookup_app_r by lia.
      rewrite Nat.sub_diag. reflexivity.
Qed.

Lemma resume_leases w a t cur :
  lease_stage t cur ->
  lease_step (resume PORT_RANGE_START PORT_RANGE_END w a t cur).
Proof.
  intros Hs.
  assert (Hsame : lease_step (cur, Suspended t)) by exact Hs.
  destruct t as [u config ref|u config|k n p|u ref p st|u ref p st|u ref now];
    destruct a as [avail|net|]; try exact Hsame;
    unfold PoolManager.resume, getOrCreateInstance_checked,
      allocatePort_probed, waitForHealthy_checked, waitForHealthy_woke,
      reaper_checked; simpl in Hs.
  - destruct (isHealthy _ net).
    + unfold lease_step, ports_exclusive. simpl.
      apply leases_alter; [reflexivity | exact Hs].
    + pose proof (destroyInstance_leases u cur Hs) as Hd.
      destruct (destroyInstance u cur) as [cur' b]. exact Hd.
  - apply allocatePort_loop_leases, Hs.
  - destruct Hs as [Hc Hfresh]. destruct avail.
    + destruct k as [u config|]; simpl.
      * apply createInstance_spawn_leases; assumption.
      * unfold lease_step, ports_exclusive. simpl. apply leases_lease, Hc.
    + apply allocatePort_loop_leases, Hc.
  - destruct Hs as (Hc & Hin & Hun & Hp). destruct (isHealthy _ net).
    + unfold createInstance_register, lease_step, ports_exclusive. simpl.
      destruct (store cur !! ref) as [i|] eqn:Hi; [|discriminate].
      injection Hp as <-.
      eapply (leases_register _ _ _ u ref (with_status Running i)).
      * apply leases_alter; [reflexivity | exact Hc].
      * rewrite list_lookup_alter_eq, Hi. reflexivity.
      * exact Hin.
      * apply unheld_alter; [reflexivity | exact Hun].
    + exact (conj Hc (conj Hin (conj Hun Hp))).
  - destruct Hs as (Hc & Hin & Hun & Hp). destruct (_ <? _).
    + exact (conj Hc (conj Hin (conj Hun Hp))).
    + unfold createInstance_failed, lease_step, ports_exclusive. simpl.
      apply leases_release; assumption.
  - destruct (store cur !! ref) as [i|]; [|exact Hs].
    pose proof (destroyInstance_leases u cur Hs) as Hd.
    destruct (negb _); [|destruct (_ >? _)];
      try (destruct (destroyInstance u cur) as [cur' b]; exact Hd).
    exact Hs.
Qed.

Lemma invoke_leases c pm :
  ports_exclusive pm -> ~ releases_held_port c pm ->
  lease_step (invoke PORT_RANGE_START PORT_RANGE_END c pm).
Proof.
  intros Hc Hrel.
  destruct c as [u config|u config|u| |p|u now]; unfold PoolManager.invoke.
  - unfold getOrCreateInstance.
    destruct (instances pm !! u); [exact Hc|].
    apply allocatePort_loop_leases, Hc.
  - apply allocatePort_loop_leases, Hc.
  - pose proof (destroyInstance_leases u pm Hc) as Hd.
    destruct (destroyInstance u pm) as [pm' b]. exact Hd.
  - apply allocatePort_loop_leases, Hc.
  - unfold lease_step, ports_exclusive. simpl. apply leases_release; [exact Hc|].
    intros u Hh. apply Hrel. exists u. exact Hh.
  - unfold reaper_visit.
    destruct (instances pm !! u) as [ref|]; [|exact Hc].
    destruct (store pm !! ref) as [i|]; [|exact Hc].
    destruct (_ || _); exact Hc.
Qed.

Lemma lease_step_exclusive res : lease_step res -> ports_exclusive (fst res).
Proof.
  destruct res as [pm [t|v|e]]; unfold lease_step; simpl; auto.
  destruct t; simpl; tauto.
Qed.

Lemma drive_leases script : forall cur o,
  lease_step (cur, o) ->
  lease_step (drive PORT_RANGE_START PORT_RANGE_END script cur o).
Proof.
  induction script as [|[a w] rest IH]; intros cur o Hs.
  - destruct o; exact Hs.
  - destruct o as [t|v|e]; [|exact Hs|exact Hs]. simpl.
    pose proof (resume_leases w a t cur Hs) as Hr.
    destruct (resume _ _ w a t cur) as [cur' o']. apply IH, Hr.
Qed.

(** X1. No port is held by two live instances, and the lease set covers
    every port a live instance holds, as long as calls do not overlap. *)
Theorem calls_one_at_a_time_keep_ports_exclusive (pm : PoolManager) :
  one_at_a_time PORT_RANGE_START PORT_RANGE_END pm ->
  (forall u1 u2 p,
     holds (instances pm) (store pm) u1 p ->
     holds (instances pm) (store pm) u2 p -> u1 = u2) /\
  (forall u p, holds (instances pm) (store pm) u p -> p ∈ usedPorts pm).
Proof.
  intros H.
  assert (Hex : ports_exclusive pm).
  { induction H as [|pm c script _ IH Hrel|pm pid code _ IH|pm ref now _ IH].
    - repeat split.
      + intros u r Hl. simpl in Hl. rewrite lookup_empty in Hl. discriminate.
      + intros u p (r & i & Hl & _). simpl in Hl.
        rewrite lookup_empty in Hl. discriminate.
      + intros u1 u2 p (r & i & Hl & _). simpl in Hl.
        rewrite lookup_empty in Hl. discriminate.
    - unfold run. pose proof (invoke_leases c pm IH Hrel) as Hi.
      destruct (invoke _ _ c pm) as [cur o].
      apply lease_step_exclusive, drive_leases, Hi.
    - unfold on_exit. destruct (procs pm !! pid); [|exact IH].
      unfold ports_exclusive. simpl. apply leases_alter; [reflexivity | exact IH].
    - unfold ports_exclusive. simpl. apply leases_alter; [reflexivity | exact IH]. }
  destruct Hex as (_ & H2 & H3). split; [exact H3 | exact H2].
Qed.

End LeaseFacts.

Section LeaseWitness.
Import Pool PoolManager.

(** Two tenants served one after the other hold different ports. *)
Lemma calls_one_at_a_time_witness :
  let pm1 := fst (run 9000 10000 (CallGetOrCreateInstance "alice" [])
                    first_caller (new 9000)) in
  let pm2 := fst (run 9000 10000 (CallGetOrCreateInstance "bob" [])
                    first_caller pm1) in
  one_at_a_time 9000 10000 pm2 /\
  holds (instances pm2) (store pm2) "alice" 9000 /\
  holds (instances pm2) (store pm2) "bob" 9001 /\
  (forall u1 u2 p,
     holds (instances pm2) (store pm2) u1 p ->
     holds (instances pm2) (store pm2) u2 p -> u1 = u2) /\
  (forall u p, holds (instances pm2) (store pm2) u p -> p ∈ usedPorts pm2).
Proof.
  assert (H : one_at_a_time 9000 10000
                (fst (run 9000 10000 (CallGetOrCreateInstance "bob" [])
                        first_caller
                        (fst (run 9000 10000 (CallGetOrCreateInstance "alice" [])
                                first_caller (new 9000)))))).
  { apply after_call; [apply after_call; [apply at_start|]|]; intros []. }
  split; [exact H|].
  split; [do 2 eexists; vm_compute; repeat split; reflexivity|].
  split; [do 2 eexists; vm_compute; repeat split; reflexivity|].
  exact (calls_one_at_a_time_keep_ports_exclusive 9000 10000 _ H).
Defined.

End LeaseWitness.


(* ===================================================================== *)
(** ** The port range in every execution                                  *)
(* ===================================================================== *)

Section RangeFacts.
Import Pool PoolManager.
Variables PORT_RANGE_START PORT_RANGE_END : Z.
Hypothesis range_not_empty : PORT_RANGE_START <= PORT_RANGE_END.

Abbreviation inside := (in_range PORT_RANGE_START PORT_RANGE_END).
Abbreviation pool_inside := (pool_in_range PORT_RANGE_START PORT_RANGE_END).
Abbreviation outcome_inside := (outcome_in_range PORT_RANGE_START PORT_RANGE_END).

Lemma advance_in_range pm :
  inside (nextPort pm) ->
  inside (nextPort (advance PORT_RANGE_START PORT_RANGE_END pm)).
Proof.
  unfold in_range, advance. simpl. intros H.
  destruct (nextPort pm + 1 >? PORT_RANGE_END) eqn:E; [lia|].
  rewrite Z.gtb_ltb in E. apply Z.ltb_ge in E. lia.
Qed.

Lemma allocatePort_scan_in_range n pm :
  inside (nextPort pm) ->
  inside (nextPort (fst (allocatePort_scan PORT_RANGE_START PORT_RANGE_END n pm))) /\
  forall p m,
    snd (allocatePort_scan PORT_RANGE_START PORT_RANGE_END n pm) = Some (p, m) ->
    inside p.
Proof.
  revert pm. induction n as [|n IH]; intros pm H; simpl.
  - split; [exact H | discriminate].
  - destruct (decide _).
    + apply IH, advance_in_range, H.
    + simpl. split; [apply advance_in_range, H|].
      intros p m E. injection E as <- _. exact H.
Qed.

Lemma allocatePort_loop_in_range k n pm :
  pool_inside pm ->
  pool_inside (fst (allocatePort_loop PORT_RANGE_START PORT_RANGE_END k n pm)) /\
  outcome_inside (snd (allocatePort_loop PORT_RANGE_START PORT_RANGE_END k n pm)).
Proof.
  intros (Hn & Hu & Hs). unfold allocatePort_loop.
  pose proof (allocatePort_scan_fields PORT_RANGE_START PORT_RANGE_END n pm)
    as (_ & Es & Eu & _).
  pose proof (allocatePort_scan_in_range n pm Hn) as (Hn' & Hp).
  assert (Hpool : pool_inside
            (fst (allocatePort_scan PORT_RANGE_START PORT_RANGE_END n pm))).
  { split; [exact Hn'|]. split.
    - intros p Hin. rewrite Eu in Hin. apply Hu, Hin.
    - intros ref i Hi. rewrite Es in Hi. apply (Hs ref i), Hi. }
  destruct (allocatePort_scan _ _ n pm) as [pm' [[port m]|]]; simpl in *;
    (split; [exact Hpool|]).
  - apply (Hp port m). reflexivity.
  - exact I.
Qed.

Lemma lookup_alter_port (f : Instance -> Instance) ref (st : list Instance) r j :
  (forall i, port (f i) = port i) ->
  alter f ref st !! r = Some j ->
  exists i, st !! r = Some i /\ port j = port i.
Proof.
  intros Hf H. destruct (decide (ref = r)) as [->|Hne].
  - rewrite list_lookup_alter_eq in H.
    destruct (st !! r) as [i|]; [|discriminate].
    simpl in H. injection H as <-. exists i. split; [reflexivity | apply Hf].
  - rewrite list_lookup_alter_ne in H by exact Hne. exists j. auto.
Qed.

Lemma pool_in_range_shrink pm pm' :
  nextPort pm' = nextPort pm -> usedPorts pm' ⊆ usedPorts pm ->
  store pm' = store pm -> pool_inside pm -> pool_inside pm'.
Proof.
  intros En Hsub Es (Hn & Hu & Hs). split; [rewrite En; exact Hn|]. split.
  - intros p Hp. apply Hu, Hsub, Hp.
  - intros ref i Hi. rewrite Es in Hi. apply (Hs ref i), Hi.
Qed.

Lemma update_in_range f ref pm :
  (forall i, port (f i) = port i) ->
  pool_inside pm -> pool_inside (update ref f pm).
Proof.
  intros Hf (Hn & Hu & Hs). split; [exact Hn|]. split; [exact Hu|].
  intros r j Hj. simpl in Hj.
  destruct (lookup_alter_port f ref _ r j Hf Hj) as (i & Hi & E).
  unfold in_range. rewrite E. apply (Hs r i), Hi.
Qed.

Lemma releasePort_in_range port pm :
  pool_inside pm -> pool_inside (releasePort port pm).
Proof.
  apply pool_in_range_shrink; try reflexivity.
  unfold releasePort, set_usedPorts. simpl. set_solver.
Qed.

Lemma destroyInstance_in_range user pm :
  pool_inside pm -> pool_inside (fst (destroyInstance user pm)).
Proof.
  intros H. unfold destroyInstance.
  destruct (instances pm !! user) as [ref|]; [|exact H].
  destruct (store pm !! ref) as [instance|]; [|exact H].
  cbn [fst].
  eapply pool_in_range_shrink; [reflexivity | reflexivity | reflexivity |].
  apply update_in_range; [reflexivity|].
  eapply pool_in_range_shrink; [reflexivity | reflexivity | reflexivity |].
  apply releasePort_in_range.
  destruct (process instance); [|exact H].
  eapply pool_in_range_shrink; [reflexivity | reflexivity | reflexivity | exact H].
Qed.

Lemma store_push_in_range instance pm :
  inside (port instance) -> pool_inside pm ->
  pool_inside (set_store (fun st => st ++ [instance])%list pm).
Proof.
  intros Hp (Hn & Hu & Hs). split; [exact Hn|]. split; [exact Hu|].
  intros ref i Hi. simpl in Hi. apply lookup_app_Some in Hi.
  destruct Hi as [Hi|[_ Hi]]; [apply (Hs ref i), Hi|].
  apply list_lookup_singleton_Some in Hi. destruct Hi as [_ <-]. exact Hp.
Qed.

Lemma createInstance_spawn_in_range w user config port pm :
  inside port -> pool_inside pm ->
  pool_inside (fst (createInstance_spawn w user config port pm)) /\
  outcome_inside (snd (createInstance_spawn w user config port pm)).
Proof.
  intros Hp H. unfold createInstance_spawn, createInstance_failed,
    waitForHealthy, spawnOpenCode.
  set (instance := mkInstance _ _ _ _ _ _ _ _ _).
  pose proof (store_push_in_range instance pm Hp H) as Hpush.
  destruct (w_spawn w) as [e|]; cbn [fst snd].
  - split; [|exact I].
    eapply pool_in_range_shrink; [reflexivity | reflexivity | reflexivity |].
    apply releasePort_in_range, Hpush.
  - split; [|exact Hp].
    apply update_in_range; [reflexivity|].
    eapply pool_in_range_shrink;
      [reflexivity | reflexivity | reflexivity | exact Hpush].
Qed.

Lemma createInstance_register_in_range user ref pm :
  pool_inside pm -> pool_inside (fst (createInstance_register user ref pm)).
Proof.
  intros H. unfold createInstance_register. cbn [fst].
  eapply pool_in_range_shrink; [reflexivity | reflexivity | reflexivity |].
  eapply pool_in_range_shrink; [reflexivity | reflexivity | reflexivity |].
  apply update_in_range; [reflexivity | exact H].
Qed.

Lemma invoke_in_range c pm :
  pool_inside pm ->
  pool_inside (fst (invoke PORT_RANGE_START PORT_RANGE_END c pm)) /\
  outcome_inside (snd (invoke PORT_RANGE_START PORT_RANGE_END c pm)).
Proof.
  intros H. destruct c as [user config|user config|user| |port|user now];
    unfold invoke.
  - unfold getOrCreateInstance, createInstance, allocatePort.
    destruct (instances pm !! user) as [ref|].
    + split; [exact H | exact I].
    + apply allocatePort_loop_in_range, H.
  - apply allocatePort_loop_in_range, H.
  - pose proof (destroyInstance_in_range user pm H) as Hd.
    destruct (destroyInstance user pm) as [pm' b]. split; [exact Hd | exact I].
  - apply allocatePort_loop_in_range, H.
  - split; [apply releasePort_in_range, H | exact I].
  - unfold reaper_visit.
    destruct (instances pm !! user) as [ref|]; [|split; [exact H | exact I]].
    destruct (store pm !! ref) as [instance|]; [|split; [exact H | exact I]].
    destruct (_ || _); split; try exact H; exact I.
Qed.

Lemma resume_in_range w a t pm :
  outcome_inside (Suspended t) -> pool_inside pm ->
  pool_inside (fst (resume PORT_RANGE_START PORT_RANGE_END w a t pm)) /\
  outcome_inside (snd (resume PORT_RANGE_START PORT_RANGE_END w a t pm)).
Proof.
  intros Ht H.
  destruct t as [user config ref|user config|k n port|user ref port st
                |user ref port st|user ref now];
    destruct a as [avail|net|]; try (split; [exact H | exact Ht]);
    unfold resume, getOrCreateInstance_checked, allocatePort_probed,
      waitForHealthy_checked, waitForHealthy_woke, reaper_checked.
  - destruct (isHealthy _ net).
    + split; [|exact I]. apply update_in_range; [reflexivity | exact H].
    + pose proof (destroyInstance_in_range user pm H) as Hd.
      destruct (destroyInstance user pm) as [pm' b]. split; [exact Hd | exact I].
  - apply allocatePort_loop_in_range, H.
  - destruct avail; [|apply allocatePort_loop_in_range, H].
    assert (Hadd : pool_inside (set_usedPorts (fun s => {[port]} ∪ s) pm)).
    { destruct H as (Hn & Hu & Hs). split; [exact Hn|]. split; [|exact Hs].
      intros p Hp. simpl in Hp. apply elem_of_union in Hp.
      destruct Hp as [Hp|Hp]; [|apply Hu, Hp].
      apply elem_of_singleton in Hp. subst p. exact Ht. }
    destruct k as [user config|]; simpl.
    + apply createInstance_spawn_in_range; [exact Ht | exact Hadd].
    + split; [exact Hadd | exact I].
  - destruct (isHealthy _ net).
    + split; [apply createInstance_register_in_range, H | exact I].
    + split; [exact H | exact Ht].
  - destruct (_ <? _).
    + split; [exact H | exact Ht].
    + split; [|exact I]. unfold createInstance_failed. cbn [fst].
      eapply pool_in_range_shrink; [reflexivity | reflexivity | reflexivity |].
      apply releasePort_in_range, H.
  - destruct (store pm !! ref) as [instance|]; [|split; [exact H | exact I]].
    pose proof (destroyInstance_in_range user pm H) as Hd.
    destruct (negb _); [|destruct (_ >? _)];
      try (destruct (destroyInstance user pm) as [pm' b];
           split; [exact Hd | exact I]).
    split; [exact H | exact I].
Qed.

Lemma initial_in_range :
  system_in_range PORT_RANGE_START PORT_RANGE_END (initial PORT_RANGE_START).
Proof.
  split.
  - split; [unfold in_range; simpl; lia|]. split.
    + intros p Hp. simpl in Hp. set_solver.
    + intros ref i Hi. inversion Hi.
  - intros i o Hi. inversion Hi.
Qed.

Lemma step_in_range a s :
  system_in_range PORT_RANGE_START PORT_RANGE_END s ->
  system_in_range PORT_RANGE_START PORT_RANGE_END
    (step PORT_RANGE_START PORT_RANGE_END a s).
Proof.
  intros [Hpool Hcalls]. destruct a as [c|i a w|pid code|ref now]; unfold step.
  - pose proof (invoke_in_range c (pool s) Hpool) as (Hp & Ho).
    destruct (invoke _ _ c (pool s)) as [pm o]. simpl in *.
    split; [exact Hp|]. intros j o' Hj.
    apply lookup_app_Some in Hj. destruct Hj as [Hj|[_ Hj]].
    + eapply Hcalls, Hj.
    + apply list_lookup_singleton_Some in Hj. destruct Hj as [_ <-]. exact Ho.
  - destruct (calls s !! i) as [[t| |]|] eqn:Hi; try (split; assumption).
    pose proof (resume_in_range w a t (pool s) (Hcalls i _ Hi) Hpool)
      as (Hp & Ho).
    destruct (resume _ _ w a t (pool s)) as [pm o]. simpl in *.
    split; [exact Hp|]. intros j o' Hj.
    apply list_lookup_insert_Some in Hj.
    destruct Hj as [(_ & <- & _)|[_ Hj]]; [exact Ho | eapply Hcalls, Hj].
  - split; [|exact Hcalls]. simpl. unfold on_exit.
    destruct (procs (pool s) !! pid); [|exact Hpool].
    apply update_in_range; [reflexivity | exact Hpool].
  - split; [|exact Hcalls]. simpl.
    apply update_in_range; [reflexivity | exact Hpool].
Qed.

Lemma exec_in_range acts s :
  system_in_range PORT_RANGE_START PORT_RANGE_END s ->
  system_in_range PORT_RANGE_START PORT_RANGE_END
    (exec PORT_RANGE_START PORT_RANGE_END acts s).
Proof.
  revert s. induction acts as [|a acts IH]; intros s H; simpl; [exact H|].
  apply IH, step_in_range, H.
Qed.

(** X2. When the configured range is not empty, at every point of every
    execution of the server the cursor [nextPort], every leased port and
    the port of every instance object ever built lie between
    [PORT_RANGE_START] and [PORT_RANGE_END], both included. *)
Theorem ports_stay_in_range (acts : list action) :
  let pm := pool (exec PORT_RANGE_START PORT_RANGE_END acts
                    (initial PORT_RANGE_START)) in
  PORT_RANGE_START <= nextPort pm <= PORT_RANGE_END /\
  (forall p, p ∈ usedPorts pm -> PORT_RANGE_START <= p <= PORT_RANGE_END) /\
  (forall ref i, store pm !! ref = Some i ->
     PORT_RANGE_START <= port i <= PORT_RANGE_END).
Proof.
  intros pm. exact (proj1 (exec_in_range acts _ initial_in_range)).
Qed.

Lemma size_in_range (used : gset Z) :
  (forall p, p ∈ used -> inside p) ->
  Z.of_nat (size used) <= PORT_RANGE_END - PORT_RANGE_START + 1.
Proof.
  intros H.
  set (n := PORT_RANGE_END - PORT_RANGE_START + 1).
  assert (Hsub : used ⊆ list_to_set (seqZ PORT_RANGE_START n)).
  { intros p Hp. apply elem_of_list_to_set, elem_of_seqZ.
    specialize (H p Hp). unfold in_range in H. unfold n. lia. }
  apply subseteq_size in Hsub.
  rewrite size_list_to_set in Hsub by apply NoDup_seqZ.
  rewrite length_seqZ in Hsub. unfold n in *. lia.
Qed.

(** X3. When the configured range is not empty, the [availablePorts]
    figure of [getStats()] is [PORT_RANGE_END - PORT_RANGE_START] minus
    the number of leased ports at every point of every execution, the
    number of leased ports never exceeds the
    [PORT_RANGE_END - PORT_RANGE_START + 1] ports of the range, and so
    the figure is never below -1. *)
Theorem getStats_availablePorts_bound (acts : list action) :
  let pm := pool (exec PORT_RANGE_START PORT_RANGE_END acts
                    (initial PORT_RANGE_START)) in
  let stats := getStats PORT_RANGE_START PORT_RANGE_END pm in
  exists used available,
    optional_get stats "usedPorts" = JNum used /\
    optional_get stats "availablePorts" = JNum available /\
    used = Z.of_nat (size (usedPorts pm)) /\
    available = PORT_RANGE_END - PORT_RANGE_START - used /\
    0 <= used <= PORT_RANGE_END - PORT_RANGE_START + 1 /\
    -1 <= available.
Proof.
  intros pm stats.
  destruct (exec_in_range acts _ initial_in_range) as [(_ & Hu & _) _].
  pose proof (size_in_range (usedPorts pm) Hu) as Hsize.
  exists (Z.of_nat (size (usedPorts pm))),
    (PORT_RANGE_END - PORT_RANGE_START - Z.of_nat (size (usedPorts pm))).
  repeat split; try reflexivity; lia.
Qed.

End RangeFacts.

Section RangeWitness.
Import Pool PoolManager.

Lemma ports_stay_in_range_witness :
  9000 <= 9001 /\
  let pm := pool (exec 9000 9001 three_overlapping_creations (initial 9000)) in
  9000 <= nextPort pm <= 9001 /\
  (forall p, p ∈ usedPorts pm -> 9000 <= p <= 9001) /\
  (forall ref i, store pm !! ref = Some i -> 9000 <= port i <= 9001).
Proof.
  assert (H : 9000 <= 9001) by lia.
  split; [exact H|].
  exact (ports_stay_in_range 9000 9001 H three_overlapping_creations).
Defined.

(** Two allocations on the range 9000-9001 lease both of its ports, and
    [getStats()] then reports -1 available ports. *)
Lemma getStats_availablePorts_witness :
  let pm := pool (exec 9000 9001
                    [Invoke CallAllocatePort; Resume 0 (APort true) world_a;
                     Invoke CallAllocatePort; Resume 1 (APort true) world_a]
                    (initial 9000)) in
  9000 <= 9001 /\
  optional_get (getStats 9000 9001 pm) "availablePorts" = JNum (-1) /\
  exists used available,
    optional_get (getStats 9000 9001 pm) "usedPorts" = JNum used /\
    optional_get (getStats 9000 9001 pm) "availablePorts" = JNum available /\
    used = Z.of_nat (size (usedPorts pm)) /\
    available = 9001 - 9000 - used /\
    0 <= used <= 9001 - 9000 + 1 /\
    -1 <= available.
Proof.
  assert (H : 9000 <= 9001) by lia.
  split; [exact H|]. split; [vm_compute; reflexivity|].
  exact (getStats_availablePorts_bound 9000 9001 H
           [Invoke CallAllocatePort; Resume 0 (APort true) world_a;
            Invoke CallAllocatePort; Resume 1 (APort true) world_a]).
Defined.

End RangeWitness.

(* ===================================================================== *)
(** ** The status of registered instances                                 *)
(* ===================================================================== *)

Section StatusFacts.
Import Pool PoolManager.
Variables PORT_RANGE_START PORT_RANGE_END : Z.

Lemma registry_started_frame pm pm' :
  instances pm' = instances pm -> store pm' = store pm ->
  registry_started pm -> registry_started pm'.
Proof.
  intros Ei Es H user ref Hl. rewrite Ei in Hl. rewrite Es. apply (H user), Hl.
Qed.

Lemma update_started f ref pm :
  (forall i, registered_status (status i) -> registered_status (status (f i))) ->
  registry_started pm -> registry_started (update ref f pm).
Proof.
  intros Hf H user r Hl. destruct (H user r Hl) as (i & Hi & Hst). simpl.
  destruct (decide (ref = r)) as [->|Hne].
  - exists (f i). rewrite list_lookup_alter_eq, Hi. split; [reflexivity | auto].
  - exists i. rewrite list_lookup_alter_ne by exact Hne. auto.
Qed.

Lemma store_push_started instance pm :
  registry_started pm ->
  registry_started (set_store (fun st => st ++ [instance])%list pm).
Proof.
  intros H user r Hl. destruct (H user r Hl) as (i & Hi & Hst).
  exists i. split; [|exact Hst]. simpl. apply lookup_app_l_Some, Hi.
Qed.

Lemma destroyInstance_started user pm :
  registry_keyed pm -> registry_started pm ->
  registry_started (fst (destroyInstance user pm)).
Proof.
  intros Hkey H. unfold destroyInstance.
  destruct (instances pm !! user) as [ref|] eqn:Hl; [|exact H].
  destruct (store pm !! ref) as [instance|] eqn:Hs; [|exact H].
  cbn [fst]. intros u r Hu.
  assert (Hu' : user <> u /\ instances pm !! u = Some r).
  { destruct (process instance); simpl in Hu;
      apply lookup_delete_Some in Hu; exact Hu. }
  destruct Hu' as [Hne Hu'].
  destruct (H u r Hu') as (i & Hi & Hst).
  assert (Hr : ref <> r).
  { intros ->. destruct (Hkey u r Hu') as (j & Hj & Hj').
    destruct (Hkey user r Hl) as (k & Hk & Hk'). congruence. }
  exists i. split; [|exact Hst].
  destruct (process instance); simpl;
    rewrite list_lookup_alter_ne by exact Hr; exact Hi.
Qed.

Lemma createInstance_spawn_started w user config port pm :
  registry_started pm ->
  registry_started (fst (createInstance_spawn w user config port pm)).
Proof.
  intros H. unfold createInstance_spawn, createInstance_failed,
    waitForHealthy, spawnOpenCode.
  set (instance := mkInstance _ _ _ _ _ _ _ _ _).
  pose proof (store_push_started instance pm H) as Hpush.
  destruct (w_spawn w) as [e|]; cbn [fst snd].
  - eapply registry_started_frame; [reflexivity | reflexivity | exact Hpush].
  - apply update_started; [intros i Hi; exact Hi|].
    eapply registry_started_frame; [reflexivity | reflexivity | exact Hpush].
Qed.

Lemma createInstance_register_started user ref pm :
  is_Some (store pm !! ref) -> registry_started pm ->
  registry_started (fst (createInstance_register user ref pm)).
Proof.
  intros [i Hi] H. unfold createInstance_register. cbn [fst].
  intros u r Hu. simpl in Hu. simpl.
  apply lookup_insert_Some in Hu. destruct Hu as [[<- <-]|[_ Hu]].
  - exists (with_status Running i). rewrite list_lookup_alter_eq, Hi.
    split; [reflexivity | left; reflexivity].
  - exact (update_started (with_status Running) ref pm
             (fun j _ => or_introl eq_refl) H u r Hu).
Qed.

Lemma allocatePort_loop_started k n pm :
  registry_started pm ->
  registry_started (fst (allocatePort_loop PORT_RANGE_START PORT_RANGE_END k n pm)).
Proof.
  intros H. unfold allocatePort_loop.
  pose proof (allocatePort_scan_fields PORT_RANGE_START PORT_RANGE_END n pm)
    as (Ei & Es & _).
  destruct (allocatePort_scan _ _ n pm) as [pm' [[port m]|]]; simpl in *;
    eapply registry_started_frame; eassumption.
Qed.

Lemma invoke_started c pm :
  registry_keyed pm -> registry_started pm ->
  registry_started (fst (invoke PORT_RANGE_START PORT_RANGE_END c pm)).
Proof.
  intros Hkey H. destruct c as [user config|user config|user| |port|user now];
    unfold invoke.
  - unfold getOrCreateInstance, createInstance, allocatePort.
    destruct (instances pm !! user) as [ref|]; [exact H|].
    apply allocatePort_loop_started, H.
  - apply allocatePort_loop_started, H.
  - pose proof (destroyInstance_started user pm Hkey H) as Hd.
    destruct (destroyInstance user pm) as [pm' b]. exact Hd.
  - apply allocatePort_loop_started, H.
  - exact H.
  - unfold reaper_visit.
    destruct (instances pm !! user) as [ref|]; [|exact H].
    destruct (store pm !! ref) as [instance|]; [|exact H].
    destruct (_ || _); exact H.
Qed.

Lemma resume_started w a t pm :
  task_keyed (store pm) t -> registry_keyed pm -> registry_started pm ->
  registry_started (fst (resume PORT_RANGE_START PORT_RANGE_END w a t pm)).
Proof.
  intros Ht Hkey H.
  destruct t as [user config ref|user config|k n port|user ref port st
                |user ref port st|user ref now];
    destruct a as [avail|net|]; try exact H;
    unfold resume, getOrCreateInstance_checked, allocatePort_probed,
      waitForHealthy_checked, waitForHealthy_woke, reaper_checked.
  - destruct (isHealthy _ net).
    + apply update_started; [intros i Hi; exact Hi | exact H].
    + pose proof (destroyInstance_started user pm Hkey H) as Hd.
      destruct (destroyInstance user pm) as [pm' b]. exact Hd.
  - apply allocatePort_loop_started, H.
  - destruct avail; [|apply allocatePort_loop_started, H].
    destruct k as [user config|]; simpl.
    + apply createInstance_spawn_started.
      eapply registry_started_frame; [reflexivity | reflexivity | exact H].
    + exact H.
  - destruct (isHealthy _ net); [|exact H].
    apply createInstance_register_started; [|exact H].
    destruct Ht as (i & Hi & _). exists i. exact Hi.
  - destruct (_ <? _); [exact H|].
    unfold createInstance_failed. cbn [fst].
    eapply registry_started_frame; [reflexivity | reflexivity | exact H].
  - destruct (store pm !! ref) as [instance|]; [|exact H].
    pose proof (destroyInstance_started user pm Hkey H) as Hd.
    destruct (negb _); [|destruct (_ >? _)];
      try (destruct (destroyInstance user pm) as [pm' b]; exact Hd).
    exact H.
Qed.

Lemma step_started a s :
  system_keyed s -> registry_started (pool s) ->
  registry_started (pool (step PORT_RANGE_START PORT_RANGE_END a s)).
Proof.
  intros [Hkey Hcalls] H. destruct a as [c|i a w|pid code|ref now];
    unfold step.
  - pose proof (invoke_started c (pool s) Hkey H) as Hp.
    destruct (invoke _ _ c (pool s)) as [pm o]. exact Hp.
  - destruct (calls s !! i) as [[t| |]|] eqn:Hi; try exact H.
    pose proof (resume_started w a t (pool s) (Hcalls i _ Hi) Hkey H) as Hp.
    destruct (resume _ _ w a t (pool s)) as [pm o]. exact Hp.
  - simpl. unfold on_exit. destruct (procs (pool s) !! pid); [|exact H].
    apply update_started; [|exact H].
    intros i _. simpl. destruct (decide _); [right; left | right; right];
      reflexivity.
  - simpl. apply update_started; [intros i Hi; exact Hi | exact H].
Qed.

Lemma exec_started acts s :
  system_keyed s -> registry_started (pool s) ->
  registry_started (pool (exec PORT_RANGE_START PORT_RANGE_END acts s)).
Proof.
  revert s. induction acts as [|a acts IH]; intros s Hkey H; simpl; [exact H|].
  apply IH; [apply step_keyed, Hkey | apply step_started; assumption].
Qed.

Lemma initial_started : registry_started (pool (initial PORT_RANGE_START)).
Proof. intros user ref H. inversion H. Qed.

(** X4. At every point of every execution of the server, an instance
    that is in the registry has the status ['running'], ['stopped'] or
    ['error'], never ['starting'], ['stopping'] or ['destroyed']; so a
    round of the health-check loop never skips a registered instance: it
    always goes on to check its health. *)
Theorem registered_instance_status (acts : list action) (user : string)
    (ref : nat) (now : Z) :
  let pm := pool (exec PORT_RANGE_START PORT_RANGE_END acts
                    (initial PORT_RANGE_START)) in
  instances pm !! user = Some ref ->
  (exists i, store pm !! ref = Some i /\
     (status i = Running \/ status i = Stopped \/ status i = Errored)) /\
  reaper_visit user now pm = (pm, Suspended (Reaper_check user ref now)).
Proof.
  intros pm Hl. subst pm.
  destruct (exec_started acts _ (initial_keyed PORT_RANGE_START)
              initial_started user ref Hl) as (i & Hi & Hst).
  split; [exists i; split; assumption|].
  unfold reaper_visit. rewrite Hl, Hi.
  destruct Hst as [->|[->| ->]]; reflexivity.
Qed.

End StatusFacts.

Section StatusWitness.
Import Pool PoolManager.

Lemma registered_instance_status_witness :
  let pm := pool (exec 9000 10000 one_tenant (initial 9000)) in
  instances pm !! "alice" = Some 0%nat /\
  (exists i, store pm !! 0%nat = Some i /\
     (status i = Running \/ status i = Stopped \/ status i = Errored)) /\
  reaper_visit "alice" 2000 pm = (pm, Suspended (Reaper_check "alice" 0 2000)).
Proof.
  assert (H : instances (pool (exec 9000 10000 one_tenant (initial 9000)))
                !! "alice" = Some 0%nat) by (vm_compute; reflexivity).
  split; [exact H|].
  exact (registered_instance_status 9000 10000 one_tenant "alice" 0 2000 H).
Defined.

End StatusWitness.

(* ===================================================================== *)
(** ** Child processes                                                    *)
(* ===================================================================== *)

Section ProcessFacts.
Import Pool PoolManager.
Variables PORT_RANGE_START PORT_RANGE_END : Z.

Lemma has_process_alter (f : Instance -> Instance) ref st r :
  (forall i, process (f i) = process i) ->
  has_process st r -> has_process (alter f ref st) r.
Proof.
  intros Hf (i & pid & Hi & Hp). destruct (decide (ref = r)) as [->|Hne].
  - exists (f i), pid. rewrite list_lookup_alter_eq, Hi.
    split; [reflexivity | rewrite Hf; exact Hp].
  - exists i, pid. rewrite list_lookup_alter_ne by exact Hne. auto.
Qed.

Lemma has_process_app st i r :
  has_process st r -> has_process (st ++ [i])%list r.
Proof.
  intros (j & pid & Hj & Hp). exists j, pid. split; [|exact Hp].
  apply lookup_app_l_Some, Hj.
Qed.

Lemma procs_ok_frame pm pm' :
  store pm' = store pm -> procs pm' = procs pm -> procs_ok pm -> procs_ok pm'.
Proof.
  intros Es Ep H ref i pid Hi Hp. rewrite Es in Hi. rewrite Ep.
  apply (H ref i pid Hi Hp).
Qed.

Lemma procs_ok_update f ref pm :
  (forall i, process (f i) = process i /\ port (f i) = port i /\
             userId (f i) = userId i) ->
  procs_ok pm -> procs_ok (update ref f pm).
Proof.
  intros Hf H r j pid Hj Hp. simpl in Hj. simpl.
  destruct (decide (ref = r)) as [->|Hne].
  - rewrite list_lookup_alter_eq in Hj.
    destruct (store pm !! r) as [i|] eqn:Hi; [|discriminate].
    simpl in Hj. injection Hj as <-.
    destruct (Hf i) as (E1 & E2 & E3). rewrite E1 in Hp.
    destruct (H r i pid Hi Hp) as (p & Hl & Hr & Hport & Hu).
    exists p. rewrite E2, E3. auto.
  - rewrite list_lookup_alter_ne in Hj by exact Hne. apply (H r j pid Hj Hp).
Qed.

Lemma procs_ok_kill pid sig pm : procs_ok pm -> procs_ok (kill pid sig pm).
Proof.
  intros H r i pid' Hi Hp.
  destruct (H r i pid' Hi Hp) as (p & Hl & Hr & Hport & Hu).
  unfold kill. simpl. destruct (decide (pid = pid')) as [->|Hne].
  - rewrite list_lookup_alter_eq, Hl. simpl. eexists. split; [reflexivity|].
    simpl. auto.
  - rewrite list_lookup_alter_ne by exact Hne. exists p. auto.
Qed.

Lemma destroyInstance_spawned user pm :
  procs_ok pm -> registry_spawned pm ->
  procs_ok (fst (destroyInstance user pm)) /\
  registry_spawned (fst (destroyInstance user pm)) /\
  (forall ref, has_process (store pm) ref ->
     has_process (store (fst (destroyInstance user pm))) ref).
Proof.
  intros Hok Hreg. unfold destroyInstance.
  destruct (instances pm !! user) as [ref|] eqn:Hl; [|auto].
  destruct (store pm !! ref) as [instance|] eqn:Hs; [|auto].
  cbn [fst].
  assert (Hmono : forall r, has_process (store pm) r ->
            has_process (alter (with_status Destroyed) ref (store pm)) r).
  { intros r. apply has_process_alter. reflexivity. }
  split; [|split].
  - eapply procs_ok_frame; [reflexivity | reflexivity |].
    apply procs_ok_update; [intros i; auto|].
    eapply procs_ok_frame; [reflexivity | reflexivity |].
    eapply procs_ok_frame; [reflexivity | reflexivity |].
    destruct (process instance); [apply procs_ok_kill|]; exact Hok.
  - intros u r Hu.
    assert (Hu' : instances pm !! u = Some r).
    { destruct (process instance); simpl in Hu;
        apply lookup_delete_Some in Hu; apply Hu. }
    destruct (process instance); simpl; apply Hmono, (Hreg u r Hu').
  - intros r Hr. destruct (process instance); simpl; apply Hmono, Hr.
Qed.

Lemma createInstance_spawn_spawned w user config port pm :
  keeps_spawned pm (createInstance_spawn w user config port pm).
Proof.
  intros Hok Hreg. unfold createInstance_spawn, createInstance_failed,
    waitForHealthy, spawnOpenCode.
  set (instance := mkInstance _ _ _ _ _ _ _ _ _).
  assert (Hpush : procs_ok (set_store (fun st => st ++ [instance])%list pm)).
  { intros r i pid Hi Hp. simpl in Hi. apply lookup_app_Some in Hi.
    destruct Hi as [Hi|[_ Hi]]; [apply (Hok r i pid Hi Hp)|].
    apply list_lookup_singleton_Some in Hi. destruct Hi as [_ <-].
    discriminate Hp. }
  destruct (w_spawn w) as [e|]; cbn [fst snd].
  - split; [|split; [|split]].
    + eapply procs_ok_frame; [reflexivity | reflexivity | exact Hpush].
    + intros u r Hu. simpl. apply has_process_app, (Hreg u r Hu).
    + exact I.
    + intros r Hr. simpl. apply has_process_app, Hr.
  - assert (Hmono : forall r, has_process (store pm) r ->
              has_process
                (alter (with_process (Some (length (procs pm))))
                   (length (store pm)) (store pm ++ [instance])%list) r).
    { intros r (i & pid & Hi & Hp).
      assert (Hlt : (r < length (store pm))%nat)
        by (apply lookup_lt_is_Some; exists i; exact Hi).
      exists i, pid. rewrite list_lookup_alter_ne by lia.
      split; [apply lookup_app_l_Some, Hi | exact Hp]. }
    split; [|split; [|split]].
    + intros r i pid Hi Hp. simpl in Hi. simpl.
      destruct (decide (length (store pm) = r)) as [<-|Hne].
      * rewrite list_lookup_alter_eq in Hi.
        rewrite lookup_app_r in Hi by lia. rewrite Nat.sub_diag in Hi.
        simpl in Hi. injection Hi as <-. simpl in Hp. injection Hp as <-.
        eexists. rewrite lookup_app_r by lia. rewrite Nat.sub_diag.
        split; [reflexivity|]. simpl. auto.
      * rewrite list_lookup_alter_ne in Hi by exact Hne.
        apply lookup_app_Some in Hi. destruct Hi as [Hi|[Hge Hi]].
        -- destruct (Hok r i pid Hi Hp) as (p & Hl & Hrest).
           exists p. split; [apply lookup_app_l_Some, Hl | exact Hrest].
        -- apply list_lookup_singleton_Some in Hi. lia.
    + intros u r Hu. simpl. apply Hmono, (Hreg u r Hu).
    + simpl. exists (with_process (Some (length (procs pm))) instance),
        (length (procs pm)).
      rewrite list_lookup_alter_eq, lookup_app_r by lia.
      rewrite Nat.sub_diag. split; reflexivity.
    + exact Hmono.
Qed.

Lemma keeps_spawned_frame pm pm' o :
  instances pm' = instances pm -> store pm' = store pm ->
  procs pm' = procs pm -> outcome_spawned (store pm) o ->
  keeps_spawned pm (pm', o).
Proof.
  intros Ei Es Ep Ho Hok Hreg. cbn [fst snd]. split; [|split; [|split]].
  - eapply procs_ok_frame; eassumption.
  - intros u r Hu. rewrite Ei in Hu. rewrite Es. apply (Hreg u r Hu).
  - rewrite Es. exact Ho.
  - intros r Hr. rewrite Es. exact Hr.
Qed.

Lemma keeps_spawned_update f ref pm o :
  (forall i, process (f i) = process i /\ port (f i) = port i /\
             userId (f i) = userId i) ->
  outcome_spawned (store pm) o ->
  keeps_spawned pm (update ref f pm, o).
Proof.
  intros Hf Ho Hok Hreg. cbn [fst snd].
  assert (Hmono : forall r, has_process (store pm) r ->
            has_process (alter f ref (store pm)) r).
  { intros r. apply has_process_alter. intros i. apply Hf. }
  split; [|split; [|split]].
  - apply procs_ok_update; assumption.
  - intros u r Hu. apply Hmono, (Hreg u r Hu).
  - destruct o as [[]| |]; simpl in *; auto.
  - exact Hmono.
Qed.

Lemma allocatePort_loop_spawned k n pm :
  keeps_spawned pm (allocatePort_loop PORT_RANGE_START PORT_RANGE_END k n pm).
Proof.
  unfold allocatePort_loop.
  pose proof (allocatePort_scan_fields PORT_RANGE_START PORT_RANGE_END n pm)
    as (Ei & Es & _ & Ep & _).
  destruct (allocatePort_scan _ _ n pm) as [pm' [[port m]|]]; simpl in *;
    apply keeps_spawned_frame; auto; exact I.
Qed.

Lemma destroyInstance_keeps_spawned user pm o :
  (forall st, outcome_spawned st o) ->
  keeps_spawned pm (fst (destroyInstance user pm), o).
Proof.
  intros Ho Hok Hreg.
  destruct (destroyInstance_spawned user pm Hok Hreg) as (H1 & H2 & H3).
  cbn [fst snd]. auto.
Qed.

Lemma createInstance_register_spawned user ref pm :
  has_process (store pm) ref ->
  keeps_spawned pm (createInstance_register user ref pm).
Proof.
  intros Href Hok Hreg. unfold createInstance_register. cbn [fst snd].
  assert (Hmono : forall r, has_process (store pm) r ->
            has_process (alter (with_status Running) ref (store pm)) r).
  { intros r. apply has_process_alter. reflexivity. }
  split; [|split; [|split]].
  - eapply procs_ok_frame; [reflexivity | reflexivity |].
    eapply procs_ok_frame; [reflexivity | reflexivity |].
    apply procs_ok_update; [intros i; auto | exact Hok].
  - intros u r Hu. simpl in Hu. simpl.
    apply lookup_insert_Some in Hu. destruct Hu as [[<- <-]|[_ Hu]].
    + apply Hmono, Href.
    + apply Hmono, (Hreg u r Hu).
  - exact I.
  - exact Hmono.
Qed.

Lemma invoke_spawned c pm :
  keeps_spawned pm (invoke PORT_RANGE_START PORT_RANGE_END c pm).
Proof.
  destruct c as [user config|user config|user| |port|user now]; unfold invoke.
  - unfold getOrCreateInstance, createInstance, allocatePort.
    destruct (instances pm !! user) as [ref|].
    + apply keeps_spawned_frame; auto; exact I.
    + apply allocatePort_loop_spawned.
  - apply allocatePort_loop_spawned.
  - pose proof (destroyInstance_keeps_spawned user pm (Returned (VBool true))
                  (fun _ => I)) as H.
    destruct (destroyInstance user pm) as [pm' b]. exact H.
  - apply allocatePort_loop_spawned.
  - apply keeps_spawned_frame; auto; exact I.
  - unfold reaper_visit.
    destruct (instances pm !! user) as [ref|];
      [|apply keeps_spawned_frame; auto; exact I].
    destruct (store pm !! ref) as [instance|];
      [|apply keeps_spawned_frame; auto; exact I].
    destruct (_ || _); apply keeps_spawned_frame; auto; exact I.
Qed.

Lemma resume_spawned w a t pm :
  outcome_spawned (store pm) (Suspended t) ->
  keeps_spawned pm (resume PORT_RANGE_START PORT_RANGE_END w a t pm).
Proof.
  intros Ht.
  assert (Hsame : keeps_spawned pm (pm, Suspended t))
    by (apply keeps_spawned_frame; auto).
  destruct t as [user config ref|user config|k n port|user ref port st
                |user ref port st|user ref now];
    destruct a as [avail|net|]; try exact Hsame;
    unfold resume, getOrCreateInstance_checked, allocatePort_probed,
      waitForHealthy_checked, waitForHealthy_woke, reaper_checked.
  - destruct (isHealthy _ net).
    + apply keeps_spawned_update; [intros i; auto | exact I].
    + pose proof (destroyInstance_keeps_spawned user pm
                    (Suspended (GetOrCreate_destroyed user config))
                    (fun _ => I)) as H.
      destruct (destroyInstance user pm) as [pm' b]. exact H.
  - apply allocatePort_loop_spawned.
  - destruct avail; [|apply allocatePort_loop_spawned].
    destruct k as [user config|]; simpl.
    + intros Hok Hreg.
      apply (createInstance_spawn_spawned w user config port
               (set_usedPorts (fun s => {[port]} ∪ s) pm)); assumption.
    + apply keeps_spawned_frame; auto; exact I.
  - destruct (isHealthy _ net); [|exact Hsame].
    apply createInstance_register_spawned, Ht.
  - destruct (_ <? _); [apply keeps_spawned_frame; auto|].
    unfold createInstance_failed. apply keeps_spawned_frame; auto; exact I.
  - destruct (store pm !! ref) as [instance|];
      [|apply keeps_spawned_frame; auto; exact I].
    pose proof (destroyInstance_keeps_spawned user pm (Returned VUndefined)
                  (fun _ => I)) as H.
    destruct (negb _); [|destruct (_ >? _)];
      try (destruct (destroyInstance user pm) as [pm' b]; exact H).
    apply keeps_spawned_frame; auto; exact I.
Qed.

Lemma outcome_spawned_mono st st' o :
  (forall ref, has_process st ref -> has_process st' ref) ->
  outcome_spawned st o -> outcome_spawned st' o.
Proof. intros H. destruct o as [[]| |]; simpl; auto. Qed.

Lemma initial_spawned : system_spawned (initial PORT_RANGE_START).
Proof.
  split; [|split].
  - intros ref i pid H. inversion H.
  - intros u r H. inversion H.
  - intros i o H. inversion H.
Qed.

Lemma step_spawned a s :
  system_spawned s ->
  system_spawned (step PORT_RANGE_START PORT_RANGE_END a s).
Proof.
  intros (Hok & Hreg & Hcalls). destruct a as [c|i a w|pid code|ref now];
    unfold step.
  - pose proof (invoke_spawned c (pool s) Hok Hreg) as (H1 & H2 & H3 & H4).
    destruct (invoke _ _ c (pool s)) as [pm o]. simpl in *.
    split; [exact H1|]. split; [exact H2|]. intros j o' Hj.
    apply lookup_app_Some in Hj. destruct Hj as [Hj|[_ Hj]].
    + eapply outcome_spawned_mono; [exact H4 | eapply Hcalls, Hj].
    + apply list_lookup_singleton_Some in Hj. destruct Hj as [_ <-]. exact H3.
  - destruct (calls s !! i) as [[t| |]|] eqn:Hi;
      try (split; [|split]; assumption).
    pose proof (resume_spawned w a t (pool s) (Hcalls i _ Hi) Hok Hreg)
      as (H1 & H2 & H3 & H4).
    destruct (resume _ _ w a t (pool s)) as [pm o]. simpl in *.
    split; [exact H1|]. split; [exact H2|]. intros j o' Hj.
    apply list_lookup_insert_Some in Hj.
    destruct Hj as [(_ & <- & _)|[_ Hj]]; [exact H3|].
    eapply outcome_spawned_mono; [exact H4 | eapply Hcalls, Hj].
  - assert (H : keeps_spawned (pool s)
                  (on_exit pid code (pool s), Returned VUndefined)).
    { unfold on_exit. destruct (procs (pool s) !! pid).
      - apply keeps_spawned_update; [intros i; auto | exact I].
      - apply keeps_spawned_frame; auto; exact I. }
    destruct (H Hok Hreg) as (H1 & H2 & _ & H4). simpl in *.
    split; [exact H1|]. split; [exact H2|]. intros j o Hj.
    eapply outcome_spawned_mono; [exact H4 | eapply Hcalls, Hj].
  - destruct (keeps_spawned_update (with_lastActivity now) ref (pool s)
                (Returned VUndefined) (fun i => conj eq_refl (conj eq_refl eq_refl))
                I Hok Hreg) as (H1 & H2 & _ & H4). simpl in *.
    split; [exact H1|]. split; [exact H2|]. intros j o Hj.
    eapply outcome_spawned_mono; [exact H4 | eapply Hcalls, Hj].
Qed.

Lemma exec_spawned acts s :
  system_spawned s ->
  system_spawned (exec PORT_RANGE_START PORT_RANGE_END acts s).
Proof.
  revert s. induction acts as [|a acts IH]; intros s H; simpl; [exact H|].
  apply IH, step_spawned, H.
Qed.

End ProcessFacts.

(* ===================================================================== *)
(** ** Shutdown                                                           *)
(* ===================================================================== *)

Section DisposeFacts.
Import Pool PoolManager.

Lemma destroyInstance_torn_down_stable a pm user ref i :
  torn_down pm user ref i -> torn_down (fst (destroyInstance a pm)) user ref i.
Proof.
  intros (Hn & Hst & Hport & Hsig). unfold destroyInstance.
  destruct (instances pm !! a) as [r|] eqn:Hl; [|repeat split; assumption].
  destruct (store pm !! r) as [instance|] eqn:Hs; [|repeat split; assumption].
  cbn [fst]. split; [|split; [|split]].
  - destruct (process instance); simpl; apply lookup_delete_None; auto.
  - assert (H : (status <$> alter (with_status Destroyed) r (store pm) !! ref)
                = Some Destroyed).
    { destruct (decide (r = ref)) as [->|Hne].
      - rewrite list_lookup_alter_eq, Hs. reflexivity.
      - rewrite list_lookup_alter_ne by exact Hne. exact Hst. }
    destruct (process instance); simpl; exact H.
  - destruct (process instance); simpl; set_solver.
  - intros pid Hp. destruct (Hsig pid Hp) as (p & Hlp & Hin).
    destruct (process instance) as [pid'|]; simpl; [|exists p; auto].
    destruct (decide (pid' = pid)) as [->|Hne].
    + rewrite list_lookup_alter_eq, Hlp. simpl. eexists. split; [reflexivity|].
      simpl. apply elem_of_app. left. exact Hin.
    + rewrite list_lookup_alter_ne by exact Hne. exists p. auto.
Qed.

Lemma destroy_all_torn_down_stable l pm user ref i :
  torn_down pm user ref i ->
  torn_down (fold_left (fun pm u => fst (destroyInstance u pm)) l pm)
    user ref i.
Proof.
  revert pm. induction l as [|a l IH]; intros pm H; simpl; [exact H|].
  apply IH, destroyInstance_torn_down_stable, H.
Qed.

Lemma destroyInstance_tears_down user pm ref i :
  procs_ok pm ->
  instances pm !! user = Some ref -> store pm !! ref = Some i ->
  torn_down (fst (destroyInstance user pm)) user ref i.
Proof.
  intros Hok Hl Hs. unfold destroyInstance. rewrite Hl, Hs. cbn [fst].
  split; [|split; [|split]].
  - destruct (process i); simpl; apply lookup_delete_eq.
  - destruct (process i); simpl; rewrite list_lookup_alter_eq, Hs; reflexivity.
  - destruct (process i); simpl; set_solver.
  - intros pid Hp. destruct (Hok ref i pid Hs Hp) as (p & Hlp & _).
    rewrite Hp. simpl. rewrite list_lookup_alter_eq, Hlp. simpl.
    eexists. split; [reflexivity|]. simpl. apply elem_of_app. right.
    apply list_elem_of_singleton. reflexivity.
Qed.

Lemma destroyInstance_other a pm user ref i :
  registry_keyed pm -> a <> user ->
  instances pm !! user = Some ref -> store pm !! ref = Some i ->
  instances (fst (destroyInstance a pm)) !! user = Some ref /\
  store (fst (destroyInstance a pm)) !! ref = Some i.
Proof.
  intros Hkey Hne Hl Hs. unfold destroyInstance.
  destruct (instances pm !! a) as [r|] eqn:Hla; [|auto].
  destruct (store pm !! r) as [instance|] eqn:Hsa; [|auto].
  cbn [fst].
  assert (Hr : r <> ref).
  { intros ->. destruct (Hkey a ref Hla) as (j & Hj & Hj').
    destruct (Hkey user ref Hl) as (k & Hk & Hk'). congruence. }
  destruct (process instance); simpl;
    (split; [rewrite lookup_delete_ne by exact Hne; exact Hl
            | rewrite list_lookup_alter_ne by exact Hr; exact Hs]).
Qed.

Lemma destroy_all_tears_down l pm user ref i :
  registry_keyed pm -> procs_ok pm -> registry_spawned pm ->
  user ∈ l ->
  instances pm !! user = Some ref -> store pm !! ref = Some i ->
  torn_down (fold_left (fun pm u => fst (destroyInstance u pm)) l pm)
    user ref i.
Proof.
  revert pm. induction l as [|a l IH]; intros pm Hkey Hok Hreg Hin Hl Hs.
  - inversion Hin.
  - simpl. destruct (decide (a = user)) as [->|Hne].
    + apply destroy_all_torn_down_stable, destroyInstance_tears_down;
        assumption.
    + apply elem_of_cons in Hin. destruct Hin as [->|Hin]; [congruence|].
      destruct (destroyInstance_other a pm user ref i Hkey Hne Hl Hs)
        as [Hl' Hs'].
      destruct (destroyInstance_spawned a pm Hok Hreg) as (Hok' & Hreg' & _).
      destruct (destroyInstance_keyed a pm Hkey) as [_ Hkey'].
      apply IH; assumption.
Qed.

Lemma destroyInstance_slot_stays_empty a pm user :
  instances pm !! user = None ->
  instances (fst (destroyInstance a pm)) !! user = None.
Proof.
  intros Hn. unfold destroyInstance.
  destruct (instances pm !! a) as [r|]; [|exact Hn].
  destruct (store pm !! r) as [instance|]; [|exact Hn].
  cbn [fst]. destruct (process instance); simpl; apply lookup_delete_None; auto.
Qed.

Lemma destroyInstance_frees_only a pm :
  usedPorts (fst (destroyInstance a pm)) ⊆ usedPorts pm /\
  nextPort (fst (destroyInstance a pm)) = nextPort pm.
Proof.
  unfold destroyInstance.
  destruct (instances pm !! a) as [r|]; [|auto].
  destruct (store pm !! r) as [instance|]; [|auto].
  cbn [fst]. destruct (process instance); simpl; (split; [set_solver | auto]).
Qed.

Lemma destroy_all_frame l pm :
  let pm' := fold_left (fun pm u => fst (destroyInstance u pm)) l pm in
  usedPorts pm' ⊆ usedPorts pm /\ nextPort pm' = nextPort pm /\
  forall user, instances pm !! user = None -> instances pm' !! user = None.
Proof.
  revert pm. induction l as [|a l IH]; intros pm; simpl; [auto|].
  destruct (IH (fst (destroyInstance a pm))) as (H1 & H2 & H3).
  destruct (destroyInstance_frees_only a pm) as [H4 H5].
  split; [set_solver|]. split; [congruence|].
  intros user Hn. apply H3, destroyInstance_slot_stays_empty, Hn.
Qed.

End DisposeFacts.

Section WorkerFacts.
Import Pool PoolManager.
Variables PORT_RANGE_START PORT_RANGE_END : Z.

(** X5. At every point of every execution of the server, every instance
    in the registry was built for the tenant it is filed under and
    carries the handle of a child process; that process was spawned for
    this very instance object, for the same tenant, with the port of the
    instance as its [--port] argument. *)
Theorem registered_instance_has_worker (acts : list action) (user : string)
    (ref : nat) :
  let pm := pool (exec PORT_RANGE_START PORT_RANGE_END acts
                    (initial PORT_RANGE_START)) in
  instances pm !! user = Some ref ->
  exists i pid p,
    store pm !! ref = Some i /\ userId i = user /\
    process i = Some pid /\ procs pm !! pid = Some p /\
    proc_instance p = ref /\ proc_port p = port i /\ proc_user p = user.
Proof.
  intros pm Hl. subst pm.
  destruct (exec_spawned PORT_RANGE_START PORT_RANGE_END acts _
              (initial_spawned PORT_RANGE_START)) as (Hok & Hreg & _).
  destruct (exec_keyed PORT_RANGE_START PORT_RANGE_END acts _
              (initial_keyed PORT_RANGE_START)) as [Hkey _].
  destruct (Hreg user ref Hl) as (i & pid & Hi & Hp).
  destruct (Hkey user ref Hl) as (j & Hj & Hu).
  assert (j = i) by congruence. subst j.
  destruct (Hok ref i pid Hi Hp) as (p & Hlp & H1 & H2 & H3).
  exists i, pid, p. repeat split; try assumption. congruence.
Qed.

(** X6. At every point of every execution of the server, [dispose()]
    empties the registry and adds no port to the lease set; every
    instance that was registered is marked ['destroyed'], its port is no
    longer leased and its child process has been sent [SIGTERM]. *)
Theorem dispose_tears_down_every_instance (acts : list action) :
  let pm := pool (exec PORT_RANGE_START PORT_RANGE_END acts
                    (initial PORT_RANGE_START)) in
  let pm' := dispose pm in
  instances pm' = ∅ /\ usedPorts pm' ⊆ usedPorts pm /\
  forall user ref, instances pm !! user = Some ref ->
    exists i pid p,
      store pm !! ref = Some i /\ process i = Some pid /\
      (status <$> store pm' !! ref) = Some Destroyed /\
      (port i ∉ usedPorts pm') /\
      procs pm' !! pid = Some p /\ SIGTERM ∈ proc_signals p.
Proof.
  intros pm pm'.
  destruct (exec_spawned PORT_RANGE_START PORT_RANGE_END acts _
              (initial_spawned PORT_RANGE_START)) as (Hok & Hreg & _).
  destruct (exec_keyed PORT_RANGE_START PORT_RANGE_END acts _
              (initial_keyed PORT_RANGE_START)) as [Hkey _].
  fold pm in Hok, Hreg, Hkey.
  assert (Hall : forall user ref i,
            instances pm !! user = Some ref -> store pm !! ref = Some i ->
            torn_down pm' user ref i).
  { intros user ref i Hl Hs. apply destroy_all_tears_down; try assumption.
    apply list_elem_of_In, (in_map fst _ (user, ref)), list_elem_of_In.
    apply elem_of_map_to_list, Hl. }
  destruct (destroy_all_frame (map fst (map_to_list (instances pm))) pm)
    as (Hsub & _ & Hnone).
  split; [|split; [exact Hsub|]].
  - apply map_eq. intros user. rewrite lookup_empty.
    destruct (instances pm !! user) as [ref|] eqn:Hl; [|apply Hnone, Hl].
    destruct (Hkey user ref Hl) as (i & Hi & _).
    apply (Hall user ref i Hl Hi).
  - intros user ref Hl.
    destruct (Hreg user ref Hl) as (i & pid & Hi & Hp).
    destruct (Hall user ref i Hl Hi) as (_ & Hst & Hport & Hsig).
    destruct (Hsig pid Hp) as (p & Hlp & Hin).
    exists i, pid, p. auto 10.
Qed.

End WorkerFacts.

Section WorkerWitness.
Import Pool PoolManager.

Lemma registered_instance_has_worker_witness :
  let pm := pool (exec 9000 10000 one_tenant (initial 9000)) in
  instances pm !! "alice" = Some 0%nat /\
  exists i pid p,
    store pm !! 0%nat = Some i /\ userId i = "alice" /\
    process i = Some pid /\ procs pm !! pid = Some p /\
    proc_instance p = 0%nat /\ proc_port p = port i /\ proc_user p = "alice".
Proof.
  assert (H : instances (pool (exec 9000 10000 one_tenant (initial 9000)))
                !! "alice" = Some 0%nat) by (vm_compute; reflexivity).
  split; [exact H|].
  exact (registered_instance_has_worker 9000 10000 one_tenant "alice" 0 H).
Defined.

End WorkerWitness.

(* ===================================================================== *)
(** ** The health-check loop                                              *)
(* ===================================================================== *)

Section ReaperFacts.
Import Pool PoolManager.
Variables PORT_RANGE_START PORT_RANGE_END : Z.

Lemma reaper_round pm user ref i net w now :
  instances pm !! user = Some ref -> store pm !! ref = Some i ->
  registered_status (status i) ->
  run PORT_RANGE_START PORT_RANGE_END (CallReaperVisit user now)
    [(AHealth net, w)] pm
  = (if isHealthy (Some i) net && (now - lastActivity i <=? INSTANCE_TIMEOUT)
     then pm else fst (destroyInstance user pm),
     Returned VUndefined).
Proof.
  intros Hl Hi Hst. unfold run, invoke, reaper_visit. rewrite Hl, Hi.
  assert (Hskip : status_eqb (status i) Stopping
                  || status_eqb (status i) Destroyed = false)
    by (destruct Hst as [->|[->| ->]]; reflexivity).
  rewrite Hskip. unfold drive, resume, reaper_checked. rewrite Hi.
  destruct (isHealthy (Some i) net); simpl.
  - rewrite Z.gtb_ltb. destruct (Z.leb_spec (now - lastActivity i) INSTANCE_TIMEOUT)
      as [Hle|Hgt].
    + apply Z.ltb_ge in Hle. rewrite Hle. reflexivity.
    + apply Z.ltb_lt in Hgt. rewrite Hgt.
      destruct (destroyInstance user pm). reflexivity.
  - destruct (destroyInstance user pm). reflexivity.
Qed.

(** X7. At every point of every execution, one round of the health-check
    loop on a registered instance, run on its own, ends without an
    exception; it leaves the pool manager untouched when the instance
    answers its health check and has been idle for at most 5 minutes
    (300000 ms, the bound included), and otherwise tears the instance
    down: the slot of the tenant is empty, the instance is marked
    ['destroyed'], its port is released and its process is sent
    [SIGTERM]. *)
Theorem health_check_round (acts : list action) (user : string) (ref : nat)
    (net : FetchOutcome) (w : World) (now : Z) :
  let pm := pool (exec PORT_RANGE_START PORT_RANGE_END acts
                    (initial PORT_RANGE_START)) in
  instances pm !! user = Some ref ->
  exists i, store pm !! ref = Some i /\
    let res := run PORT_RANGE_START PORT_RANGE_END (CallReaperVisit user now)
                 [(AHealth net, w)] pm in
    snd res = Returned VUndefined /\
    (isHealthy (Some i) net = true -> now - lastActivity i <= 300000 ->
     fst res = pm) /\
    (isHealthy (Some i) net = false \/ now - lastActivity i > 300000 ->
     torn_down (fst res) user ref i).
Proof.
  intros pm Hl. subst pm.
  destruct (exec_started PORT_RANGE_START PORT_RANGE_END acts _
              (initial_keyed PORT_RANGE_START)
              (initial_started PORT_RANGE_START) user ref Hl)
    as (i & Hi & Hst).
  destruct (exec_spawned PORT_RANGE_START PORT_RANGE_END acts _
              (initial_spawned PORT_RANGE_START)) as (Hok & _ & _).
  exists i. split; [exact Hi|].
  rewrite (reaper_round _ user ref i net w now Hl Hi Hst). cbn [fst snd].
  split; [reflexivity|]. split.
  - intros Hh Hidle. rewrite Hh. simpl.
    destruct (Z.leb_spec (now - lastActivity i) INSTANCE_TIMEOUT) as [_|Hgt];
      [reflexivity|]. unfold INSTANCE_TIMEOUT in Hgt. lia.
  - intros Hbad.
    assert (E : isHealthy (Some i) net
                && (now - lastActivity i <=? INSTANCE_TIMEOUT) = false).
    { destruct Hbad as [->|Hgt]; [reflexivity|].
      apply andb_false_iff. right. apply Z.leb_gt.
      unfold INSTANCE_TIMEOUT. lia. }
    rewrite E. apply destroyInstance_tears_down; assumption.
Qed.

End ReaperFacts.

Section ReaperWitness.
Import Pool PoolManager.

Lemma health_check_round_witness :
  let pm := pool (exec 9000 10000 one_tenant (initial 9000)) in
  instances pm !! "alice" = Some 0%nat /\
  exists i, store pm !! 0%nat = Some i /\
    let res := run 9000 10000 (CallReaperVisit "alice" 301000)
                 [(AHealth healthy_answer, world_late)] pm in
    snd res = Returned VUndefined /\
    (isHealthy (Some i) healthy_answer = true ->
     301000 - lastActivity i <= 300000 -> fst res = pm) /\
    (isHealthy (Some i) healthy_answer = false \/
     301000 - lastActivity i > 300000 ->
     torn_down (fst res) "alice" 0 i).
Proof.
  assert (H : instances (pool (exec 9000 10000 one_tenant (initial 9000)))
                !! "alice" = Some 0%nat) by (vm_compute; reflexivity).
  split; [exact H|].
  exact (health_check_round 9000 10000 one_tenant "alice" 0 healthy_answer
           world_late 301000 H).
Defined.

End ReaperWitness.

(* ===================================================================== *)
(** ** The allocator against an operating system                          *)
(* ===================================================================== *)

Section AllocatorSearch.
Import Pool PoolManager.
Variables PORT_RANGE_START PORT_RANGE_END : Z.

Lemma allocatePort_loop_leased k n pm :
  nextPort pm ∈ usedPorts pm ->
  allocatePort_loop PORT_RANGE_START PORT_RANGE_END k (S n) pm
  = allocatePort_loop PORT_RANGE_START PORT_RANGE_END k n
      (advance PORT_RANGE_START PORT_RANGE_END pm).
Proof.
  intros Hin. unfold allocatePort_loop. simpl.
  destruct (decide (nextPort pm ∈ usedPorts pm)); [reflexivity | contradiction].
Qed.

Lemma allocatePort_loop_probe k n pm :
  nextPort pm ∉ usedPorts pm ->
  allocatePort_loop PORT_RANGE_START PORT_RANGE_END k (S n) pm
  = (advance PORT_RANGE_START PORT_RANGE_END pm,
     Suspended (AllocatePort_probe k n (nextPort pm))).
Proof.
  intros Hnin. unfold allocatePort_loop. simpl.
  destruct (decide (nextPort pm ∈ usedPorts pm)); [contradiction | reflexivity].
Qed.

Lemma allocatePort_loop_first_free free w n : forall pm,
  let ports := candidates PORT_RANGE_START PORT_RANGE_END n (nextPort pm) in
  let start := allocatePort_loop PORT_RANGE_START PORT_RANGE_END
                 FromOutside n pm in
  let res := drive PORT_RANGE_START PORT_RANGE_END
               (probes free w (usedPorts pm) ports) (fst start) (snd start) in
  instances (fst res) = instances pm /\ store (fst res) = store pm /\
  match first_free free (usedPorts pm) ports with
  | Some p => snd res = Returned (VPort p) /\
              usedPorts (fst res) = {[p]} ∪ usedPorts pm
  | None => snd res = Threw (JsError "No available ports in range") /\
            usedPorts (fst res) = usedPorts pm
  end.
Proof.
  induction n as [|n IH]; intros pm; [simpl; auto|].
  specialize (IH (advance PORT_RANGE_START PORT_RANGE_END pm)).
  cbn zeta in *. simpl candidates. unfold probes, first_free in *.
  simpl List.filter. simpl List.find.
  change (nextPort (advance PORT_RANGE_START PORT_RANGE_END pm))
    with (if nextPort pm + 1 >? PORT_RANGE_END then PORT_RANGE_START
          else nextPort pm + 1) in IH.
  change (usedPorts (advance PORT_RANGE_START PORT_RANGE_END pm))
    with (usedPorts pm) in IH.
  change (instances (advance PORT_RANGE_START PORT_RANGE_END pm))
    with (instances pm) in IH.
  change (store (advance PORT_RANGE_START PORT_RANGE_END pm))
    with (store pm) in IH.
  destruct (decide (nextPort pm ∈ usedPorts pm)) as [Hin|Hnin].
  - rewrite (bool_decide_eq_false_2 _ (fun H => H Hin)).
    rewrite (allocatePort_loop_leased _ _ _ Hin). exact IH.
  - rewrite (bool_decide_eq_true_2 _ Hnin).
    rewrite (allocatePort_loop_probe _ _ _ Hnin).
    cbn [andb map fst snd drive resume]. unfold allocatePort_probed.
    destruct (free (nextPort pm)).
    + cbn [allocatePort_return]. destruct (map _ _); simpl; auto.
    + destruct (allocatePort_loop _ _ FromOutside n
                  (advance PORT_RANGE_START PORT_RANGE_END pm)) as [pm0 o].
      exact IH.
Qed.

(** X8. [allocatePort()] run on its own, against an operating system in
    which exactly the ports satisfying [free] can be bound, returns the
    first port that is neither leased nor taken among the
    [PORT_RANGE_END - PORT_RANGE_START] positions the cursor goes through
    from [nextPort] on, and adds exactly that port to the lease set; it
    throws ["No available ports in range"], leaving the lease set as it
    was, exactly when there is no such port.  The registry and the
    instance objects are not touched. *)
Theorem allocatePort_first_free (free : Z -> bool) (w : World)
    (pm : PoolManager) :
  let ports := candidates PORT_RANGE_START PORT_RANGE_END
                 (Z.to_nat (maxAttempts PORT_RANGE_START PORT_RANGE_END))
                 (nextPort pm) in
  let res := run PORT_RANGE_START PORT_RANGE_END CallAllocatePort
               (probes free w (usedPorts pm) ports) pm in
  instances (fst res) = instances pm /\ store (fst res) = store pm /\
  match first_free free (usedPorts pm) ports with
  | Some p => snd res = Returned (VPort p) /\
              usedPorts (fst res) = {[p]} ∪ usedPorts pm
  | None => snd res = Threw (JsError "No available ports in range") /\
            usedPorts (fst res) = usedPorts pm
  end.
Proof.
  intros ports res.
  pose proof (allocatePort_loop_first_free free w
                (Z.to_nat (maxAttempts PORT_RANGE_START PORT_RANGE_END)) pm)
    as H.
  cbn zeta in H. subst res ports. unfold run, invoke, allocatePort.
  destruct (allocatePort_loop _ _ FromOutside _ pm) as [pm1 o]. exact H.
Qed.

End AllocatorSearch.

(* ===================================================================== *)
(** ** A creation that succeeds                                           *)
(* ===================================================================== *)

Section BuildingFacts.
Import Pool PoolManager.
Variables PORT_RANGE_START PORT_RANGE_END : Z.

Lemma allocatePort_loop_building user config a n pm cur :
  same_pool pm cur ->
  building_step user pm a
    (allocatePort_loop PORT_RANGE_START PORT_RANGE_END
       (FromCreateInstance user config) n cur).
Proof.
  intros (Hi & Hs & Hu & Hp & He). unfold allocatePort_loop, building_step.
  pose proof (allocatePort_scan_fields PORT_RANGE_START PORT_RANGE_END n cur)
    as (Ei & Es & Eu & Ep & Ee).
  pose proof (allocatePort_scan_fresh PORT_RANGE_START PORT_RANGE_END n cur)
    as Hfresh.
  destruct (allocatePort_scan _ _ n cur) as [cur' [[port m]|]]; simpl in *;
    [|exact I].
  split; [reflexivity|]. split.
  - unfold same_pool. rewrite Ei, Es, Eu, Ep, Ee. auto.
  - rewrite <- Hu. apply (Hfresh port m). reflexivity.
Qed.

Lemma createInstance_spawn_building w user config a p pm cur :
  instances cur = instances pm -> store cur = store pm ->
  procs cur = procs pm -> emitted cur = emitted pm ->
  p ∉ usedPorts pm -> usedPorts cur = {[p]} ∪ usedPorts pm ->
  building_step user pm a (createInstance_spawn w user config p cur).
Proof.
  intros Hi Hs Hp He Hfresh Hu. unfold createInstance_spawn,
    createInstance_failed, waitForHealthy, spawnOpenCode, building_step.
  set (instance := mkInstance _ _ _ _ _ _ _ _ _).
  destruct (w_spawn w) as [e|]; cbn [fst snd]; [exact I|].
  simpl. split; [reflexivity|]. split; [exact Hi|]. split; [exact He|].
  unfold built. simpl. rewrite Hs, Hp.
  split; [reflexivity|]. split; [|auto].
  exists (with_process (Some (length (procs pm))) instance).
  split; [|auto].
  rewrite alter_app_r_alt by lia. rewrite Nat.sub_diag. reflexivity.
Qed.

Lemma createInstance_register_building user pm cur ref p net :
  instances cur = instances pm -> emitted cur = emitted pm ->
  built user pm cur ref p Starting ->
  isHealthy (store cur !! ref) net = true ->
  building_step user pm (AHealth net) (createInstance_register user ref cur).
Proof.
  intros Hi He (Href & (i0 & Hs & Hu & Hp & Hproc & Hst) & Hprocs & Hfresh & Hused)
    Hh.
  assert (Hl : store cur !! ref = Some i0).
  { rewrite Hs, Href, lookup_app_r by lia. rewrite Nat.sub_diag. reflexivity. }
  unfold createInstance_register, building_step. cbn [fst snd].
  exists ref, p, (with_status Running i0), net.
  split; [reflexivity|]. split; [reflexivity|]. simpl. split; [|split].
  - rewrite list_lookup_alter_eq, Hl. reflexivity.
  - rewrite <- Hh, Hl. apply isHealthy_port. reflexivity.
  - split; [|rewrite Hi, He; auto].
    unfold built. simpl. split; [exact Href|]. split; [|auto].
    exists (with_status Running i0). split; [|auto].
    rewrite Hs, Href, alter_app_r_alt by lia. rewrite Nat.sub_diag. reflexivity.
Qed.

Lemma resume_building user pm w a t cur :
  building user pm t cur ->
  building_step user pm a (resume PORT_RANGE_START PORT_RANGE_END w a t cur).
Proof.
  intros Hb.
  destruct t as [u config ref|u config|k n port|u ref port st
                |u ref port st|u ref now]; try contradiction.
  - destruct k as [u config|]; [|contradiction].
    destruct a as [avail|net|]; try exact Hb.
    destruct Hb as (-> & Hsame & Hfresh).
    unfold resume, allocatePort_probed. destruct avail.
    + destruct Hsame as (Hi & Hs & Hu & Hp & He).
      apply createInstance_spawn_building; simpl; auto.
      rewrite Hu. reflexivity.
    + apply allocatePort_loop_building, Hsame.
  - destruct a as [avail|net|]; try exact Hb.
    destruct Hb as (-> & Hi & He & Hbuilt).
    unfold resume, waitForHealthy_checked.
    destruct (isHealthy (store cur !! ref) net) eqn:Hh.
    + apply (createInstance_register_building user pm cur ref port net);
        assumption.
    + exact (conj eq_refl (conj Hi (conj He Hbuilt))).
  - destruct a as [avail|net|]; try exact Hb.
    unfold resume, waitForHealthy_woke, createInstance_failed.
    destruct (_ <? _); [exact Hb | exact I].
Qed.

Lemma drive_building user pm script : forall cur t v,
  building user pm t cur ->
  snd (drive PORT_RANGE_START PORT_RANGE_END script cur (Suspended t))
    = Returned v ->
  exists a w, (a, w) ∈ script /\
    building_step user pm a
      (fst (drive PORT_RANGE_START PORT_RANGE_END script cur (Suspended t)),
       Returned v).
Proof.
  induction script as [|[a w] rest IH]; intros cur t v Hb Hv;
    [discriminate|].
  simpl in *.
  pose proof (resume_building user pm w a t cur Hb) as Hstep.
  destruct (resume _ _ w a t cur) as [cur' [t'|v'|e']];
    unfold building_step in Hstep; cbn [fst snd] in Hstep.
  - destruct (IH cur' t' v Hstep Hv) as (a' & w' & Hin & H).
    exists a', w'. split; [apply elem_of_cons; right; exact Hin | exact H].
  - assert (v' = v) as -> by (destruct rest; simpl in Hv; congruence).
    exists a, w. split; [apply elem_of_cons; left; reflexivity|].
    unfold building_step. destruct rest; exact Hstep.
  - destruct rest; discriminate.
Qed.

(** X9. When [createInstance(user, config)], run on its own, returns, it
    returns a new instance object that has answered a health check of
    the call; the object is registered under [user], has the status
    ['running'] and a port that was not leased before and is leased now;
    one child process has been spawned, for that object and port, and
    ['onInstanceCreated'] has been emitted once.  The objects, processes
    and leases that existed before the call are as they were: an instance
    that was registered for the tenant is replaced in the registry, not
    destroyed. *)
Theorem createInstance_success (user : string)
    (config : list (string * jsval)) (script : list (answer * World))
    (pm : PoolManager) (v : value) :
  let res := run PORT_RANGE_START PORT_RANGE_END
               (CallCreateInstance user config) script pm in
  snd res = Returned v ->
  exists i net w,
    v = VInstance (length (store pm)) /\
    instances (fst res) = <[user := length (store pm)]> (instances pm) /\
    store (fst res) = (store pm ++ [i])%list /\
    userId i = user /\ status i = Running /\
    process i = Some (length (procs pm)) /\
    procs (fst res)
      = (procs pm ++ [mkProc (length (store pm)) user (port i) []])%list /\
    (port i ∉ usedPorts pm) /\
    usedPorts (fst res) = {[port i]} ∪ usedPorts pm /\
    emitted (fst res)
      = (emitted pm ++ [onInstanceCreated (length (store pm))])%list /\
    (AHealth net, w) ∈ script /\ isHealthy (Some i) net = true.
Proof.
  intros res Hv. subst res. unfold run, invoke, createInstance, allocatePort in *.
  pose proof (allocatePort_loop_building user config ATick
                (Z.to_nat (maxAttempts PORT_RANGE_START PORT_RANGE_END)) pm pm)
    as Hstart.
  destruct (allocatePort_loop _ _ _ _ pm) as [cur [t|v'|e]];
    unfold building_step in Hstart; cbn [fst snd] in Hstart.
  - specialize (Hstart (conj eq_refl (conj eq_refl (conj eq_refl
                          (conj eq_refl eq_refl))))).
    destruct (drive_building user pm script cur t v Hstart Hv)
      as (a & w & Hin & ref & p & i & net & -> & -> & Hl & Hh & Hbuilt & Hi & He).
    cbn [fst snd] in *.
    destruct Hbuilt as (-> & (i' & Hs & Hu & Hp & Hproc & Hst) & Hprocs
                        & Hfresh & Hused).
    assert (i' = i) as ->.
    { rewrite Hs, lookup_app_r in Hl by lia. rewrite Nat.sub_diag in Hl.
      simpl in Hl. congruence. }
    exists i, net, w. subst p. auto 15.
  - specialize (Hstart (conj eq_refl (conj eq_refl (conj eq_refl
                          (conj eq_refl eq_refl))))).
    destruct Hstart as (ref & p & i & net & _ & Hbad & _). discriminate.
  - destruct script; discriminate.
Qed.

End BuildingFacts.

Section BuildingWitness.
Import Pool PoolManager.

Lemma createInstance_success_witness :
  let res := run 9000 10000 (CallCreateInstance "alice" []) first_caller
               (new 9000) in
  snd res = Returned (VInstance 0) /\
  exists i net w,
    VInstance 0 = VInstance (length (store (new 9000))) /\
    instances (fst res)
      = <["alice" := length (store (new 9000))]> (instances (new 9000)) /\
    store (fst res) = (store (new 9000) ++ [i])%list /\
    userId i = "alice" /\ status i = Running /\
    process i = Some (length (procs (new 9000))) /\
    procs (fst res)
      = (procs (new 9000)
         ++ [mkProc (length (store (new 9000))) "alice" (port i) []])%list /\
    (port i ∉ usedPorts (new 9000)) /\
    usedPorts (fst res) = {[port i]} ∪ usedPorts (new 9000) /\
    emitted (fst res)
      = (emitted (new 9000)
         ++ [onInstanceCreated (length (store (new 9000)))])%list /\
    (AHealth net, w) ∈ first_caller /\ isHealthy (Some i) net = true.
Proof.
  assert (H : snd (run 9000 10000 (CallCreateInstance "alice" [])
                     first_caller (new 9000)) = Returned (VInstance 0))
    by (vm_compute; reflexivity).
  split; [exact H|].
  exact (createInstance_success 9000 10000 "alice" [] first_caller (new 9000)
           (VInstance 0) H).
Defined.

End BuildingWitness.

(* ===================================================================== *)
(** ** lib/users/rbac.js: listings, resources and the role hierarchy      *)
(* ===================================================================== *)

Section RbacAccessFacts.
Import Rbac.

(** X10. [hasPermission] against [getUserPermissions]: a user has a
    permission exactly when the role is ['admin'] or the list returned by
    [getUserPermissions] holds ['*'], the permission itself or
    ['<scope>:*'] for the part of the permission before its first [':'].
    In particular every permission that is listed is granted. *)
Theorem hasPermission_from_listed (roles : gmap string Role) (u : User)
    (permission : string) :
  let listed := getUserPermissions roles (Some u) in
  (hasPermission roles (Some u) permission = true <->
   role u = Some "admin" \/
   "*" ∈ listed \/ permission ∈ listed \/
   (hd "" (split_on colon permission) ++ ":*") ∈ listed) /\
  (permission ∈ listed -> hasPermission roles (Some u) permission = true).
Proof.
  intros listed.
  assert (Hiff : hasPermission roles (Some u) permission = true <->
                 role u = Some "admin" \/
                 "*" ∈ listed \/ permission ∈ listed \/
                 (hd "" (split_on colon permission) ++ ":*") ∈ listed).
  { subst listed. unfold hasPermission, getUserPermissions.
    destruct (role u) as [r|] eqn:Hr; simpl.
    - destruct (String.eqb r "") eqn:E0.
      + apply String.eqb_eq in E0. subst r. split; [discriminate|].
        intros [H|[H|[H|H]]]; try discriminate; inversion H.
      + destruct (String.eqb r "admin") eqn:E1.
        * apply String.eqb_eq in E1. subst r. split; auto.
        * apply String.eqb_neq in E1.
          unfold getRole. destruct (roles !! r) as [rl|].
          -- unfold WILDCARD_PERMISSION.
             destruct (includes _ "*") eqn:Ia.
             { apply includes_elem_of in Ia. split; auto. }
             destruct (includes _ permission) eqn:Ib.
             { apply includes_elem_of in Ib. split; auto. }
             destruct (includes _ (_ ++ ":*")) eqn:Ic.
             { apply includes_elem_of in Ic. split; auto. }
             split; [discriminate|].
             intros [H|[H|[H|H]]]; [congruence| | |];
               apply includes_elem_of in H; congruence.
          -- split; [discriminate|].
             intros [H|[H|[H|H]]]; [congruence| | |]; inversion H.
    - split; [discriminate|].
      intros [H|[H|[H|H]]]; try discriminate; inversion H. }
  split; [exact Hiff|]. intros H. apply Hiff. auto.
Qed.

(** X11. [canAccess] never grants what [hasPermission] refuses for
    ['<resource>:<action>']; it is that permission check alone, except
    for the action ['write:self'] on a resource with a non-empty
    [ownerId], where the user must also be the owner: there even an
    admin is refused on the resource of somebody else. *)
Theorem canAccess_spec (roles : gmap string Role) (user : option User)
    (resource action : string) (ownerId : option string) :
  let granted := hasPermission roles user (resource ++ ":" ++ action) in
  (canAccess roles user resource action ownerId = true -> granted = true) /\
  (action <> "write:self" \/ ownerId = None \/ ownerId = Some "" ->
   canAccess roles user resource action ownerId = granted) /\
  (forall u owner,
     user = Some u -> action = "write:self" -> ownerId = Some owner ->
     owner <> "" ->
     canAccess roles user resource action ownerId
     = granted && String.eqb (user_id u) owner) /\
  (forall u owner,
     user = Some u -> role u = Some "admin" -> action = "write:self" ->
     ownerId = Some owner -> owner <> "" -> user_id u <> owner ->
     canAccess roles user resource action ownerId = false).
Proof.
  intros granted.
  assert (Hown : forall u owner,
     user = Some u -> action = "write:self" -> ownerId = Some owner ->
     owner <> "" ->
     canAccess roles user resource action ownerId
     = granted && String.eqb (user_id u) owner).
  { intros u owner -> -> -> Hne. subst granted. unfold canAccess.
    destruct (hasPermission _ _ _); simpl; [|reflexivity].
    apply String.eqb_neq in Hne. rewrite Hne. reflexivity. }
  split; [|split; [|split]].
  - subst granted. unfold canAccess.
    destruct (hasPermission _ _ _); [reflexivity | discriminate].
  - subst granted. unfold canAccess.
    destruct (hasPermission _ _ _); simpl; [|reflexivity].
    intros [H|[->| ->]].
    + apply String.eqb_neq in H. rewrite H. reflexivity.
    + simpl. rewrite andb_false_r. reflexivity.
    + simpl. rewrite andb_false_r. reflexivity.
  - exact Hown.
  - intros u owner Hu Hadmin Ha Ho Hne Hid.
    rewrite (Hown u owner Hu Ha Ho Hne).
    apply String.eqb_neq in Hid. rewrite Hid. apply andb_false_r.
Qed.

End RbacAccessFacts.

Section RoleHierarchyFacts.
Import Rbac.
Variable primitive : string -> string.

Lemma roleLevel_number r n :
  roleLevel r = LevelNumber n ->
  0 <= n <= 3 /\ (n = 3 <-> r = Some "admin").
Proof.
  unfold roleLevel. destruct r as [r|].
  - destruct (String.eqb r "viewer") eqn:E1.
    { apply String.eqb_eq in E1. subst r. intros [= <-].
      split; [lia|]. split; [lia | discriminate]. }
    destruct (String.eqb r "developer") eqn:E2.
    { apply String.eqb_eq in E2. subst r. intros [= <-].
      split; [lia|]. split; [lia | discriminate]. }
    destruct (String.eqb r "admin") eqn:E3.
    { apply String.eqb_eq in E3. subst r. intros [= <-].
      split; [lia|]. split; reflexivity. }
    apply String.eqb_neq in E3.
    destruct (includes _ r); [discriminate|]. intros [= <-].
    split; [lia|]. split; [lia | congruence].
  - intros [= <-]. split; [lia|]. split; [lia | discriminate].
Qed.

Lemma level_gt_asym a b :
  level_gt primitive a b = true -> level_gt primitive b a = false.
Proof.
  destruct a as [x|x], b as [y|y]; simpl; try reflexivity.
  - intros H. rewrite Z.gtb_ltb in *. apply Z.ltb_lt in H.
    apply Z.ltb_ge. lia.
  - unfold String.ltb.
    rewrite (String.compare_antisym (primitive x) (primitive y)).
    destruct (String.compare (primitive y) (primitive x));
      simpl; congruence.
Qed.

Lemma level_gt_admin r :
  r <> Some "admin" ->
  level_gt primitive (roleLevel r) (roleLevel (Some "admin")) = false.
Proof.
  intros Hr. change (roleLevel (Some "admin")) with (LevelNumber 3).
  destruct (roleLevel r) as [n|m] eqn:E; simpl; [|reflexivity].
  destruct (roleLevel_number r n E) as [Hn Hadm].
  rewrite Z.gtb_ltb. apply Z.ltb_ge. lia.
Qed.

(** X12. [canManageUser]: nobody manages themselves; an admin manages
    every other user; a user who is not an admin never manages an admin;
    two users manage each other only if both are admins; and a viewer
    manages every other user whose role is missing or is a custom role
    (a name other than the three built-in roles and the members of
    [Object.prototype]), since such roles rank 0. *)
Theorem canManageUser_hierarchy (currentUser targetUser : User) :
  canManageUser primitive currentUser currentUser = false /\
  (role currentUser = Some "admin" ->
   user_id currentUser <> user_id targetUser ->
   canManageUser primitive currentUser targetUser = true) /\
  (role targetUser = Some "admin" -> role currentUser <> Some "admin" ->
   canManageUser primitive currentUser targetUser = false) /\
  (canManageUser primitive currentUser targetUser = true ->
   canManageUser primitive targetUser currentUser = true ->
   role currentUser = Some "admin" /\ role targetUser = Some "admin") /\
  (role currentUser = Some "viewer" ->
   user_id currentUser <> user_id targetUser ->
   roleLevel (role targetUser) = LevelNumber 0 ->
   canManageUser primitive currentUser targetUser = true).
Proof.
  unfold canManageUser. split; [|split; [|split; [|split]]].
  - rewrite String.eqb_refl. reflexivity.
  - intros Hadm Hid. apply String.eqb_neq in Hid. rewrite Hid.
    rewrite bool_decide_eq_true_2 by exact Hadm. reflexivity.
  - intros Ht Hc. destruct (String.eqb _ _); [reflexivity|].
    rewrite bool_decide_eq_false_2 by exact Hc.
    rewrite Ht. apply level_gt_admin, Hc.
  - rewrite (String.eqb_sym (user_id targetUser)).
    destruct (String.eqb _ _); [discriminate|].
    destruct (bool_decide (role currentUser = Some "admin")) eqn:Ec;
      destruct (bool_decide (role targetUser = Some "admin")) eqn:Et.
    + apply bool_decide_eq_true in Ec, Et. auto.
    + apply bool_decide_eq_true in Ec. apply bool_decide_eq_false in Et.
      intros _ H. rewrite Ec, level_gt_admin in H by exact Et. discriminate.
    + apply bool_decide_eq_true in Et. apply bool_decide_eq_false in Ec.
      intros H _. rewrite Et, level_gt_admin in H by exact Ec. discriminate.
    + intros H1 H2. apply level_gt_asym in H1. congruence.
  - intros Hv Hid H0. apply String.eqb_neq in Hid. rewrite Hid.
    rewrite Hv, H0. reflexivity.
Qed.

End RoleHierarchyFacts.

(* ===================================================================== *)
(** ** routes/instances.js: who may do what                               *)
(* ===================================================================== *)

Section RouteAccessFacts.
Import Pool PoolManager Routes.
Variables PORT_RANGE_START PORT_RANGE_END : Z.

Lemma stranger_denied roles req instance :
  ~ may_manage roles req instance ->
  String.eqb (userId instance) (Rbac.user_id (user req)) = false /\
  match hasPermission roles (user req) Rbac.INSTANCE_ADMIN with
  | Ok isAdmin => isAdmin = false
  | Throw _ => True
  end.
Proof.
  intros Hno. split.
  - apply String.eqb_neq. intros E. apply Hno. left. exact E.
  - destruct (hasPermission roles (user req) Rbac.INSTANCE_ADMIN)
      as [[|]|e] eqn:E; auto.
    exfalso. apply Hno. right. exact E.
Qed.

(** X13. A requester who neither owns an instance nor is granted
    ['instance:admin'] gets nothing from the routes on that instance:
    [GET /:id], [GET /:id/status], [DELETE /:id] and [POST /:id/restart]
    all answer 403 ['Access denied'] (500 with an error message if the
    role table cannot be read), and the last two leave the pool manager
    exactly as it was. *)
Theorem instance_routes_refuse_strangers
    (roles : result (gmap string Rbac.Role)) (net : FetchOutcome)
    (account : jsval) (script : list (answer * World)) (pm : PoolManager)
    (req : Request) (id : string) (instance : Instance) :
  findInstanceById id pm = Some instance ->
  ~ may_manage roles req instance ->
  let check := hasPermission roles (user req) Rbac.INSTANCE_ADMIN in
  refused check (get_instance roles net pm req id) /\
  refused check (get_status roles net pm req id) /\
  (exists response,
     delete_instance roles pm req id = (pm, response) /\
     refused check response) /\
  (exists response,
     restart_instance PORT_RANGE_START PORT_RANGE_END roles account script
       pm req id = (pm, Some response) /\
     refused check response).
Proof.
  intros Hfind Hno check. subst check.
  destruct (stranger_denied roles req instance Hno) as [Howner Hadmin].
  unfold get_instance, get_status, delete_instance, restart_instance,
    denied, canManage, refused.
  rewrite Hfind, Howner. simpl.
  destruct (hasPermission roles (user req) Rbac.INSTANCE_ADMIN) as [b|e];
    simpl.
  - subst b. simpl. repeat split; eauto.
  - repeat split; eauto.
Qed.

End RouteAccessFacts.

Section RouteAccessWitness.
Import Pool PoolManager Routes.

Lemma instance_routes_refuse_strangers_witness :
  let pm := pool (exec 9000 10000 one_tenant (initial 9000)) in
  let req := mkRequest (Rbac.mkUser "mallory" (Some "developer")) None in
  let check := hasPermission (Ok ∅) (user req) Rbac.INSTANCE_ADMIN in
  refused check
    (get_instance (Ok ∅) healthy_answer pm req "instance_5f1c0a7e") /\
  refused check
    (get_status (Ok ∅) healthy_answer pm req "instance_5f1c0a7e") /\
  (exists response,
     delete_instance (Ok ∅) pm req "instance_5f1c0a7e" = (pm, response) /\
     refused check response) /\
  (exists response,
     restart_instance 9000 10000 (Ok ∅) JNull first_caller
       pm req "instance_5f1c0a7e" = (pm, Some response) /\
     refused check response).
Proof.
  assert (Hfind : findInstanceById "instance_5f1c0a7e"
                    (pool (exec 9000 10000 one_tenant (initial 9000)))
                  = Some (mkInstance "instance_5f1c0a7e" "alice" 9000
                            "secret-a" (Some 0%nat) Running 1000 1000
                            [("maxMemoryMB", JNum 2048);
                             ("workingDir", JStr "/srv/app")]))
    by (vm_compute; reflexivity).
  refine (instance_routes_refuse_strangers 9000 10000 (Ok ∅) healthy_answer
            JNull first_caller _
            (mkRequest (Rbac.mkUser "mallory" (Some "developer")) None)
            "instance_5f1c0a7e" _ Hfind _).
  intros [H|H]; [discriminate H | vm_compute in H; discriminate H].
Defined.

End RouteAccessWitness.

(* ===================================================================== *)
(** ** routes/instances.js: looking an instance up                        *)
(* ===================================================================== *)

Section LookupFacts.
Import Pool PoolManager Routes.

Lemma values_entries pm : values pm = map snd (entries pm).
Proof.
  unfold values, entries.
  induction (map_to_list (instances pm)) as [|[k ref] l IH]; simpl;
    [reflexivity|].
  destruct (store pm !! ref) as [i|]; simpl; [f_equal|]; exact IH.
Qed.

Lemma findInstanceById_entry id pm :
  findInstanceById id pm = snd <$> findInstanceEntry id pm.
Proof.
  unfold findInstanceById, findInstanceEntry. rewrite values_entries.
  induction (entries pm) as [|[ref i] l IH]; simpl; [reflexivity|].
  destruct (String.eqb (instance_id i) id); [reflexivity | exact IH].
Qed.

Lemma entries_registered pm ref i :
  (ref, i) ∈ entries pm ->
  exists user, instances pm !! user = Some ref /\ store pm !! ref = Some i.
Proof.
  unfold entries. intros H. apply list_elem_of_omap in H.
  destruct H as ([user r] & Hin & Hi). apply elem_of_map_to_list in Hin.
  simpl in Hi. destruct (store pm !! r) as [j|] eqn:E; [|discriminate].
  simpl in Hi. injection Hi as <- <-. exists user. auto.
Qed.

Lemma findInstanceEntry_registered id pm ref i :
  findInstanceEntry id pm = Some (ref, i) ->
  instance_id i = id /\
  exists user, instances pm !! user = Some ref /\ store pm !! ref = Some i.
Proof.
  unfold findInstanceEntry. intros H. apply find_some in H.
  destruct H as [Hin Hid]. simpl in Hid. apply String.eqb_eq in Hid.
  split; [exact Hid|]. apply entries_registered, list_elem_of_In, Hin.
Qed.

Lemma findInstanceById_registered id pm i :
  findInstanceById id pm = Some i ->
  instance_id i = id /\
  exists user ref, instances pm !! user = Some ref /\ store pm !! ref = Some i.
Proof.
  rewrite findInstanceById_entry.
  destruct (findInstanceEntry id pm) as [[ref j]|] eqn:E; [|discriminate].
  simpl. intros [= <-].
  destruct (findInstanceEntry_registered id pm ref j E) as (Hid & user & H).
  split; [exact Hid|]. exists user, ref. exact H.
Qed.

End LookupFacts.

Section ActivityFacts.
Import Pool PoolManager Routes.
Variables PORT_RANGE_START PORT_RANGE_END : Z.

(** X14. At every point of every execution, when
    [POST /:id/activity] answers 200 the instance found belongs to the
    requester (somebody else, an admin included, gets 403) and only its
    [lastActivity] has been written; a round of the health-check loop for
    that tenant that starts at most 5 minutes after the report and finds
    the instance healthy then leaves it in place. *)
Theorem report_activity_keeps_alive (acts : list action) (t now : Z)
    (req : Request) (id : string) (net : FetchOutcome) (w : World) :
  let pm := pool (exec PORT_RANGE_START PORT_RANGE_END acts
                    (initial PORT_RANGE_START)) in
  let owner := Rbac.user_id (user req) in
  let pm' := fst (report_activity t pm req id) in
  statusCode (snd (report_activity t pm req id)) = 200 ->
  (exists ref i,
     findInstanceEntry id pm = Some (ref, i) /\ userId i = owner /\
     instances pm !! owner = Some ref /\
     pm' = update ref (with_lastActivity t) pm /\
     store pm' !! ref = Some (with_lastActivity t i)) /\
  (isHealthy (getInstance owner pm') net = true -> now - t <= 300000 ->
   run PORT_RANGE_START PORT_RANGE_END (CallReaperVisit owner now)
     [(AHealth net, w)] pm' = (pm', Returned VUndefined)).
Proof.
  intros pm owner pm' H200. subst pm' owner.
  destruct (exec_keyed PORT_RANGE_START PORT_RANGE_END acts _
              (initial_keyed PORT_RANGE_START)) as [Hkey _].
  pose proof (exec_started PORT_RANGE_START PORT_RANGE_END acts _
                (initial_keyed PORT_RANGE_START)
                (initial_started PORT_RANGE_START)) as Hst.
  fold pm in Hkey, Hst.
  unfold report_activity in *.
  destruct (findInstanceEntry id pm) as [[ref i]|] eqn:Hfind;
    [|discriminate H200].
  destruct (String.eqb (userId i) (Rbac.user_id (user req))) eqn:Howner;
    [|discriminate H200].
  apply String.eqb_eq in Howner. cbn [negb fst snd] in *.
  destruct (findInstanceEntry_registered id pm ref i Hfind)
    as (_ & u & Hl & Hs).
  destruct (Hkey u ref Hl) as (j & Hj & Hu).
  assert (j = i) by congruence. subst j.
  rewrite Howner in Hu. subst u.
  assert (Hs' : store (update ref (with_lastActivity t) pm) !! ref
                = Some (with_lastActivity t i)).
  { simpl. rewrite list_lookup_alter_eq, Hs. reflexivity. }
  split.
  { exists ref, i. split; [reflexivity|]. split; [exact Howner|].
    split; [exact Hl|]. split; [reflexivity | exact Hs']. }
  intros Hh Hidle.
  destruct (Hst _ ref Hl) as (k & Hk & Hstatus).
  assert (k = i) by congruence. subst k.
  rewrite (reaper_round PORT_RANGE_START PORT_RANGE_END
             (update ref (with_lastActivity t) pm) (Rbac.user_id (user req))
             ref (with_lastActivity t i) net w now Hl Hs' Hstatus).
  unfold getInstance in Hh. simpl in Hh. rewrite Hl in Hh. simpl in Hh.
  rewrite list_lookup_alter_eq, Hs in Hh. simpl in Hh. rewrite Hh. simpl.
  destruct (Z.leb_spec (now - t) INSTANCE_TIMEOUT) as [_|Hgt]; [reflexivity|].
  unfold INSTANCE_TIMEOUT in Hgt. lia.
Qed.

End ActivityFacts.

Section ActivityWitness.
Import Pool PoolManager Routes.

Lemma report_activity_keeps_alive_witness :
  let pm := pool (exec 9000 10000 one_tenant (initial 9000)) in
  let req := mkRequest (Rbac.mkUser "alice" (Some "developer")) None in
  let pm' := fst (report_activity 200000 pm req "instance_5f1c0a7e") in
  statusCode (snd (report_activity 200000 pm req "instance_5f1c0a7e")) = 200 /\
  (exists ref i,
     findInstanceEntry "instance_5f1c0a7e" pm = Some (ref, i) /\
     userId i = "alice" /\ instances pm !! "alice" = Some ref /\
     pm' = update ref (with_lastActivity 200000) pm /\
     store pm' !! ref = Some (with_lastActivity 200000 i)) /\
  (isHealthy (getInstance "alice" pm') healthy_answer = true ->
   500000 - 200000 <= 300000 ->
   run 9000 10000 (CallReaperVisit "alice" 500000)
     [(AHealth healthy_answer, world_late)] pm' = (pm', Returned VUndefined)).
Proof.
  assert (H : statusCode
                (snd (report_activity 200000
                        (pool (exec 9000 10000 one_tenant (initial 9000)))
                        (mkRequest (Rbac.mkUser "alice" (Some "developer")) None)
                        "instance_5f1c0a7e")) = 200)
    by (vm_compute; reflexivity).
  split; [exact H|].
  exact (report_activity_keeps_alive 9000 10000 one_tenant 200000 500000
           (mkRequest (Rbac.mkUser "alice" (Some "developer")) None)
           "instance_5f1c0a7e" healthy_answer world_late H).
Defined.

End ActivityWitness.

(* ===================================================================== *)
(** ** routes/instances.js: the credential in the detail routes           *)
(* ===================================================================== *)

Section DetailFacts.
Import Pool PoolManager Routes.

Lemma same_but_password_fields i j :
  same_but_password i j ->
  instance_id i = instance_id j /\ userId i = userId j /\ port i = port j /\
  status i = status j /\ lastActivity i = lastActivity j.
Proof.
  destruct i, j. unfold same_but_password, with_password. simpl.
  intros H. injection H as -> -> -> -> -> -> -> ->. auto.
Qed.

Lemma values_password pm pm' :
  same_but_passwords pm pm' ->
  Forall2 same_but_password (values pm) (values pm').
Proof.
  intros (Hi & _ & Hst). unfold values. rewrite Hi.
  induction (map_to_list (instances pm)) as [|[k ref] l IH]; simpl;
    [constructor|].
  destruct (store pm !! ref) as [i|] eqn:E.
  - destruct (Forall2_lookup_l _ _ _ _ _ Hst E) as (j & -> & Hij).
    constructor; assumption.
  - assert (store pm' !! ref = None) as ->; [|exact IH].
    apply lookup_ge_None. rewrite <- (Forall2_length _ _ _ Hst).
    apply lookup_ge_None. exact E.
Qed.

Lemma findInstanceById_password id pm pm' :
  same_but_passwords pm pm' ->
  match findInstanceById id pm, findInstanceById id pm' with
  | Some i, Some j => same_but_password i j
  | None, None => True
  | _, _ => False
  end.
Proof.
  intros H. apply values_password in H. unfold findInstanceById.
  induction H as [|i j l l' Hij _ IH]; simpl; [exact I|].
  destruct (same_but_password_fields i j Hij) as (<- & _).
  destruct (String.eqb (instance_id i) id); [exact Hij | exact IH].
Qed.

(** X15. The answers of [GET /:id] and [GET /:id/status] are the same
    whatever the credentials of the instances are: the credential is
    never exposed.  A 200 answer of [GET /:id] describes the instance by
    exactly the properties id, userId, port, status, createdAt,
    lastActivity, config.maxMemoryMB and healthy, one of
    [GET /:id/status] by id, status, healthy and lastActivity. *)
Theorem instance_details_hide_credential
    (roles : result (gmap string Rbac.Role)) (net : FetchOutcome)
    (pm pm' : PoolManager) (req : Request) (id : string) :
  (same_but_passwords pm pm' ->
   get_instance roles net pm' req id = get_instance roles net pm req id /\
   get_status roles net pm' req id = get_status roles net pm req id) /\
  (statusCode (get_instance roles net pm req id) = 200 ->
   let instance := optional_get (body (get_instance roles net pm req id))
                     "instance" in
   keys instance = ["id"; "userId"; "port"; "status"; "createdAt";
                    "lastActivity"; "config"; "healthy"] /\
   keys (optional_get instance "config") = ["maxMemoryMB"]) /\
  (statusCode (get_status roles net pm req id) = 200 ->
   keys (body (get_status roles net pm req id))
   = ["id"; "status"; "healthy"; "lastActivity"]).
Proof.
  split; [|split].
  - intros Hsame.
    pose proof (findInstanceById_password id pm pm' Hsame) as Hfind.
    unfold get_instance, get_status.
    destruct (findInstanceById id pm) as [i|],
             (findInstanceById id pm') as [j|]; try contradiction;
      [|split; reflexivity].
    destruct (same_but_password_fields i j Hfind) as (Eid & Eu & Ep & Es & El).
    assert (Ed : denied roles req j = denied roles req i)
      by (unfold denied; rewrite Eu; reflexivity).
    assert (Eh : isHealthy (Some j) net = isHealthy (Some i) net)
      by (apply isHealthy_port; simpl; rewrite Ep; reflexivity).
    rewrite Ed, Eh, (sanitizeInstance_password i j Hfind), Eid, Es, El.
    split; reflexivity.
  - unfold get_instance.
    destruct (findInstanceById id pm) as [i|]; [|discriminate].
    destruct (denied roles req i) as [[|]|e]; try discriminate.
    intros _. split; reflexivity.
  - unfold get_status.
    destruct (findInstanceById id pm) as [i|]; [|discriminate].
    destruct (denied roles req i) as [[|]|e]; try discriminate.
    intros _. reflexivity.
Qed.

End DetailFacts.

(* ===================================================================== *)
(** ** What every instance object satisfies                               *)
(* ===================================================================== *)

Section StoreFacts.
Import Pool PoolManager.
Variables PORT_RANGE_START PORT_RANGE_END : Z.

(** A property of instance objects that holds when [createInstance]
    builds the object and that no later write to it disturbs. *)
Variable P : Instance -> Prop.
Hypothesis P_status : forall i st, P i -> P (with_status st i).
Hypothesis P_lastActivity : forall i t, P i -> P (with_lastActivity t i).
Hypothesis P_process : forall i p, P i -> P (with_process p i).
Hypothesis P_new : forall w user config p,
  P (mkInstance ("instance_" ++ w_randomId w) user p (w_randomPassword w)
       None Starting (w_now w) (w_now w) (instance_config w config)).

Abbreviation all pm := (forall ref i, store pm !! ref = Some i -> P i).

Lemma all_frame pm pm' : store pm' = store pm -> all pm -> all pm'.
Proof. intros Es H ref i Hi. rewrite Es in Hi. apply (H ref i Hi). Qed.

Lemma all_update f ref pm :
  (forall i, P i -> P (f i)) -> all pm -> all (update ref f pm).
Proof.
  intros Hf H r j Hj. simpl in Hj. destruct (decide (ref = r)) as [->|Hne].
  - rewrite list_lookup_alter_eq in Hj.
    destruct (store pm !! r) as [i|] eqn:Hi; [|discriminate].
    simpl in Hj. injection Hj as <-. apply Hf, (H r i Hi).
  - rewrite list_lookup_alter_ne in Hj by exact Hne. apply (H r j Hj).
Qed.

Lemma all_destroyInstance user pm :
  all pm -> all (fst (destroyInstance user pm)).
Proof.
  intros H. unfold destroyInstance.
  destruct (instances pm !! user) as [ref|]; [|exact H].
  destruct (store pm !! ref) as [instance|]; [|exact H].
  cbn [fst]. eapply all_frame; [reflexivity|].
  apply all_update; [intros i; apply P_status|].
  eapply all_frame; [reflexivity|].
  destruct (process instance); eapply all_frame; try reflexivity; exact H.
Qed.

Lemma all_allocatePort_loop k n pm :
  all pm -> all (fst (allocatePort_loop PORT_RANGE_START PORT_RANGE_END k n pm)).
Proof.
  intros H. unfold allocatePort_loop.
  pose proof (allocatePort_scan_fields PORT_RANGE_START PORT_RANGE_END n pm)
    as (_ & Es & _).
  destruct (allocatePort_scan _ _ n pm) as [pm' [[port m]|]]; simpl in *;
    eapply all_frame; eassumption.
Qed.

Lemma all_createInstance_spawn w user config p pm :
  all pm -> all (fst (createInstance_spawn w user config p pm)).
Proof.
  intros H. unfold createInstance_spawn, createInstance_failed,
    waitForHealthy, spawnOpenCode.
  set (instance := mkInstance _ _ _ _ _ _ _ _ _).
  assert (Hpush : all (set_store (fun st => st ++ [instance])%list pm)).
  { intros ref i Hi. simpl in Hi. apply lookup_app_Some in Hi.
    destruct Hi as [Hi|[_ Hi]]; [apply (H ref i Hi)|].
    apply list_lookup_singleton_Some in Hi. destruct Hi as [_ <-].
    apply P_new. }
  destruct (w_spawn w) as [e|]; cbn [fst snd].
  - eapply all_frame; [reflexivity | exact Hpush].
  - apply all_update; [intros i; apply P_process|].
    eapply all_frame; [reflexivity | exact Hpush].
Qed.

Lemma all_invoke c pm :
  all pm -> all (fst (invoke PORT_RANGE_START PORT_RANGE_END c pm)).
Proof.
  intros H. destruct c as [user config|user config|user| |port|user now];
    unfold invoke.
  - unfold getOrCreateInstance, createInstance, allocatePort.
    destruct (instances pm !! user) as [ref|]; [exact H|].
    apply all_allocatePort_loop, H.
  - apply all_allocatePort_loop, H.
  - pose proof (all_destroyInstance user pm H) as Hd.
    destruct (destroyInstance user pm) as [pm' b]. exact Hd.
  - apply all_allocatePort_loop, H.
  - exact H.
  - unfold reaper_visit.
    destruct (instances pm !! user) as [ref|]; [|exact H].
    destruct (store pm !! ref) as [instance|]; [|exact H].
    destruct (_ || _); exact H.
Qed.

Lemma all_resume w a t pm :
  all pm -> all (fst (resume PORT_RANGE_START PORT_RANGE_END w a t pm)).
Proof.
  intros H.
  destruct t as [user config ref|user config|k n port|user ref port st
                |user ref port st|user ref now];
    destruct a as [avail|net|]; try exact H;
    unfold resume, getOrCreateInstance_checked, allocatePort_probed,
      waitForHealthy_checked, waitForHealthy_woke, reaper_checked.
  - destruct (isHealthy _ net).
    + apply all_update; [intros i; apply P_lastActivity | exact H].
    + pose proof (all_destroyInstance user pm H) as Hd.
      destruct (destroyInstance user pm) as [pm' b]. exact Hd.
  - apply all_allocatePort_loop, H.
  - destruct avail; [|apply all_allocatePort_loop, H].
    destruct k as [user config|]; simpl; [|exact H].
    apply all_createInstance_spawn. eapply all_frame; [reflexivity | exact H].
  - destruct (isHealthy _ net); [|exact H].
    unfold createInstance_register. cbn [fst].
    eapply all_frame; [reflexivity|]. eapply all_frame; [reflexivity|].
    apply all_update; [intros i; apply P_status | exact H].
  - destruct (_ <? _); [exact H|].
    unfold createInstance_failed. cbn [fst].
    eapply all_frame; [reflexivity | exact H].
  - destruct (store pm !! ref) as [instance|]; [|exact H].
    pose proof (all_destroyInstance user pm H) as Hd.
    destruct (negb _); [|destruct (_ >? _)];
      try (destruct (destroyInstance user pm) as [pm' b]; exact Hd).
    exact H.
Qed.

Lemma all_exec acts : forall s,
  all (pool s) ->
  all (pool (exec PORT_RANGE_START PORT_RANGE_END acts s)).
Proof.
  induction acts as [|a acts IH]; intros s H; simpl; [exact H|].
  apply IH. destruct a as [c|i a w|pid code|ref now]; unfold step.
  - pose proof (all_invoke c (pool s) H) as Hp.
    destruct (invoke _ _ c (pool s)) as [pm o]. exact Hp.
  - destruct (calls s !! i) as [[t| |]|]; try exact H.
    pose proof (all_resume w a t (pool s) H) as Hp.
    destruct (resume _ _ w a t (pool s)) as [pm o]. exact Hp.
  - simpl. unfold on_exit. destruct (procs (pool s) !! pid); [|exact H].
    apply all_update; [intros i; apply P_status | exact H].
  - simpl. apply all_update; [intros i; apply P_lastActivity | exact H].
Qed.

Lemma every_instance_object acts ref i :
  store (pool (exec PORT_RANGE_START PORT_RANGE_END acts
                 (initial PORT_RANGE_START))) !! ref = Some i -> P i.
Proof.
  apply (all_exec acts (initial PORT_RANGE_START)).
  intros r j H. inversion H.
Qed.

End StoreFacts.

(* ===================================================================== *)
(** ** routes/instances.js: the order of the routes                       *)
(* ===================================================================== *)

Section RouterFacts.
Import Pool PoolManager Routes.
Variables PORT_RANGE_START PORT_RANGE_END : Z.

Lemma instance_id_prefix acts ref i :
  store (pool (exec PORT_RANGE_START PORT_RANGE_END acts
                 (initial PORT_RANGE_START))) !! ref = Some i ->
  exists suffix, instance_id i = "instance_" ++ suffix.
Proof.
  apply (every_instance_object PORT_RANGE_START PORT_RANGE_END
           (fun i => exists suffix, instance_id i = "instance_" ++ suffix)).
  - intros j st H. exact H.
  - intros j t H. exact H.
  - intros j p H. exact H.
  - intros w user config p. eexists. reflexivity.
Qed.

Lemma dispatch_never_stats method path params :
  dispatch method path <> Some (PoolStats, params).
Proof.
  unfold dispatch, routes.
  destruct method; destruct path as [|s1 [|s2 [|s3 path]]];
    cbn [dispatch_in match_path method_eqb];
    repeat (match goal with
            | |- context [String.eqb ?a ?b] =>
                destruct (String.eqb a b) eqn:?
            end;
            cbn [dispatch_in match_path method_eqb fmap option_fmap option_map]);
    try congruence;
    repeat match goal with
           | H : String.eqb _ _ = true |- _ => apply String.eqb_eq in H
           end;
    subst; discriminate.
Qed.

(** X16. The handler registered for [GET /stats] is never reached: the
    route [GET /:id] is registered before it and matches the path
    [/stats], so no request is ever dispatched to the statistics
    handler; and since every instance id begins with ["instance_"], at
    every point of every execution [GET /api/instances/stats] is
    answered 404 ['Instance not found'], for an admin as for anyone. *)
Theorem stats_route_is_shadowed (acts : list action)
    (roles : result (gmap string Rbac.Role)) (net : FetchOutcome)
    (req : Request) :
  (forall method path params,
     dispatch method path <> Some (PoolStats, params)) /\
  dispatch GET ["stats"] = Some (GetInstance, ["stats"]) /\
  get_instance roles net
    (pool (exec PORT_RANGE_START PORT_RANGE_END acts
             (initial PORT_RANGE_START))) req "stats"
  = mkHttpResponse 404 (error_body "Instance not found").
Proof.
  split; [exact dispatch_never_stats|]. split; [reflexivity|].
  unfold get_instance.
  destruct (findInstanceById "stats" _) as [i|] eqn:Hfind; [|reflexivity].
  destruct (findInstanceById_registered _ _ i Hfind)
    as (Hid & user & ref & _ & Hs).
  destruct (instance_id_prefix acts ref i Hs) as (suffix & E).
  rewrite E in Hid. discriminate Hid.
Qed.

End RouterFacts.

(* ===================================================================== *)
(** ** routes/instances.js: restart                                       *)
(* ===================================================================== *)

Section RestartFacts.
Import Pool PoolManager Routes.
Variables PORT_RANGE_START PORT_RANGE_END : Z.

Lemma getOrCreateInstance_on_empty_slot user config script pm :
  instances pm !! user = None ->
  run PORT_RANGE_START PORT_RANGE_END (CallGetOrCreateInstance user config)
    script pm
  = run PORT_RANGE_START PORT_RANGE_END (CallCreateInstance user config)
      script pm.
Proof.
  intros Hl. unfold run, invoke, getOrCreateInstance. rewrite Hl. reflexivity.
Qed.

Lemma createInstance_returned user config script pm v :
  snd (run PORT_RANGE_START PORT_RANGE_END (CallCreateInstance user config)
         script pm) = Returned v ->
  exists a,
    building_step user pm a
      (fst (run PORT_RANGE_START PORT_RANGE_END
              (CallCreateInstance user config) script pm), Returned v).
Proof.
  unfold run, invoke, createInstance, allocatePort.
  pose proof (allocatePort_loop_building PORT_RANGE_START PORT_RANGE_END
                user config ATick
                (Z.to_nat (maxAttempts PORT_RANGE_START PORT_RANGE_END)) pm pm
                (conj eq_refl (conj eq_refl (conj eq_refl
                   (conj eq_refl eq_refl))))) as Hstart.
  destruct (allocatePort_loop _ _ _ _ pm) as [cur [t|v'|e]];
    unfold building_step in Hstart; cbn [fst snd] in Hstart; intros Hv.
  - destruct (drive_building PORT_RANGE_START PORT_RANGE_END user pm script
                cur t v Hstart Hv) as (a & w & _ & H).
    exists a. exact H.
  - destruct Hstart as (ref & p & i & net & _ & Hbad & _). discriminate.
  - destruct script; discriminate.
Qed.

Lemma getOrCreateInstance_threw_slot_empty user config script pm e :
  registry_valid pm ->
  snd (run PORT_RANGE_START PORT_RANGE_END
         (CallGetOrCreateInstance user config) script pm) = Threw e ->
  instances (fst (run PORT_RANGE_START PORT_RANGE_END
                    (CallGetOrCreateInstance user config) script pm)) !! user
  = None.
Proof.
  intros Hv He. unfold run in *.
  pose proof (invoke_creating PORT_RANGE_START PORT_RANGE_END user config pm
                (mkWorld 0 "" "" None "") Hv) as Hstep.
  destruct (invoke _ _ (CallGetOrCreateInstance user config) pm)
    as [cur [t|v|e']]; unfold creation_step in Hstep; simpl in Hstep.
  - destruct (drive_creating PORT_RANGE_START PORT_RANGE_END user pm script
                cur t e Hstep He) as ((H1 & _) & _). exact H1.
  - destruct script; discriminate.
  - destruct Hstep as [(H1 & _) _].
    destruct script; exact H1.
Qed.

Lemma destroyInstance_store_length user pm :
  length (store (fst (destroyInstance user pm))) = length (store pm).
Proof.
  unfold destroyInstance.
  destruct (instances pm !! user) as [ref|]; [|reflexivity].
  destruct (store pm !! ref) as [instance|]; [|reflexivity].
  cbn [fst]. destruct (process instance); simpl; apply length_alter.
Qed.


End RestartFacts.

Section RestartWitness.
Import Pool PoolManager Routes.


End RestartWitness.

(* ===================================================================== *)
(** ** Paths in normal form                                               *)
(* ===================================================================== *)

Section PathFacts.
Import Path.

Lemma append_cons c a b : String c a ++ b = String c (a ++ b).
Proof. reflexivity. Qed.

Lemma append_nil_r s : s ++ "" = s.
Proof.
  induction s as [|c s IH]; [reflexivity|]. rewrite append_cons, IH.
  reflexivity.
Qed.

Lemma append_assoc a b c : (a ++ b) ++ c = a ++ (b ++ c).
Proof.
  induction a as [|x a IH]; [reflexivity|].
  rewrite !append_cons, IH. reflexivity.
Qed.

Lemma lacks_append c a b : lacks c a -> lacks c b -> lacks c (a ++ b).
Proof.
  induction a as [|x a IH]; intros Ha Hb; [exact Hb|].
  rewrite append_cons. destruct Ha as [Hx Ha]. split; auto.
Qed.

Lemma split_on_lacks sep s : lacks sep s -> split_on sep s = [s].
Proof.
  induction s as [|c s IH]; intros H; [reflexivity|].
  destruct H as [Hc Hs]. simpl.
  apply Ascii.eqb_neq in Hc. rewrite Hc, (IH Hs). reflexivity.
Qed.

Lemma split_on_append sep a b :
  lacks sep a -> split_on sep (a ++ String sep b) = a :: split_on sep b.
Proof.
  induction a as [|c a IH]; intros H.
  - change ("" ++ String sep b) with (String sep b). simpl.
    rewrite Ascii.eqb_refl. reflexivity.
  - destruct H as [Hc Ha]. rewrite append_cons. simpl.
    apply Ascii.eqb_neq in Hc. rewrite Hc, (IH Ha). reflexivity.
Qed.

Lemma split_on_all_lack sep s : Forall (lacks sep) (split_on sep s).
Proof.
  induction s as [|c s IH]; simpl; [repeat constructor|].
  destruct (Ascii.eqb c sep) eqn:E; [constructor; [exact I | exact IH]|].
  apply Ascii.eqb_neq in E.
  destruct (split_on sep s) as [|seg segs].
  - repeat constructor. exact E.
  - inversion IH as [|? ? Hseg Hsegs]; subst.
    constructor; [split; assumption | exact Hsegs].
Qed.

Lemma join_cons sep s segs :
  segs <> [] -> join sep (s :: segs) = s ++ sep ++ join sep segs.
Proof. destruct segs; [congruence | reflexivity]. Qed.

Lemma join_app sep a b :
  a <> [] -> b <> [] ->
  join sep (a ++ b)%list = join sep a ++ sep ++ join sep b.
Proof.
  induction a as [|x a IH]; intros Ha Hb; [congruence|].
  destruct a as [|y a].
  - simpl app. rewrite join_cons by exact Hb. reflexivity.
  - change ((x :: y :: a) ++ b)%list with (x :: ((y :: a) ++ b))%list.
    rewrite join_cons by discriminate. rewrite IH by (discriminate || exact Hb).
    rewrite (join_cons sep x (y :: a)) by discriminate.
    rewrite !append_assoc. reflexivity.
Qed.

Lemma split_on_join segs :
  segs <> [] -> Forall (lacks slash) segs ->
  split_on slash (join "/" segs) = segs.
Proof.
  induction segs as [|s segs IH]; intros Hne Hall; [congruence|].
  inversion Hall as [|? ? Hs Hrest]; subst.
  destruct segs as [|t segs]; [apply split_on_lacks, Hs|].
  rewrite join_cons by discriminate.
  change ("/" ++ join "/" (t :: segs)) with (String slash (join "/" (t :: segs))).
  rewrite split_on_append by exact Hs. rewrite IH by (discriminate || exact Hrest).
  reflexivity.
Qed.

Lemma plain_segment_kept b kept seg rest :
  plain_segment seg ->
  normalize_segments b kept (seg :: rest)
  = normalize_segments b (seg :: kept) rest.
Proof.
  intros (H0 & H1 & H2 & _). simpl. unfold is_dot, is_dotdot.
  apply String.eqb_neq in H0, H1, H2. rewrite H0, H1, H2. reflexivity.
Qed.

Lemma normalize_segments_clean b segs : forall kept,
  Forall (fun s => s = "" \/ plain_segment s) segs ->
  normalize_segments b kept segs
  = (rev kept ++ List.filter (fun s => negb (String.eqb s "")) segs)%list.
Proof.
  induction segs as [|s segs IH]; intros kept Hall.
  - simpl. rewrite app_nil_r. reflexivity.
  - inversion Hall as [|? ? Hs Hrest]; subst. destruct Hs as [->|Hs].
    + simpl. apply IH, Hrest.
    + rewrite (plain_segment_kept b kept s segs Hs), (IH _ Hrest).
      destruct Hs as (H0 & _). apply String.eqb_neq in H0.
      simpl. rewrite H0. simpl. rewrite <- app_assoc. reflexivity.
Qed.

Lemma filter_plain segs :
  Forall plain_segment segs ->
  List.filter (fun s => negb (String.eqb s "")) segs = segs.
Proof.
  induction 1 as [|s segs Hs _ IH]; simpl; [reflexivity|].
  destruct Hs as (H0 & _). apply String.eqb_neq in H0. rewrite H0. simpl.
  rewrite IH. reflexivity.
Qed.

Lemma normalize_segments_output segs : forall kept,
  Forall plain_segment kept -> Forall (lacks slash) segs ->
  Forall plain_segment (normalize_segments false kept segs).
Proof.
  induction segs as [|s segs IH]; intros kept Hk Hall.
  - simpl. apply List.Forall_rev, Hk.
  - inversion Hall as [|? ? Hs Hrest]; subst. simpl.
    destruct (String.eqb s "") eqn:E0; simpl; [apply IH; assumption|].
    unfold is_dot, is_dotdot.
    destruct (String.eqb s ".") eqn:E1; [apply IH; assumption|].
    destruct (String.eqb s "..") eqn:E2.
    + destruct kept as [|top below]; [apply IH; [constructor | assumption]|].
      inversion Hk; subst.
      destruct (String.eqb top ".."); apply IH; assumption.
    + apply IH; [|assumption]. constructor; [|exact Hk].
      apply String.eqb_neq in E0, E1, E2. repeat split; assumption.
Qed.

(** What [path.resolve] returns when one of its arguments is absolute:
    an absolute path in normal form. *)
Lemma resolve_absolute cwd args :
  snd (resolve_scan (rev (cwd :: args)) "") = true ->
  exists segs, Forall plain_segment segs /\ resolve cwd args = absolute segs.
Proof.
  intros Habs. unfold resolve.
  destruct (resolve_scan (rev (cwd :: args)) "") as [resolvedPath b].
  simpl in Habs. subst b. simpl.
  exists (normalize_segments false [] (split_on slash resolvedPath)).
  split; [|reflexivity].
  apply normalize_segments_output; [constructor | apply split_on_all_lack].
Qed.

Lemma plain_lacks segs :
  Forall plain_segment segs -> Forall (lacks slash) segs.
Proof.
  intros H. eapply Forall_impl; [exact H|]. intros s (_ & _ & _ & Hs). exact Hs.
Qed.

Lemma plain_or_empty segs :
  Forall plain_segment segs ->
  Forall (fun s => s = "" \/ plain_segment s) ("" :: segs ++ [""])%list.
Proof.
  intros H. constructor; [left; reflexivity|].
  apply Forall_app. split.
  - eapply Forall_impl; [exact H|]. intros s Hs. right. exact Hs.
  - constructor; [left; reflexivity | constructor].
Qed.

Lemma split_on_leading sep s :
  split_on sep (String sep s) = "" :: split_on sep s.
Proof. simpl. rewrite Ascii.eqb_refl. reflexivity. Qed.

Lemma split_on_trailing segs :
  segs <> [] -> Forall (lacks slash) segs ->
  split_on slash (join "/" segs ++ "/") = (segs ++ [""])%list.
Proof.
  intros Hne H. destruct segs as [|s segs]; [congruence|].
  change (join "/" (s :: segs) ++ "/")
    with (join "/" (s :: segs) ++ "/" ++ join "/" [""]).
  rewrite <- join_app by discriminate.
  apply split_on_join; [destruct segs; discriminate|].
  apply Forall_app. split; [exact H | repeat constructor].
Qed.

Lemma normalize_plain_or_empty b segs :
  Forall plain_segment segs ->
  normalize_segments b [] ("" :: segs ++ [""])%list = segs.
Proof.
  intros H. rewrite normalize_segments_clean by (apply plain_or_empty, H).
  simpl. rewrite List.filter_app, (filter_plain segs H). simpl.
  apply app_nil_r.
Qed.

(** [normalizeString] leaves an absolute path in normal form alone, but
    for the leading and the trailing ['/']. *)
Lemma normalizeString_absolute_slash b segs :
  Forall plain_segment segs ->
  normalizeString (absolute segs ++ "/") b = join "/" segs.
Proof.
  intros H. unfold normalizeString, absolute.
  destruct segs as [|s segs]; [reflexivity|].
  change (("/" ++ join "/" (s :: segs)) ++ "/")
    with (String slash (join "/" (s :: segs) ++ "/")).
  rewrite split_on_leading.
  rewrite (split_on_trailing (s :: segs)) by (discriminate || apply plain_lacks, H).
  rewrite (normalize_plain_or_empty b (s :: segs) H). reflexivity.
Qed.

Lemma join_plain_nonempty segs :
  segs <> [] -> Forall plain_segment segs -> join "/" segs <> "".
Proof.
  intros Hne H. destruct segs as [|s segs]; [congruence|].
  inversion H as [|? ? (H0 & _) _]; subst.
  destruct s as [|c s]; [congruence|].
  destruct segs; simpl; discriminate.
Qed.

Lemma resolve_scan_absolute p rest acc :
  isAbsolute p = true ->
  resolve_scan (p :: rest) acc = (p ++ "/" ++ acc, true).
Proof.
  intros H. destruct p as [|c p]; [discriminate|].
  cbn [resolve_scan]. change (String.eqb (String c p) "") with false.
  cbv iota. rewrite H. reflexivity.
Qed.

Lemma resolve_scan_relative p rest acc :
  p <> "" -> isAbsolute p = false ->
  resolve_scan (p :: rest) acc = resolve_scan rest (p ++ "/" ++ acc).
Proof.
  intros Hne H. destruct p as [|c p]; [congruence|].
  cbn [resolve_scan]. change (String.eqb (String c p) "") with false.
  cbv iota. rewrite H. reflexivity.
Qed.

Lemma isAbsolute_absolute segs : isAbsolute (absolute segs) = true.
Proof. reflexivity. Qed.

Lemma resolve_of_absolute cwd segs :
  Forall plain_segment segs -> resolve cwd [absolute segs] = absolute segs.
Proof.
  intros H. unfold resolve.
  change (rev [cwd; absolute segs]) with [absolute segs; cwd].
  rewrite resolve_scan_absolute by apply isAbsolute_absolute.
  change (absolute segs ++ "/" ++ "") with (absolute segs ++ "/").
  rewrite (normalizeString_absolute_slash _ segs H). reflexivity.
Qed.

Lemma endsWithSlash_lacks s : lacks slash s -> endsWithSlash s = false.
Proof.
  induction s as [|c s IH]; intros H; [reflexivity|].
  destruct H as [Hc Hs]. simpl. destruct s as [|d s].
  - apply Ascii.eqb_neq, Hc.
  - apply IH, Hs.
Qed.

Lemma endsWithSlash_append a b :
  b <> "" -> endsWithSlash (a ++ b) = endsWithSlash b.
Proof.
  intros Hb. induction a as [|c a IH]; [reflexivity|].
  rewrite append_cons. simpl. rewrite IH.
  destruct (a ++ b) as [|d r] eqn:E; [|reflexivity].
  destruct a as [|x a]; [|rewrite append_cons in E; discriminate E].
  change ("" ++ b) with b in E. congruence.
Qed.

Lemma endsWithSlash_join segs : forall a,
  segs <> [] -> Forall plain_segment segs ->
  endsWithSlash (a ++ join "/" segs) = false.
Proof.
  induction segs as [|s segs IH]; intros a Hne H; [congruence|].
  inversion H as [|? ? Hs Hrest]; subst.
  destruct segs as [|t segs].
  - simpl join. destruct Hs as (H0 & _ & _ & Hl).
    rewrite endsWithSlash_append by exact H0. apply endsWithSlash_lacks, Hl.
  - rewrite join_cons by discriminate.
    rewrite <- !append_assoc. apply IH; [discriminate | exact Hrest].
Qed.

Lemma normalizeString_absolute b segs :
  Forall plain_segment segs ->
  normalizeString (absolute segs) b = join "/" segs.
Proof.
  intros H. unfold normalizeString, absolute.
  change ("/" ++ join "/" segs) with (String slash (join "/" segs)).
  rewrite split_on_leading.
  destruct segs as [|s segs]; [reflexivity|].
  rewrite split_on_join by (discriminate || apply plain_lacks, H).
  rewrite normalize_segments_clean.
  - change (rev [] ++ List.filter (fun x => negb (String.eqb x ""))
                        ("" :: s :: segs))%list
      with (List.filter (fun x => negb (String.eqb x "")) (s :: segs)).
    rewrite (filter_plain (s :: segs) H). reflexivity.
  - constructor; [left; reflexivity|].
    eapply Forall_impl; [exact H|]. intros x Hx. right. exact Hx.
Qed.

(** [path.normalize] leaves an absolute path in normal form alone. *)
Lemma normalize_absolute segs :
  segs <> [] -> Forall plain_segment segs ->
  normalize (absolute segs) = absolute segs.
Proof.
  intros Hne H. unfold normalize.
  change (String.eqb (absolute segs) "") with false. cbv iota.
  rewrite isAbsolute_absolute.
  rewrite (normalizeString_absolute _ segs H).
  pose proof (join_plain_nonempty segs Hne H) as Hj.
  apply String.eqb_neq in Hj. rewrite Hj.
  unfold absolute at 1.
  rewrite (endsWithSlash_join segs "/" Hne H). reflexivity.
Qed.

Lemma isAbsolute_join segs :
  segs <> [] -> Forall plain_segment segs ->
  isAbsolute (join "/" segs) = false.
Proof.
  intros Hne H. destruct segs as [|s segs]; [congruence|].
  inversion H as [|? ? (H0 & _ & _ & Hl) _]; subst.
  destruct s as [|c s]; [congruence|]. destruct Hl as [Hc _].
  apply Ascii.eqb_neq in Hc. destruct segs; simpl; exact Hc.
Qed.

(** [path.resolve(root, relative)] for a root in normal form and a
    relative path made of plain segments is the concatenation. *)
Lemma resolve_relative cwd root segs :
  root <> [] -> segs <> [] ->
  Forall plain_segment root -> Forall plain_segment segs ->
  resolve cwd [absolute root; join "/" segs] = absolute (root ++ segs).
Proof.
  intros Hr Hs Hroot Hsegs. unfold resolve.
  change (rev [cwd; absolute root; join "/" segs])
    with [join "/" segs; absolute root; cwd].
  rewrite resolve_scan_relative
    by (apply join_plain_nonempty || apply isAbsolute_join; assumption).
  rewrite resolve_scan_absolute by apply isAbsolute_absolute.
  assert (E : absolute root ++ "/" ++ join "/" segs ++ "/" ++ ""
              = absolute (root ++ segs) ++ "/").
  { unfold absolute. rewrite join_app by assumption.
    rewrite !append_assoc. reflexivity. }
  rewrite E, normalizeString_absolute_slash
    by (apply Forall_app; split; assumption).
  reflexivity.
Qed.

End PathFacts.

(* ===================================================================== *)
(** ** Tenant paths for user ids and file names that are plain segments   *)
(* ===================================================================== *)

Section TenantPathFacts.
Import Path Tenant.

(** The data directory, in normal form and not the root, and the working
    directory of the process. *)
Variable data_segments : list string.
Variable cwd : string.
Hypothesis data_dir_not_root : data_segments <> [].
Hypothesis data_dir_plain : Forall plain_segment data_segments.

Abbreviation DATA_DIR := (absolute data_segments).

Lemma users_plain : plain_segment "users".
Proof. repeat split; discriminate. Qed.

Lemma tenant_segments_plain userId :
  plain_segment userId ->
  Forall plain_segment (data_segments ++ ["users"; userId])%list.
Proof.
  intros Hu. apply Forall_app. split; [exact data_dir_plain|].
  constructor; [apply users_plain|]. constructor; [exact Hu | constructor].
Qed.

Lemma getUserDataPath_plain userId :
  plain_segment userId ->
  getUserDataPath DATA_DIR userId
  = absolute (data_segments ++ ["users"; userId]).
Proof.
  intros Hu. unfold getUserDataPath, join_paths.
  assert (Hf : List.filter (fun a => negb (String.eqb a ""))
                 [DATA_DIR; "users"; userId]
               = [DATA_DIR; "users"; userId]).
  { cbn [List.filter]. change (String.eqb DATA_DIR "") with false.
    change (String.eqb "users" "") with false.
    destruct Hu as (H0 & _). apply String.eqb_neq in H0. rewrite H0.
    reflexivity. }
  rewrite Hf. cbv iota. cbn [join].
  assert (E : DATA_DIR ++ "/" ++ "users" ++ "/" ++ userId
              = absolute (data_segments ++ ["users"; userId])).
  { unfold absolute. rewrite join_app by (assumption || discriminate).
    cbn [join]. rewrite !append_assoc. reflexivity. }
  rewrite E. apply normalize_absolute; [|apply tenant_segments_plain, Hu].
  destruct data_segments; discriminate.
Qed.

Lemma getUserDataPath_string userId :
  plain_segment userId ->
  getUserDataPath DATA_DIR userId = DATA_DIR ++ "/users/" ++ userId.
Proof.
  intros Hu. rewrite (getUserDataPath_plain userId Hu). unfold absolute.
  rewrite join_app by (assumption || discriminate). cbn [join].
  rewrite !append_assoc. reflexivity.
Qed.

End TenantPathFacts.

Section PrefixFacts.
Import Path.

Lemma startsWith_nil s : startsWith s "" = true.
Proof. destruct s; reflexivity. Qed.

Lemma startsWith_cons c s d p :
  startsWith (String c s) (String d p) = Ascii.eqb d c && startsWith s p.
Proof. reflexivity. Qed.

Lemma startsWith_before_separator c a b l :
  lacks c l -> startsWith (a ++ String c b) l = true ->
  startsWith a l = true.
Proof.
  revert l. induction a as [|x a IH]; intros [|y l] Hl H;
    try apply startsWith_nil.
  - change ("" ++ String c b) with (String c b) in H.
    rewrite startsWith_cons in H. apply andb_true_iff in H.
    destruct H as [H _]. apply Ascii.eqb_eq in H. destruct Hl as [Hy _].
    congruence.
  - rewrite append_cons, startsWith_cons in H. rewrite startsWith_cons.
    apply andb_true_iff in H. destruct H as [H1 H2].
    rewrite H1. destruct Hl as [_ Hl]. exact (IH l Hl H2).
Qed.

Lemma startsWith_across_separator c a r x :
  lacks c a -> startsWith a (r ++ String c x) = false.
Proof.
  revert r. induction a as [|y a IH]; intros [|z r] Ha.
  - reflexivity.
  - reflexivity.
  - change ("" ++ String c x) with (String c x). rewrite startsWith_cons.
    destruct Ha as [Hy _]. apply Ascii.eqb_neq in Hy.
    rewrite Ascii.eqb_sym, Hy. reflexivity.
  - rewrite append_cons, startsWith_cons. destruct Ha as [_ Ha].
    rewrite (IH r Ha). apply andb_false_r.
Qed.

Lemma startsWith_separator c a r s x :
  lacks c a -> lacks c r ->
  startsWith (a ++ String c s) (r ++ String c x) = true ->
  a = r /\ startsWith s x = true.
Proof.
  revert r. induction a as [|y a IH]; intros [|z r] Ha Hr H.
  - change (startsWith (String c s) (String c x) = true) in H.
    rewrite startsWith_cons in H. apply andb_true_iff in H. tauto.
  - change ("" ++ String c s) with (String c s) in H.
    rewrite append_cons, startsWith_cons in H. apply andb_true_iff in H.
    destruct H as [H _]. apply Ascii.eqb_eq in H. destruct Hr as [Hz _].
    congruence.
  - change ("" ++ String c x) with (String c x) in H.
    rewrite append_cons, startsWith_cons in H. apply andb_true_iff in H.
    destruct H as [H _]. apply Ascii.eqb_eq in H. destruct Ha as [Hy _].
    congruence.
  - rewrite !append_cons, startsWith_cons in H. apply andb_true_iff in H.
    destruct H as [H1 H2]. apply Ascii.eqb_eq in H1. subst z.
    destruct Ha as [_ Ha], Hr as [_ Hr].
    destruct (IH r Ha Hr H2) as [-> Hs]. auto.
Qed.

(** A path in normal form that has another as a string prefix agrees
    with it segment by segment, up to the last segment of the prefix,
    which it may extend. *)
Lemma startsWith_join init : forall segs last,
  Forall (lacks slash) init -> lacks slash last -> last <> "" ->
  Forall (lacks slash) segs ->
  startsWith (join "/" segs) (join "/" (init ++ [last])) = true ->
  exists name rest,
    segs = (init ++ name :: rest)%list /\ startsWith name last = true.
Proof.
  induction init as [|r init IH]; intros segs last Hinit Hlast Hne Hsegs H.
  - simpl in H. destruct segs as [|name rest].
    + destruct last; [congruence | discriminate H].
    + exists name, rest. split; [reflexivity|].
      destruct rest as [|t rest]; [exact H|].
      rewrite join_cons in H by discriminate.
      change ("/" ++ join "/" (t :: rest))
        with (String slash (join "/" (t :: rest))) in H.
      exact (startsWith_before_separator _ _ _ _ Hlast H).
  - inversion Hinit as [|? ? Hr Hinit']; subst.
    change ((r :: init) ++ [last])%list with (r :: (init ++ [last]))%list in H.
    rewrite join_cons in H by (destruct init; discriminate).
    change ("/" ++ join "/" (init ++ [last]))
      with (String slash (join "/" (init ++ [last]))) in H.
    destruct segs as [|name rest].
    + destruct r; discriminate H.
    + inversion Hsegs as [|? ? Hname Hrest]; subst.
      destruct rest as [|t rest].
      * simpl join in H.
        rewrite (startsWith_across_separator _ _ _ _ Hname) in H.
        discriminate H.
      * rewrite join_cons in H by discriminate.
        change ("/" ++ join "/" (t :: rest))
          with (String slash (join "/" (t :: rest))) in H.
        destruct (startsWith_separator _ _ _ _ _ Hname Hr H) as [-> H'].
        destruct (IH (t :: rest) last Hinit' Hlast Hne Hrest H')
          as (name & rest' & E & Hn).
        exists name, rest'. rewrite E. auto.
Qed.

Lemma startsWith_same_length s a b :
  startsWith s a = true -> startsWith s b = true ->
  String.length a = String.length b -> a = b.
Proof.
  revert s b. induction a as [|x a IH]; intros s [|y b] Ha Hb Hlen;
    try reflexivity; try discriminate Hlen.
  destruct s as [|c s]; [discriminate Ha|].
  rewrite startsWith_cons in Ha, Hb.
  apply andb_true_iff in Ha, Hb. destruct Ha as [Ex Ha], Hb as [Ey Hb].
  apply Ascii.eqb_eq in Ex, Ey. subst x y. f_equal.
  apply (IH s b Ha Hb). simpl in Hlen. lia.
Qed.

Lemma length_append a b :
  String.length (a ++ b) = (String.length a + String.length b)%nat.
Proof.
  induction a as [|c a IH]; [reflexivity|].
  rewrite append_cons. simpl. rewrite IH. reflexivity.
Qed.

End PrefixFacts.

Section TenantContainment.
Import Path Tenant.
Variable data_segments : list string.
Variable cwd : string.
Hypothesis data_dir_not_root : data_segments <> [].
Hypothesis data_dir_plain : Forall plain_segment data_segments.

Abbreviation DATA_DIR := (absolute data_segments).
Abbreviation root_of := (getUserDataPath DATA_DIR).

Lemma resolve_in_root_absolute root filePath :
  snd (resolve_scan (rev [cwd; absolute root; filePath]) "") = true.
Proof.
  change (rev [cwd; absolute root; filePath])
    with [filePath; absolute root; cwd].
  destruct filePath as [|c f].
  - change (resolve_scan [""; absolute root; cwd] "")
      with (resolve_scan [absolute root; cwd] "").
    rewrite resolve_scan_absolute by apply isAbsolute_absolute. reflexivity.
  - destruct (isAbsolute (String c f)) eqn:E.
    + rewrite resolve_scan_absolute by exact E. reflexivity.
    + rewrite resolve_scan_relative by (discriminate || exact E).
      rewrite resolve_scan_absolute by apply isAbsolute_absolute. reflexivity.
Qed.

Lemma getTenantPath_resolves userId segs :
  plain_segment userId -> segs <> [] -> Forall plain_segment segs ->
  absolute ((data_segments ++ ["users"; userId]) ++ segs)
  = root_of userId ++ "/" ++ join "/" segs /\
  getTenantPath DATA_DIR cwd userId (join "/" segs)
  = Ok (root_of userId ++ "/" ++ join "/" segs).
Proof.
  intros Hu Hne Hsegs.
  pose proof (tenant_segments_plain data_segments data_dir_plain userId Hu)
    as Hroot.
  assert (Hrne : (data_segments ++ ["users"; userId])%list <> [])
    by (destruct data_segments; discriminate).
  assert (E : absolute ((data_segments ++ ["users"; userId]) ++ segs)
              = root_of userId ++ "/" ++ join "/" segs).
  { rewrite (getUserDataPath_plain data_segments data_dir_not_root
               data_dir_plain userId Hu).
    unfold absolute. rewrite (join_app "/" _ segs) by assumption.
    rewrite !append_assoc. reflexivity. }
  split; [exact E|].
  assert (Hres : resolve cwd [root_of userId; join "/" segs]
                 = root_of userId ++ "/" ++ join "/" segs).
  { rewrite <- E.
    rewrite (getUserDataPath_plain data_segments data_dir_not_root
               data_dir_plain userId Hu).
    apply resolve_relative; assumption. }
  unfold getTenantPath. rewrite Hres, startsWith_append. reflexivity.
Qed.

(** X18. For a data directory in normal form, a user id that is a plain
    path segment and a relative path made of plain segments (no empty,
    ["."] or [".."] segment), [getTenantPath] returns the tenant root
    followed by ['/'] and the path; the result lies below the tenant root
    and [isPathInTenant] accepts it. *)
Theorem getTenantPath_plain_path (userId : string) (segs : list string) :
  plain_segment userId -> segs <> [] -> Forall plain_segment segs ->
  let tenantRoot := root_of userId in
  let resolved := tenantRoot ++ "/" ++ join "/" segs in
  getTenantPath DATA_DIR cwd userId (join "/" segs) = Ok resolved /\
  within tenantRoot resolved /\
  isPathInTenant DATA_DIR cwd userId resolved = true.
Proof.
  intros Hu Hne Hsegs tenantRoot resolved. subst tenantRoot resolved.
  destruct (getTenantPath_resolves userId segs Hu Hne Hsegs) as [E Hget].
  split; [exact Hget|]. split.
  - right. rewrite <- append_assoc. apply startsWith_append.
  - unfold isPathInTenant. rewrite <- E.
    rewrite resolve_of_absolute.
    + rewrite E. apply startsWith_append.
    + apply Forall_app. split; [|exact Hsegs].
      apply tenant_segments_plain; assumption.
Qed.

(** X19. For a data directory in normal form and a user id that is a
    plain path segment, whatever the file path is, a path returned by
    [getTenantPath] is an absolute path in normal form inside the
    [users] directory of the data directory, in a directory whose name
    begins with the user id: the tenant's own directory or a sibling
    whose name extends the id, and nothing else. *)
Theorem getTenantPath_confined (userId filePath resolved : string) :
  plain_segment userId ->
  getTenantPath DATA_DIR cwd userId filePath = Ok resolved ->
  exists name rest,
    resolved = absolute (data_segments ++ "users" :: name :: rest) /\
    startsWith name userId = true /\
    Forall plain_segment (name :: rest).
Proof.
  intros Hu H.
  pose proof (getTenantPath_prefix _ _ _ _ _ H) as Hprefix.
  unfold getTenantPath in H.
  destruct (startsWith _ _); simpl in H; [|discriminate].
  injection H as H.
  rewrite (getUserDataPath_plain data_segments data_dir_not_root
             data_dir_plain userId Hu) in H, Hprefix.
  destruct (resolve_absolute cwd
              [absolute (data_segments ++ ["users"; userId]); filePath]
              (resolve_in_root_absolute _ filePath))
    as (segs & Hsegs & E).
  rewrite E in H. subst resolved.
  change (startsWith (String slash (join "/" segs))
            (String slash (join "/" (data_segments ++ ["users"; userId])))
          = true) in Hprefix.
  rewrite startsWith_cons in Hprefix. apply andb_true_iff in Hprefix.
  destruct Hprefix as [_ Hprefix].
  replace (data_segments ++ ["users"; userId])%list
    with ((data_segments ++ ["users"]) ++ [userId])%list in Hprefix
    by (rewrite <- app_assoc; reflexivity).
  destruct Hu as (Hu0 & _ & _ & Hul).
  destruct (startsWith_join (data_segments ++ ["users"]) segs userId)
    as (name & rest & Eseg & Hname); try assumption.
  { apply Forall_app. split; [apply plain_lacks, data_dir_plain|].
    repeat constructor; discriminate. }
  { apply plain_lacks, Hsegs. }
  exists name, rest. subst segs.
  rewrite <- app_assoc in Hsegs |- *. simpl app in Hsegs |- *.
  split; [reflexivity|]. split; [exact Hname|].
  apply Forall_app in Hsegs. destruct Hsegs as [_ Hsegs].
  inversion Hsegs; subst. assumption.
Qed.

Lemma append_cancel a b c : a ++ b = a ++ c -> b = c.
Proof.
  induction a as [|x a IH]; intros H; [exact H|].
  rewrite !append_cons in H. injection H as H. exact (IH H).
Qed.

Lemma roots_differ u1 u2 resolved :
  plain_segment u1 -> plain_segment u2 ->
  String.length u1 = String.length u2 -> u1 <> u2 ->
  startsWith resolved (root_of u2) = true ->
  startsWith resolved (root_of u1) = false.
Proof.
  intros H1 H2 Hlen Hne Hp2.
  destruct (startsWith resolved (root_of u1)) eqn:Hp1; [|reflexivity].
  exfalso. apply Hne.
  rewrite (getUserDataPath_string data_segments data_dir_not_root
             data_dir_plain u1 H1) in Hp1.
  rewrite (getUserDataPath_string data_segments data_dir_not_root
             data_dir_plain u2 H2) in Hp2.
  pose proof (startsWith_same_length _ _ _ Hp1 Hp2) as E.
  rewrite !length_append, Hlen in E. specialize (E eq_refl).
  apply append_cancel in E. apply append_cancel in E. exact E.
Qed.

(** X20. For a data directory in normal form and two different user ids
    that are plain path segments of the same length (as the generated
    ids are), no path returned by [getTenantPath] for one tenant is
    accepted for the other: [isPathInTenant] rejects it and
    [getTenantPath] never returns it. *)
Theorem tenants_with_ids_of_equal_length_are_disjoint
    (u1 u2 filePath resolved : string) :
  plain_segment u1 -> plain_segment u2 ->
  String.length u1 = String.length u2 -> u1 <> u2 ->
  getTenantPath DATA_DIR cwd u2 filePath = Ok resolved ->
  isPathInTenant DATA_DIR cwd u1 resolved = false /\
  forall other, getTenantPath DATA_DIR cwd u1 other <> Ok resolved.
Proof.
  intros H1 H2 Hlen Hne H.
  pose proof (getTenantPath_prefix _ _ _ _ _ H) as Hp2.
  pose proof (roots_differ u1 u2 resolved H1 H2 Hlen Hne Hp2) as Hp1.
  split.
  - unfold isPathInTenant.
    assert (E : resolve cwd [resolved] = resolved).
    { unfold getTenantPath in H.
      destruct (startsWith _ _); simpl in H; [|discriminate].
      injection H as H.
      destruct (resolve_absolute cwd [root_of u2; filePath])
        as (segs & Hsegs & E).
      { rewrite (getUserDataPath_plain data_segments data_dir_not_root
                   data_dir_plain u2 H2).
        apply resolve_in_root_absolute. }
      rewrite E in H. subst resolved. apply resolve_of_absolute, Hsegs. }
    rewrite E. exact Hp1.
  - intros other H'. apply getTenantPath_prefix in H'. congruence.
Qed.

End TenantContainment.

Section TenantWitness.
Import Path Tenant.

Lemma openchamber_segments_plain :
  Forall plain_segment ["srv"; "openchamber"; "multiuser"].
Proof. repeat constructor; discriminate. Qed.

Lemma tenant_a_plain : plain_segment tenant_a.
Proof. repeat split; discriminate. Qed.

Lemma getTenantPath_plain_path_witness :
  getTenantPath data_dir "/srv/app" tenant_a "projects/notes.md"
  = Ok "/srv/openchamber/multiuser/users/user_a1b2c3d4e5f60718/projects/notes.md".
Proof.
  assert (Hne : ["srv"; "openchamber"; "multiuser"] <> []) by discriminate.
  assert (Hs : ["projects"; "notes.md"] <> []) by discriminate.
  assert (Hp : Forall plain_segment ["projects"; "notes.md"])
    by (repeat constructor; discriminate).
  exact (proj1 (getTenantPath_plain_path ["srv"; "openchamber"; "multiuser"]
                  "/srv/app" Hne openchamber_segments_plain tenant_a
                  ["projects"; "notes.md"] tenant_a_plain Hs Hp)).
Defined.

Lemma getTenantPath_confined_witness :
  exists name rest,
    "/srv/openchamber/multiuser/users/user_a1b2c3d4e5f60718-old/settings.json"
    = absolute (["srv"; "openchamber"; "multiuser"]
                ++ "users" :: name :: rest) /\
    startsWith name tenant_a = true /\
    Forall plain_segment (name :: rest).
Proof.
  assert (Hne : ["srv"; "openchamber"; "multiuser"] <> []) by discriminate.
  assert (H : getTenantPath data_dir "/srv/app" tenant_a
                "../user_a1b2c3d4e5f60718-old/settings.json"
              = Ok "/srv/openchamber/multiuser/users/user_a1b2c3d4e5f60718-old/settings.json")
    by (vm_compute; reflexivity).
  exact (getTenantPath_confined ["srv"; "openchamber"; "multiuser"]
           "/srv/app" Hne openchamber_segments_plain tenant_a _ _
           tenant_a_plain H).
Defined.

Lemma tenants_disjoint_witness :
  isPathInTenant data_dir "/srv/app" "user_00000000000000ff"
    "/srv/openchamber/multiuser/users/user_a1b2c3d4e5f60718/settings.json"
  = false /\
  forall other,
    getTenantPath data_dir "/srv/app" "user_00000000000000ff" other
    <> Ok "/srv/openchamber/multiuser/users/user_a1b2c3d4e5f60718/settings.json".
Proof.
  assert (Hne : ["srv"; "openchamber"; "multiuser"] <> []) by discriminate.
  assert (Hb : plain_segment "user_00000000000000ff")
    by (repeat split; discriminate).
  assert (Hlen : String.length "user_00000000000000ff"
                 = String.length tenant_a) by reflexivity.
  assert (Hdiff : "user_00000000000000ff" <> tenant_a) by discriminate.
  assert (H : getTenantPath data_dir "/srv/app" tenant_a "settings.json"
              = Ok "/srv/openchamber/multiuser/users/user_a1b2c3d4e5f60718/settings.json")
    by (vm_compute; reflexivity).
  exact (tenants_with_ids_of_equal_length_are_disjoint
           ["srv"; "openchamber"; "multiuser"] "/srv/app" Hne
           openchamber_segments_plain "user_00000000000000ff" tenant_a
           "settings.json" _ Hb tenant_a_plain Hlen Hdiff H).
Defined.

End TenantWitness.

Section TenantMiddleware.
Import Path Tenant.
Variable data_segments : list string.
Variable cwd : string.
Hypothesis data_dir_not_root : data_segments <> [].
Hypothesis data_dir_plain : Forall plain_segment data_segments.

Abbreviation DATA_DIR := (absolute data_segments).

Lemma filter_nonempty_plain first segs :
  Forall plain_segment segs ->
  List.filter (fun a => negb (String.eqb a "")) (absolute first :: segs)
  = absolute first :: segs.
Proof.
  intros H. cbn [List.filter].
  change (String.eqb (absolute first) "") with false. cbn [negb].
  rewrite (filter_plain segs H). reflexivity.
Qed.

(** [path.join] of a directory in normal form and plain segments. *)
Lemma join_paths_plain first segs :
  first <> [] -> segs <> [] ->
  Forall plain_segment first -> Forall plain_segment segs ->
  join_paths (absolute first :: segs) = absolute (first ++ segs).
Proof.
  intros Hf Hs Hfirst Hsegs. unfold join_paths.
  rewrite (filter_nonempty_plain first segs Hsegs). cbv iota.
  rewrite join_cons by exact Hs.
  assert (E : absolute first ++ "/" ++ join "/" segs
              = absolute (first ++ segs)).
  { unfold absolute. rewrite join_app by assumption.
    rewrite !append_assoc. reflexivity. }
  rewrite E. apply normalize_absolute.
  - destruct first; [congruence | discriminate].
  - apply Forall_app. split; assumption.
Qed.

Lemma absolute_snoc segs name :
  segs <> [] -> absolute (segs ++ [name]) = absolute segs ++ "/" ++ name.
Proof.
  intros H. unfold absolute. rewrite join_app by (assumption || discriminate).
  rewrite !append_assoc. reflexivity.
Qed.

(** X21. For a data directory in normal form and an authenticated user
    whose id is a plain path segment, [tenantIsolation] sets
    [req.tenant.paths] so that [root] is [<data dir>/users/<id>];
    [settings], [projects], [themes] and [opencode] are the paths that
    [getTenantPath] returns for ['settings.json'], ['projects.json'],
    ['themes'] and ['opencode'], directly below the root; and [temp] is
    [<data dir>/temp/<id>], which is outside the tenant root:
    [isPathInTenant] rejects it. *)
Theorem tenantIsolation_paths (userId : string) :
  plain_segment userId ->
  exists tenant,
    tenantIsolation DATA_DIR (Some userId) = Some tenant /\
    id tenant = userId /\ tenant_userId tenant = userId /\
    let p := paths tenant in
    root p = DATA_DIR ++ "/users/" ++ userId /\
    settings p = root p ++ "/settings.json" /\
    projects p = root p ++ "/projects.json" /\
    themes p = root p ++ "/themes" /\
    opencode p = root p ++ "/opencode" /\
    getTenantPath DATA_DIR cwd userId "settings.json" = Ok (settings p) /\
    getTenantPath DATA_DIR cwd userId "projects.json" = Ok (projects p) /\
    getTenantPath DATA_DIR cwd userId "themes" = Ok (themes p) /\
    getTenantPath DATA_DIR cwd userId "opencode" = Ok (opencode p) /\
    temp p = DATA_DIR ++ "/temp/" ++ userId /\
    isPathInTenant DATA_DIR cwd userId (temp p) = false.
Proof.
  intros Hu. eexists. split; [reflexivity|]. cbn [id tenant_userId paths].
  split; [reflexivity|]. split; [reflexivity|].
  cbn zeta. cbn [root settings projects themes opencode temp].
  pose proof (getUserDataPath_plain data_segments data_dir_not_root
                data_dir_plain userId Hu) as Eroot.
  pose proof (getUserDataPath_string data_segments data_dir_not_root
                data_dir_plain userId Hu) as Estr.
  pose proof (tenant_segments_plain data_segments data_dir_plain userId Hu)
    as Hroot.
  assert (Hrne : (data_segments ++ ["users"; userId])%list <> [])
    by (destruct data_segments; discriminate).
  assert (Hbelow : forall name, plain_segment name ->
            join_paths [getUserDataPath DATA_DIR userId; name]
            = getUserDataPath DATA_DIR userId ++ "/" ++ name /\
            getTenantPath DATA_DIR cwd userId name
            = Ok (getUserDataPath DATA_DIR userId ++ "/" ++ name)).
  { intros name Hname. split.
    - rewrite Eroot.
      rewrite (join_paths_plain _ [name]) by
        (assumption || discriminate || (constructor; [exact Hname | constructor])).
      apply absolute_snoc, Hrne.
    - exact (proj2 (getTenantPath_resolves data_segments cwd
                      data_dir_not_root data_dir_plain userId [name] Hu
                      ltac:(discriminate)
                      ltac:(constructor; [exact Hname | constructor]))). }
  assert (P1 : plain_segment "settings.json") by (repeat split; discriminate).
  assert (P2 : plain_segment "projects.json") by (repeat split; discriminate).
  assert (P3 : plain_segment "themes") by (repeat split; discriminate).
  assert (P4 : plain_segment "opencode") by (repeat split; discriminate).
  destruct (Hbelow _ P1) as [J1 G1]. destruct (Hbelow _ P2) as [J2 G2].
  destruct (Hbelow _ P3) as [J3 G3]. destruct (Hbelow _ P4) as [J4 G4].
  rewrite J1, J2, J3, J4.
  split; [exact Estr|]. do 4 (split; [reflexivity|]).
  split; [exact G1|]. split; [exact G2|]. split; [exact G3|].
  split; [exact G4|].
  assert (Htemp : join_paths [DATA_DIR; "temp"; userId]
                  = absolute (data_segments ++ ["temp"; userId])).
  { apply join_paths_plain; try assumption; [discriminate|].
    constructor; [repeat split; discriminate|].
    constructor; [exact Hu | constructor]. }
  rewrite Htemp. split.
  - unfold absolute. rewrite join_app by (assumption || discriminate).
    cbn [join]. rewrite !append_assoc. reflexivity.
  - unfold isPathInTenant. rewrite Eroot.
    assert (Hplain : Forall plain_segment (data_segments ++ ["temp"; userId])).
    { apply Forall_app. split; [exact data_dir_plain|].
      constructor; [repeat split; discriminate|].
      constructor; [exact Hu | constructor]. }
    rewrite resolve_of_absolute by exact Hplain.
    destruct (startsWith _ _) eqn:E; [|reflexivity]. exfalso.
    change (startsWith (String slash (join "/" (data_segments ++ ["temp"; userId])))
              (String slash (join "/" (data_segments ++ ["users"; userId])))
            = true) in E.
    rewrite startsWith_cons in E. apply andb_true_iff in E.
    destruct E as [_ E].
    replace (data_segments ++ ["users"; userId])%list
      with ((data_segments ++ ["users"]) ++ [userId])%list in E
      by (rewrite <- app_assoc; reflexivity).
    destruct Hu as (Hu0 & _ & _ & Hul).
    destruct (startsWith_join (data_segments ++ ["users"])
                (data_segments ++ ["temp"; userId]) userId)
      as (name & rest & Eseg & _); try assumption.
    { apply Forall_app. split; [apply plain_lacks, data_dir_plain|].
      repeat constructor; discriminate. }
    { apply plain_lacks, Hplain. }
    rewrite <- app_assoc in Eseg. apply app_inv_head in Eseg.
    discriminate Eseg.
Qed.

End TenantMiddleware.

Section TenantMiddlewareWitness.
Import Path Tenant.

Lemma tenantIsolation_paths_witness :
  exists tenant,
    tenantIsolation data_dir (Some tenant_a) = Some tenant /\
    id tenant = tenant_a /\ tenant_userId tenant = tenant_a /\
    let p := paths tenant in
    root p = data_dir ++ "/users/" ++ tenant_a /\
    settings p = root p ++ "/settings.json" /\
    projects p = root p ++ "/projects.json" /\
    themes p = root p ++ "/themes" /\
    opencode p = root p ++ "/opencode" /\
    getTenantPath data_dir "/srv/app" tenant_a "settings.json"
      = Ok (settings p) /\
    getTenantPath data_dir "/srv/app" tenant_a "projects.json"
      = Ok (projects p) /\
    getTenantPath data_dir "/srv/app" tenant_a "themes" = Ok (themes p) /\
    getTenantPath data_dir "/srv/app" tenant_a "opencode"
      = Ok (opencode p) /\
    temp p = data_dir ++ "/temp/" ++ tenant_a /\
    isPathInTenant data_dir "/srv/app" tenant_a (temp p) = false.
Proof.
  assert (Hne : ["srv"; "openchamber"; "multiuser"] <> []) by discriminate.
  exact (tenantIsolation_paths ["srv"; "openchamber"; "multiuser"] "/srv/app"
           Hne openchamber_segments_plain tenant_a tenant_a_plain).
Defined.

End TenantMiddlewareWitness.

(* ===================================================================== *)
(** ** lib/opencode/pool.js: event handlers                               *)
(* ===================================================================== *)

Section EventFacts.
Import Events.
Context {S D : Type}.

Lemma forEach_all_called (hs : list (handler S D)) data : forall s logged,
  fst (forEach S D hs data s logged) = all_called hs data s.
Proof.
  induction hs as [|h hs IH]; intros s logged; [reflexivity|].
  simpl. unfold all_called. simpl.
  destruct (h data s) as [s' [err|]]; apply IH.
Qed.

Lemma entry_push (handlers : EventHandlers S D) event h hs :
  known_event event -> entry S D handlers event = Handlers S D hs ->
  entry S D (push S D handlers event h) event = Handlers S D (hs ++ [h]) /\
  forall other, other <> event ->
    entry S D (push S D handlers event h) other = entry S D handlers other.
Proof.
  intros [->|[->| ->]] H; unfold entry, push in *; simpl in *;
    injection H as <-; (split; [reflexivity|]); intros other Hne;
    apply String.eqb_neq in Hne; rewrite ?Hne;
    repeat (destruct (String.eqb other _) eqn:?; try reflexivity);
    try congruence.
Qed.

(** X22. For each of the three events of the pool manager, [emit] never
    throws and calls every registered handler once, in the order of
    registration, each on the state the previous one left, whether or
    not handlers throw: a faulty listener stops neither the others nor
    the pool manager.  [on] appends: the new handler is called last and
    the handlers of the other events are as they were.  An event name
    that is neither one of the three nor inherited from
    [Object.prototype] is ignored by [on] and by [emit]. *)
Theorem emit_isolates_listeners (handlers : EventHandlers S D)
    (event : string) (data : D) (s : S) :
  known_event event ->
  exists hs,
    entry S D handlers event = Handlers S D hs /\
    (exists logged,
       emit S D handlers event data s = Ok (all_called hs data s, logged)) /\
    (forall h, exists handlers' logged,
       on S D handlers event h = Ok handlers' /\
       entry S D handlers' event = Handlers S D (hs ++ [h]) /\
       (forall other, other <> event ->
          entry S D handlers' other = entry S D handlers other) /\
       emit S D handlers' event data s
       = Ok (fst (h data (all_called hs data s)), logged)) /\
    (forall other h,
       entry S D handlers other = Undefined S D ->
       on S D handlers other h = Ok handlers /\
       emit S D handlers other data s = Ok (s, [])).
Proof.
  intros Hknown.
  assert (Hentry : exists hs, entry S D handlers event = Handlers S D hs).
  { destruct Hknown as [->|[->| ->]]; eexists; reflexivity. }
  destruct Hentry as [hs Hentry]. exists hs. split; [exact Hentry|].
  split; [|split].
  - exists (snd (forEach S D hs data s [])). unfold emit. rewrite Hentry.
    rewrite <- (forEach_all_called hs data s []).
    destruct (forEach S D hs data s []); reflexivity.
  - intros h.
    destruct (entry_push handlers event h hs Hknown Hentry) as [Hpush Hother].
    exists (push S D handlers event h),
      (snd (forEach S D (hs ++ [h]) data s [])).
    unfold on, emit. rewrite Hentry, Hpush.
    split; [reflexivity|]. split; [reflexivity|]. split; [exact Hother|].
    assert (E : fst (forEach S D (hs ++ [h]) data s [])
                = fst (h data (all_called hs data s))).
    { rewrite forEach_all_called. unfold all_called.
      rewrite fold_left_app. reflexivity. }
    rewrite <- E. destruct (forEach S D (hs ++ [h]) data s []); reflexivity.
  - intros other h Hundef. unfold on, emit. rewrite Hundef. auto.
Qed.

End EventFacts.

Section EventWitness.
Import Events.

Lemma emit_isolates_listeners_witness :
  let faulty : handler nat string :=
    fun _ n => (n + 1, Some (JsError "listener failed"))%nat in
  let counting : handler nat string := fun _ n => (n + 10, None)%nat in
  let handlers := mkEventHandlers nat string [faulty; counting] [] [] in
  known_event "onInstanceCreated" /\
  emit nat string handlers "onInstanceCreated" "instance_5f1c0a7e" 0%nat
  = Ok (11%nat, [JsError "listener failed"]) /\
  exists hs,
    entry nat string handlers "onInstanceCreated" = Handlers nat string hs /\
    (exists logged,
       emit nat string handlers "onInstanceCreated" "instance_5f1c0a7e" 0%nat
       = Ok (all_called hs "instance_5f1c0a7e" 0%nat, logged)) /\
    (forall h, exists handlers' logged,
       on nat string handlers "onInstanceCreated" h = Ok handlers' /\
       entry nat string handlers' "onInstanceCreated"
       = Handlers nat string (hs ++ [h]) /\
       (forall other, other <> "onInstanceCreated" ->
          entry nat string handlers' other = entry nat string handlers other) /\
       emit nat string handlers' "onInstanceCreated" "instance_5f1c0a7e" 0%nat
       = Ok (fst (h "instance_5f1c0a7e"
                    (all_called hs "instance_5f1c0a7e" 0%nat)), logged)) /\
    (forall other h,
       entry nat string handlers other = Undefined nat string ->
       on nat string handlers other h = Ok handlers /\
       emit nat string handlers other "instance_5f1c0a7e" 0%nat = Ok (0%nat, [])).
Proof.
  assert (H : known_event "onInstanceCreated") by (left; reflexivity).
  split; [exact H|]. split; [reflexivity|].
  exact (emit_isolates_listeners _ "onInstanceCreated" "instance_5f1c0a7e"
           0%nat H).
Defined.

End EventWitness.

(* ===================================================================== *)
(** ** routes/instances.js: create                                        *)
(* ===================================================================== *)

Section CreateRouteFacts.
Import Pool PoolManager Routes.
Variables PORT_RANGE_START PORT_RANGE_END : Z.

Lemma getOrCreateInstance_threw_others user config script pm e :
  registry_valid pm ->
  snd (run PORT_RANGE_START PORT_RANGE_END
         (CallGetOrCreateInstance user config) script pm) = Threw e ->
  forall u, u <> user ->
    instances (fst (run PORT_RANGE_START PORT_RANGE_END
                      (CallGetOrCreateInstance user config) script pm)) !! u
    = instances pm !! u.
Proof.
  intros Hv He. unfold run in *.
  pose proof (invoke_creating PORT_RANGE_START PORT_RANGE_END user config pm
                (mkWorld 0 "" "" None "") Hv) as Hstep.
  destruct (invoke _ _ (CallGetOrCreateInstance user config) pm)
    as [cur [t|v|e']]; unfold creation_step in Hstep; simpl in Hstep.
  - destruct (drive_creating PORT_RANGE_START PORT_RANGE_END user pm script
                cur t e Hstep He) as ((_ & H2 & _) & _). exact H2.
  - destruct script; discriminate.
  - destruct Hstep as [(_ & H2 & _) _].
    destruct script; exact H2.
Qed.

(** X23. At every point of every execution, [POST /api/instances] (the
    handler run on its own, for a requester who passes the
    ['instance:write'] check and whose account exists) answers 200 with
    the instance registered for the requester when there is one, without
    checking its health and without touching the pool manager.  When
    there is none it answers 201 only with a newly built instance,
    registered for the requester and running; when it answers 500 the
    slot of the requester is still empty; either way the slots of the
    other tenants are as they were. *)
Theorem create_instance_outcome (acts : list action)
    (roles : result (gmap string Rbac.Role)) (account body_config : jsval)
    (script : list (answer * World)) (req : Request) :
  let pm := pool (exec PORT_RANGE_START PORT_RANGE_END acts
                    (initial PORT_RANGE_START)) in
  let requester := Rbac.user_id (user req) in
  let res := create_instance PORT_RANGE_START PORT_RANGE_END roles account
               body_config script pm req in
  requirePermission Rbac.INSTANCE_WRITE roles req = Some Rbac.Next ->
  truthy account = true ->
  match getInstance requester pm with
  | Some existing =>
      res = (pm, Some (mkHttpResponse 200
                         (JObj [("success", JBool true);
                                ("instance", sanitizeInstance existing);
                                ("message", JStr "Instance already exists")])))
  | None =>
      match snd res with
      | Some response =>
          (forall u, u <> requester ->
             instances (fst res) !! u = instances pm !! u) /\
          ((statusCode response = 201 /\
            exists instance,
              instances (fst res) !! requester = Some (length (store pm)) /\
              store (fst res) !! length (store pm) = Some instance /\
              userId instance = requester /\ status instance = Running /\
              body response = JObj [("success", JBool true);
                                    ("instance", sanitizeInstance instance)]) \/
           (statusCode response = 500 /\
            instances (fst res) !! requester = None))
      | None => True
      end
  end.
Proof.
  intros pm requester res Hperm Haccount. subst res requester.
  destruct (exec_keyed PORT_RANGE_START PORT_RANGE_END acts _
              (initial_keyed PORT_RANGE_START)) as [Hkey _].
  fold pm in Hkey.
  assert (Hvalid : registry_valid pm).
  { intros u r Hu. destruct (Hkey u r Hu) as (k & Hk & _). eauto. }
  unfold create_instance. rewrite Hperm, Haccount. cbn [negb].
  destruct (getInstance (Rbac.user_id (user req)) pm) as [existing|] eqn:Hget;
    [reflexivity|].
  assert (Hempty : instances pm !! Rbac.user_id (user req) = None).
  { unfold getInstance in Hget.
    destruct (instances pm !! Rbac.user_id (user req)) as [r|] eqn:Hl;
      [|reflexivity].
    destruct (Hvalid _ r Hl) as [k Hk]. simpl in Hget. rewrite Hk in Hget.
    discriminate Hget. }
  set (config := spread [("maxMemoryMB", maxMemoryMB_of account)]
                   (own_props body_config)).
  pose proof (getOrCreateInstance_threw_slot_empty PORT_RANGE_START
                PORT_RANGE_END (Rbac.user_id (user req)) config script pm)
    as Hthrew.
  pose proof (getOrCreateInstance_threw_others (Rbac.user_id (user req))
                config script pm) as Hothers.
  pose proof (createInstance_returned PORT_RANGE_START PORT_RANGE_END
                (Rbac.user_id (user req)) config script pm) as Hret.
  rewrite <- (getOrCreateInstance_on_empty_slot _ _ _ _ _ _ Hempty) in Hret.
  destruct (run _ _ (CallGetOrCreateInstance _ _) script pm)
    as [pm2 [t|[ref| | |]|e]]; cbn [fst snd] in *; try exact I.
  - destruct (Hret _ eq_refl)
      as (a & ref' & p & i & net & [= <-] & _ & Hi & _ & Hbuilt & Hreg & _).
    cbn [fst snd] in *.
    destruct Hbuilt as (-> & (i' & Hst & Hown & _ & _ & Hrunning) & _).
    rewrite Hi. cbn [fst snd].
    assert (i' = i) as ->.
    { rewrite Hst, lookup_app_r in Hi by lia. rewrite Nat.sub_diag in Hi.
      simpl in Hi. congruence. }
    split.
    + intros u Hu. rewrite Hreg. apply lookup_insert_ne. congruence.
    + left. split; [reflexivity|]. exists i.
      repeat split; try assumption. rewrite Hreg. apply lookup_insert_eq.
  - split; [exact (Hothers e Hvalid eq_refl)|].
    right. split; [reflexivity|]. exact (Hthrew e Hvalid eq_refl).
Qed.

End CreateRouteFacts.

Section CreateRouteWitness.
Import Pool PoolManager Routes.

Lemma create_instance_outcome_witness :
  let pm := pool (exec 9000 10000 one_tenant (initial 9000)) in
  let req := mkRequest (Rbac.mkUser "bob" (Some "admin")) None in
  let account := JObj [("id", JStr "bob")] in
  let res := create_instance 9000 10000 (Ok ∅) account JUndefined
               [(APort true, world_b); (AHealth healthy_answer, world_b)]
               pm req in
  requirePermission Rbac.INSTANCE_WRITE (Ok ∅) req = Some Rbac.Next /\
  truthy account = true /\
  match getInstance "bob" pm with
  | Some existing =>
      res = (pm, Some (mkHttpResponse 200
                         (JObj [("success", JBool true);
                                ("instance", sanitizeInstance existing);
                                ("message", JStr "Instance already exists")])))
  | None =>
      match snd res with
      | Some response =>
          (forall u, u <> "bob" ->
             instances (fst res) !! u = instances pm !! u) /\
          ((statusCode response = 201 /\
            exists instance,
              instances (fst res) !! "bob" = Some (length (store pm)) /\
              store (fst res) !! length (store pm) = Some instance /\
              userId instance = "bob" /\ status instance = Running /\
              body response = JObj [("success", JBool true);
                                    ("instance", sanitizeInstance instance)]) \/
           (statusCode response = 500 /\
            instances (fst res) !! "bob" = None))
      | None => True
      end
  end.
Proof.
  assert (Hperm : requirePermission Rbac.INSTANCE_WRITE (Ok ∅)
                    (mkRequest (Rbac.mkUser "bob" (Some "admin")) None)
                  = Some Rbac.Next) by reflexivity.
  assert (Hacc : truthy (JObj [("id", JStr "bob")]) = true) by reflexivity.
  split; [exact Hperm|]. split; [exact Hacc|].
  exact (create_instance_outcome 9000 10000 one_tenant (Ok ∅)
           (JObj [("id", JStr "bob")]) JUndefined
           [(APort true, world_b); (AHealth healthy_answer, world_b)]
           (mkRequest (Rbac.mkUser "bob" (Some "admin")) None) Hperm Hacc).
Defined.

End CreateRouteWitness.

(* ===================================================================== *)
(** ** A creation that fails                                              *)
(* ===================================================================== *)

Section FailureFacts.
Import Pool PoolManager.
Variables PORT_RANGE_START PORT_RANGE_END : Z.

Lemma release_leased (p : Z) (used : gset Z) :
  p ∉ used -> ({[p]} ∪ used) ∖ {[p]} = used.
Proof. intros H. set_solver. Qed.

Lemma allocatePort_loop_failing user config w n pm cur :
  same_pool pm cur ->
  failing_step user pm w
    (allocatePort_loop PORT_RANGE_START PORT_RANGE_END
       (FromCreateInstance user config) n cur).
Proof.
  intros (Hi & Hs & Hu & Hp & He). unfold allocatePort_loop, failing_step.
  pose proof (allocatePort_scan_fields PORT_RANGE_START PORT_RANGE_END n cur)
    as (Ei & Es & Eu & Ep & Ee).
  pose proof (allocatePort_scan_fresh PORT_RANGE_START PORT_RANGE_END n cur)
    as Hfresh.
  assert (Hsame : same_pool pm
            (fst (allocatePort_scan PORT_RANGE_START PORT_RANGE_END n cur))).
  { unfold same_pool. rewrite Ei, Es, Eu, Ep, Ee. auto. }
  destruct (allocatePort_scan _ _ n cur) as [cur' [[port m]|]]; simpl in *.
  - split; [reflexivity|]. split; [exact Hsame|].
    rewrite <- Hu. apply (Hfresh port m). reflexivity.
  - left. split; [reflexivity | exact Hsame].
Qed.

Lemma createInstance_spawn_failing w user config p pm cur :
  instances cur = instances pm -> store cur = store pm ->
  procs cur = procs pm -> emitted cur = emitted pm ->
  p ∉ usedPorts pm -> usedPorts cur = {[p]} ∪ usedPorts pm ->
  failing_step user pm w (createInstance_spawn w user config p cur).
Proof.
  intros Hi Hs Hp He Hfresh Hu.
  pose proof (createInstance_spawn_building w user config ATick p pm cur
                Hi Hs Hp He Hfresh Hu) as Hb.
  unfold building_step, failing_step in *.
  unfold createInstance_spawn, createInstance_failed, waitForHealthy,
    spawnOpenCode in *.
  destruct (w_spawn w) as [e|] eqn:Hw; cbn [fst snd] in *; [|exact Hb].
  right. left. simpl. rewrite Hu, Hp, Hi.
  split; [exact Hw|]. split; [reflexivity|].
  split; [apply release_leased, Hfresh | reflexivity].
Qed.

Lemma waitForHealthy_timeout user pm cur ref p :
  instances cur = instances pm -> built user pm cur ref p Starting ->
  abandoned user pm
    (fst (createInstance_failed ref p
            (JsError "Instance failed to become healthy within timeout") cur))
    p.
Proof.
  intros Hi (Href & Hobj & Hprocs & Hfresh & Hused).
  unfold createInstance_failed, abandoned. simpl. rewrite Hused.
  rewrite (release_leased p _ Hfresh). rewrite Href in Hprocs.
  split; [exact Hobj|]. split; [exact Hprocs|]. auto.
Qed.

Lemma resume_failing user pm w a t cur :
  building user pm t cur ->
  failing_step user pm w (resume PORT_RANGE_START PORT_RANGE_END w a t cur).
Proof.
  intros Hb.
  pose proof (resume_building PORT_RANGE_START PORT_RANGE_END user pm w a t
                cur Hb) as Hstep.
  destruct t as [u config ref|u config|k n port|u ref port st
                |u ref port st|u ref now]; try contradiction.
  - destruct k as [u config|]; [|contradiction].
    destruct a as [avail|net|]; try exact Hb.
    destruct Hb as (-> & Hsame & Hfresh).
    unfold resume, allocatePort_probed. destruct avail.
    + destruct Hsame as (Hi & Hs & Hu & Hp & He).
      apply createInstance_spawn_failing; simpl; auto.
      rewrite Hu. reflexivity.
    + apply allocatePort_loop_failing, Hsame.
  - destruct a as [avail|net|]; try exact Hb.
    unfold building_step, failing_step in *.
    destruct (resume _ _ w (AHealth net) (WaitForHealthy_check u ref port st)
                cur) as [cur' [t'|v|e]] eqn:E; cbn [fst snd] in *;
      try exact Hstep; try exact I.
    unfold resume, waitForHealthy_checked, createInstance_register in E.
    destruct (isHealthy _ net); discriminate E.
  - destruct a as [avail|net|]; try exact Hb.
    destruct Hb as (-> & Hi & He & Hbuilt).
    unfold resume, waitForHealthy_woke.
    destruct (_ <? _); [exact (conj eq_refl (conj Hi (conj He Hbuilt)))|].
    unfold failing_step. cbn [snd]. right. right.
    split; [reflexivity|]. exists port.
    apply (waitForHealthy_timeout user pm cur ref port Hi Hbuilt).
Qed.

Lemma drive_failing user pm script : forall cur t e,
  building user pm t cur ->
  snd (drive PORT_RANGE_START PORT_RANGE_END script cur (Suspended t))
    = Threw e ->
  exists a w, (a, w) ∈ script /\
    creation_failure user pm w e
      (fst (drive PORT_RANGE_START PORT_RANGE_END script cur (Suspended t))).
Proof.
  induction script as [|[a w] rest IH]; intros cur t e Hb He;
    [discriminate|].
  simpl in *.
  pose proof (resume_failing user pm w a t cur Hb) as Hstep.
  destruct (resume _ _ w a t cur) as [cur' [t'|v'|e']];
    unfold failing_step in Hstep; cbn [fst snd] in Hstep.
  - destruct (IH cur' t' e Hstep He) as (a' & w' & Hin & H).
    exists a', w'. split; [apply elem_of_cons; right; exact Hin | exact H].
  - destruct rest; discriminate.
  - assert (e' = e) as -> by (destruct rest; simpl in He; congruence).
    exists a, w. split; [apply elem_of_cons; left; reflexivity|].
    destruct rest; exact Hstep.
Qed.

Lemma creation_failure_frame user pm w e cur :
  creation_failure user pm w e cur ->
  instances cur = instances pm /\ usedPorts cur = usedPorts pm.
Proof.
  intros [(_ & Hi & _ & Hu & _)|[(_ & _ & Hu & Hi)|(_ & p & _ & _ & _ & Hu & Hi)]];
    auto.
Qed.

(** X24. When [createInstance(user, config)], run on its own, throws,
    the registry and the lease set are exactly as they were before the
    call, and the failure is one of three: no port could be leased, and
    no object or process was created; [spawn] threw, and there is no new
    process; or the instance did not become healthy in time, and then
    the child process that was spawned is left behind: it has been sent
    no signal, its instance object stays ['starting'], and the port it
    was started on is free to be leased again. *)
Theorem createInstance_failure_modes (user : string)
    (config : list (string * jsval)) (script : list (answer * World))
    (pm : PoolManager) (e : exn) :
  let res := run PORT_RANGE_START PORT_RANGE_END
               (CallCreateInstance user config) script pm in
  snd res = Threw e ->
  instances (fst res) = instances pm /\ usedPorts (fst res) = usedPorts pm /\
  ((e = JsError "No available ports in range" /\
    store (fst res) = store pm /\ procs (fst res) = procs pm) \/
   ((exists a w, (a, w) ∈ script /\ w_spawn w = Some e) /\
    procs (fst res) = procs pm) \/
   (e = JsError "Instance failed to become healthy within timeout" /\
    exists p i,
      store (fst res) = (store pm ++ [i])%list /\
      userId i = user /\ port i = p /\ status i = Starting /\
      process i = Some (length (procs pm)) /\
      procs (fst res)
        = (procs pm ++ [mkProc (length (store pm)) user p []])%list /\
      p ∉ usedPorts (fst res))).
Proof.
  intros res He. subst res.
  assert (H : exists w,
            creation_failure user pm w e
              (fst (run PORT_RANGE_START PORT_RANGE_END
                      (CallCreateInstance user config) script pm)) /\
            (w_spawn w = Some e -> exists a, (a, w) ∈ script)).
  { unfold run, invoke, createInstance, allocatePort in *.
    pose proof (allocatePort_loop_failing user config
                  (mkWorld 0 "" "" None "")
                  (Z.to_nat (maxAttempts PORT_RANGE_START PORT_RANGE_END))
                  pm pm (conj eq_refl (conj eq_refl (conj eq_refl
                           (conj eq_refl eq_refl))))) as Hstart.
    destruct (allocatePort_loop _ _ _ _ pm) as [cur [t|v'|e']];
      unfold failing_step in Hstart; cbn [fst snd] in Hstart.
    - destruct (drive_failing user pm script cur t e Hstart He)
        as (a & w & Hin & H).
      exists w. split; [exact H|]. intros _. exists a. exact Hin.
    - destruct script; discriminate.
    - assert (e' = e) as -> by (destruct script; simpl in He; congruence).
      exists (mkWorld 0 "" "" None ""). split.
      + destruct script; exact Hstart.
      + discriminate. }
  destruct H as (w & Hfail & Hspawn).
  destruct (creation_failure_frame _ _ _ _ _ Hfail) as [Hi Hu].
  split; [exact Hi|]. split; [exact Hu|].
  destruct Hfail as [(-> & _ & Hs & _ & Hp & _)
                    |[(Hw & Hp & _)|(-> & p & (i & Hobj) & Hprocs & Hfree & _)]].
  - left. auto.
  - right. left. split; [|exact Hp].
    destruct (Hspawn Hw) as (a & Hin). exists a, w. auto.
  - right. right. split; [reflexivity|]. exists p, i.
    destruct Hobj as (Hs & Hown & Hport & Hproc & Hst). auto 10.
Qed.

End FailureFacts.

Section FailureWitness.
Import Pool PoolManager.

(** The worker never answers its health check: after the 30 s limit the
    creation gives up, the port 9000 is free again and the process that
    was started on it has been sent no signal. *)
Lemma createInstance_failure_modes_witness :
  let res := run 9000 10000 (CallCreateInstance "alice" []) never_healthy
               (new 9000) in
  let e := JsError "Instance failed to become healthy within timeout" in
  snd res = Threw e /\
  procs (fst res) = [mkProc 0 "alice" 9000 []] /\
  instances (fst res) = instances (new 9000) /\
  usedPorts (fst res) = usedPorts (new 9000) /\
  ((e = JsError "No available ports in range" /\
    store (fst res) = store (new 9000) /\ procs (fst res) = procs (new 9000)) \/
   ((exists a w, (a, w) ∈ never_healthy /\ w_spawn w = Some e) /\
    procs (fst res) = procs (new 9000)) \/
   (e = JsError "Instance failed to become healthy within timeout" /\
    exists p i,
      store (fst res) = (store (new 9000) ++ [i])%list /\
      userId i = "alice" /\ port i = p /\ status i = Starting /\
      process i = Some (length (procs (new 9000))) /\
      procs (fst res)
        = (procs (new 9000)
           ++ [mkProc (length (store (new 9000))) "alice" p []])%list /\
      p ∉ usedPorts (fst res))).
Proof.
  assert (H : snd (run 9000 10000 (CallCreateInstance "alice" [])
                     never_healthy (new 9000))
              = Threw (JsError "Instance failed to become healthy within timeout"))
    by (vm_compute; reflexivity).
  split; [exact H|]. split; [vm_compute; reflexivity|].
  exact (createInstance_failure_modes 9000 10000 "alice" [] never_healthy
           (new 9000) _ H).
Defined.

End FailureWitness.

(* ===================================================================== *)
(** ** The configuration of an instance                                   *)
(* ===================================================================== *)

Section ConfigFacts.
Import Pool PoolManager.

Lemma get_prop_set_prop key k v props :
  get_prop key (set_prop k v props)
  = if String.eqb k key then v else get_prop key props.
Proof.
  induction props as [|[k' old] rest IH]; simpl.
  - destruct (String.eqb k key); reflexivity.
  - destruct (String.eqb k' k) eqn:E; simpl.
    + apply String.eqb_eq in E. subst k'.
      destruct (String.eqb k key); reflexivity.
    + destruct (String.eqb k' key) eqn:E'; [|exact IH].
      apply String.eqb_eq in E'. subst k'.
      rewrite String.eqb_sym, E. reflexivity.
Qed.

Lemma get_prop_missing key props :
  key ∉ map fst props -> get_prop key props = JUndefined.
Proof.
  induction props as [|[k v] rest IH]; intros H; [reflexivity|].
  simpl in *. apply not_elem_of_cons in H. destruct H as [Hne H].
  assert (E : String.eqb k key = false) by (apply String.eqb_neq; congruence).
  rewrite E. apply IH, H.
Qed.

Lemma get_prop_spread key source : forall target,
  NoDup (map fst source) ->
  get_prop key (spread target source)
  = if decide (key ∈ map fst source) then get_prop key source
    else get_prop key target.
Proof.
  unfold spread.
  induction source as [|[k v] rest IH]; intros target Hnd.
  - simpl. destruct (decide (key ∈ [])) as [H|_]; [inversion H | reflexivity].
  - simpl in Hnd. apply NoDup_cons in Hnd. destruct Hnd as [Hk Hnd].
    simpl fold_left. rewrite (IH _ Hnd), get_prop_set_prop.
    simpl map. simpl get_prop.
    destruct (String.eqb k key) eqn:E.
    + apply String.eqb_eq in E. subst k.
      destruct (decide (key ∈ map fst rest)) as [H|_]; [contradiction|].
      destruct (decide (key ∈ key :: map fst rest)) as [_|H]; [reflexivity|].
      exfalso. apply H, elem_of_cons. left. reflexivity.
    + apply String.eqb_neq in E.
      destruct (decide (key ∈ map fst rest)) as [H|H];
        destruct (decide (key ∈ k :: map fst rest)) as [H'|H'];
        try reflexivity; exfalso.
      * apply H', elem_of_cons. right. exact H.
      * apply elem_of_cons in H'. destruct H' as [->|H']; auto.
Qed.

(** X25. The [config] of the instance object built by [createInstance],
    for a [config] argument with distinct property names: a property the
    argument carries is kept as it is, [maxMemoryMB] and [workingDir]
    included, even when its value is falsy (0, [null], ['']): the spread
    overwrites the default.  The defaults 2048 and [process.cwd()] are
    used only when the argument does not have the property at all. *)
Theorem instance_config_defaults (w : World)
    (config : list (string * jsval)) (key : string) :
  NoDup (map fst config) ->
  let built := instance_config w config in
  (key ∈ map fst config -> get_prop key built = get_prop key config) /\
  ("maxMemoryMB" ∉ map fst config ->
   get_prop "maxMemoryMB" built = JNum 2048) /\
  ("workingDir" ∉ map fst config ->
   get_prop "workingDir" built = JStr (w_cwd w)) /\
  (key ∉ map fst config -> key <> "maxMemoryMB" -> key <> "workingDir" ->
   get_prop key built = JUndefined).
Proof.
  intros Hnd built. subst built. unfold instance_config.
  split; [|split; [|split]].
  - intros Hin. rewrite (get_prop_spread key config _ Hnd).
    destruct (decide (key ∈ map fst config)); [reflexivity | contradiction].
  - intros Hout. rewrite (get_prop_spread _ config _ Hnd).
    destruct (decide ("maxMemoryMB" ∈ map fst config)); [contradiction|].
    rewrite (get_prop_missing _ _ Hout). reflexivity.
  - intros Hout. rewrite (get_prop_spread _ config _ Hnd).
    destruct (decide ("workingDir" ∈ map fst config)); [contradiction|].
    rewrite (get_prop_missing _ _ Hout). reflexivity.
  - intros Hout H1 H2. rewrite (get_prop_spread _ config _ Hnd).
    destruct (decide (key ∈ map fst config)); [contradiction|].
    cbn [get_prop]. apply String.eqb_neq in H1, H2.
    rewrite (String.eqb_sym "maxMemoryMB"), H1.
    rewrite (String.eqb_sym "workingDir"), H2. reflexivity.
Qed.

End ConfigFacts.

Section ConfigWitness.
Import Pool PoolManager.

(** A caller that passes [{ maxMemoryMB: 0 }] gets an instance without
    memory limit, not the default of 2048 MB. *)
Lemma instance_config_defaults_witness :
  let config := [("maxMemoryMB", JNum 0)] in
  let built := instance_config world_a config in
  NoDup (map fst config) /\
  get_prop "maxMemoryMB" built = JNum 0 /\
  ("maxMemoryMB" ∈ map fst config ->
   get_prop "maxMemoryMB" built = get_prop "maxMemoryMB" config) /\
  ("maxMemoryMB" ∉ map fst config ->
   get_prop "maxMemoryMB" built = JNum 2048) /\
  ("workingDir" ∉ map fst config ->
   get_prop "workingDir" built = JStr (w_cwd world_a)) /\
  ("maxMemoryMB" ∉ map fst config -> "maxMemoryMB" <> "maxMemoryMB" ->
   "maxMemoryMB" <> "workingDir" ->
   get_prop "maxMemoryMB" built = JUndefined).
Proof.
  assert (H : NoDup (map fst [("maxMemoryMB", JNum 0)]))
    by (simpl; apply NoDup_singleton).
  split; [exact H|]. split; [reflexivity|].
  exact (instance_config_defaults world_a [("maxMemoryMB", JNum 0)]
           "maxMemoryMB" H).
Defined.

End ConfigWitness.

(* ===================================================================== *)
(** ** What [getOrCreateInstance] returns                                 *)
(* ===================================================================== *)

Section FetchingFacts.
Import Pool PoolManager.
Variables PORT_RANGE_START PORT_RANGE_END : Z.

Lemma isHealthy_alter (f : Instance -> Instance) (ref : nat)
    (st : list Instance) net :
  (forall i, port (f i) = port i) ->
  isHealthy (alter f ref st !! ref) net = isHealthy (st !! ref) net.
Proof.
  intros Hf. apply isHealthy_port. rewrite list_lookup_alter_eq.
  destruct (st !! ref) as [i|]; simpl; [rewrite Hf|]; reflexivity.
Qed.

Lemma allocatePort_loop_fetching user config a n cur :
  fetching_step user a
    (allocatePort_loop PORT_RANGE_START PORT_RANGE_END
       (FromCreateInstance user config) n cur).
Proof.
  unfold allocatePort_loop, fetching_step.
  destruct (allocatePort_scan _ _ n cur) as [cur' [[port m]|]]; simpl;
    [reflexivity | exact I].
Qed.

Lemma resume_fetching user w a t cur :
  fetching user t cur ->
  fetching_step user a (resume PORT_RANGE_START PORT_RANGE_END w a t cur).
Proof.
  intros Hf.
  destruct t as [u config ref|u config|k n port|u ref port st
                |u ref port st|u ref now]; try contradiction.
  - destruct a as [avail|net|]; try exact Hf. destruct Hf as [-> Hl].
    unfold resume, getOrCreateInstance_checked.
    destruct (isHealthy (store cur !! ref) net) eqn:Hh.
    + unfold fetching_step. cbn [fst snd]. exists ref, net.
      split; [reflexivity|]. split; [reflexivity|]. split; [exact Hl|].
      simpl. rewrite isHealthy_alter by reflexivity. exact Hh.
    + destruct (destroyInstance user cur) as [cur' b]. reflexivity.
  - destruct a as [avail|net|]; try exact Hf. cbn in Hf. subst u.
    unfold resume, createInstance, allocatePort.
    apply allocatePort_loop_fetching.
  - destruct k as [u config|]; [|contradiction].
    destruct a as [avail|net|]; try exact Hf. cbn in Hf. subst u.
    unfold resume, allocatePort_probed. destruct avail.
    + unfold allocatePort_return, createInstance_spawn, createInstance_failed,
        waitForHealthy, fetching_step.
      destruct (w_spawn w); cbn [fst snd]; [exact I | reflexivity].
    + apply allocatePort_loop_fetching.
  - destruct a as [avail|net|]; try exact Hf. cbn in Hf. subst u.
    unfold resume, waitForHealthy_checked.
    destruct (isHealthy (store cur !! ref) net) eqn:Hh; [|reflexivity].
    unfold createInstance_register, fetching_step. cbn [fst snd].
    exists ref, net. split; [reflexivity|]. split; [reflexivity|]. simpl.
    split; [apply lookup_insert_eq|].
    rewrite isHealthy_alter by reflexivity. exact Hh.
  - destruct a as [avail|net|]; try exact Hf. cbn in Hf. subst u.
    unfold resume, waitForHealthy_woke, createInstance_failed, fetching_step.
    destruct (_ <? _); cbn [fst snd]; [reflexivity | exact I].
Qed.

Lemma drive_fetching user script : forall cur t v,
  fetching user t cur ->
  snd (drive PORT_RANGE_START PORT_RANGE_END script cur (Suspended t))
    = Returned v ->
  exists a w, (a, w) ∈ script /\
    fetching_step user a
      (fst (drive PORT_RANGE_START PORT_RANGE_END script cur (Suspended t)),
       Returned v).
Proof.
  induction script as [|[a w] rest IH]; intros cur t v Hf Hv;
    [discriminate|].
  simpl in *.
  pose proof (resume_fetching user w a t cur Hf) as Hstep.
  destruct (resume _ _ w a t cur) as [cur' [t'|v'|e']];
    unfold fetching_step in Hstep; cbn [fst snd] in Hstep.
  - destruct (IH cur' t' v Hstep Hv) as (a' & w' & Hin & H).
    exists a', w'. split; [apply elem_of_cons; right; exact Hin | exact H].
  - assert (v' = v) as -> by (destruct rest; simpl in Hv; congruence).
    exists a, w. split; [apply elem_of_cons; left; reflexivity|].
    unfold fetching_step. destruct rest; exact Hstep.
  - destruct rest; discriminate.
Qed.

(** X26. Whatever the state of the pool manager, when
    [getOrCreateInstance(user, config)], run on its own, returns, it
    returns an instance object that is registered under [user] and that
    answered a health check made by this call: the instance found in the
    registry, if it is healthy, and a newly created one otherwise. *)
Theorem getOrCreateInstance_returns_checked (user : string)
    (config : list (string * jsval)) (script : list (answer * World))
    (pm : PoolManager) (v : value) :
  let res := run PORT_RANGE_START PORT_RANGE_END
               (CallGetOrCreateInstance user config) script pm in
  snd res = Returned v ->
  exists ref net w,
    v = VInstance ref /\ (AHealth net, w) ∈ script /\
    instances (fst res) !! user = Some ref /\
    isHealthy (store (fst res) !! ref) net = true.
Proof.
  intros res Hv. subst res. unfold run, invoke, getOrCreateInstance in *.
  assert (Hstart : fetching_step user ATick
            match instances pm !! user with
            | Some ref => (pm, Suspended (GetOrCreate_health user config ref))
            | None => createInstance PORT_RANGE_START PORT_RANGE_END user
                        config pm
            end).
  { destruct (instances pm !! user) as [ref|] eqn:Hl.
    - split; [reflexivity | exact Hl].
    - apply allocatePort_loop_fetching. }
  destruct (match instances pm !! user with
            | Some ref => _ | None => _ end) as [cur [t|v'|e]];
    unfold fetching_step in Hstart; cbn [fst snd] in Hstart.
  - destruct (drive_fetching user script cur t v Hstart Hv)
      as (a & w & Hin & ref & net & -> & -> & Hl & Hh).
    exists ref, net, w. auto.
  - destruct Hstart as (ref & net & _ & Hbad & _). discriminate.
  - destruct script; discriminate.
Qed.

End FetchingFacts.

Section FetchingWitness.
Import Pool PoolManager.

Lemma getOrCreateInstance_returns_checked_witness :
  let res := run 9000 10000 (CallGetOrCreateInstance "alice" []) first_caller
               (new 9000) in
  snd res = Returned (VInstance 0) /\
  exists ref net w,
    VInstance 0 = VInstance ref /\ (AHealth net, w) ∈ first_caller /\
    instances (fst res) !! "alice" = Some ref /\
    isHealthy (store (fst res) !! ref) net = true.
Proof.
  assert (H : snd (run 9000 10000 (CallGetOrCreateInstance "alice" [])
                     first_caller (new 9000)) = Returned (VInstance 0))
    by (vm_compute; reflexivity).
  split; [exact H|].
  exact (getOrCreateInstance_returns_checked 9000 10000 "alice" []
           first_caller (new 9000) (VInstance 0) H).
Defined.

End FetchingWitness.

(* ===================================================================== *)
(** ** The permission middleware                                          *)
(* ===================================================================== *)

Section MiddlewareFacts.
Import Rbac.
Variable roles : gmap string Role.

Lemma forallb_existsb {A} (f : A -> bool) (l : list A) :
  l <> [] -> forallb f l = true -> existsb f l = true.
Proof.
  destruct l as [|x l]; [congruence|]. simpl. intros _ H.
  apply andb_true_iff in H as [-> _]. reflexivity.
Qed.

(** X27. [requirePermission] answers 401 exactly when the request has no
    user, whatever is required.  An array of one permission is checked as
    that permission alone.  An empty array lets every authenticated user
    pass when [requireAll] is true (the default) and nobody, not even an
    administrator, when it is false; for a non-empty array whoever passes
    with [requireAll] also passes without it. *)
Theorem requirePermission_arrays (errorMessage : string) (user : option User) :
  (forall arg requireAll,
     requirePermission arg requireAll errorMessage roles user
       = Respond 401 (JObj [("error", JStr "Authentication required")])
     <-> user = None) /\
  (forall p requireAll,
     requirePermission (ManyPermissions [p]) requireAll errorMessage roles user
     = requirePermission (OnePermission p) requireAll errorMessage roles user) /\
  (forall u,
     requirePermission (ManyPermissions []) true errorMessage roles (Some u)
       = Next /\
     requirePermission (ManyPermissions []) false errorMessage roles (Some u)
       = Respond 403 (JObj [("error", JStr errorMessage);
                            ("required", JArr [])])) /\
  (forall ps,
     ps <> [] ->
     requirePermission (ManyPermissions ps) true errorMessage roles user = Next ->
     requirePermission (ManyPermissions ps) false errorMessage roles user = Next).
Proof.
  split; [|split; [|split]].
  - intros arg requireAll. destruct user as [u|]; simpl.
    + split; [|discriminate].
      destruct (negb (checkFn requireAll roles (Some u) arg)); discriminate.
    + split; reflexivity.
  - intros p requireAll. destruct user as [u|]; [|reflexivity].
    unfold requirePermission, checkFn, hasAllPermissions, hasAnyPermission.
    simpl forallb. simpl existsb.
    rewrite andb_true_r, orb_false_r. destruct requireAll; reflexivity.
  - intros u. split; reflexivity.
  - intros ps Hps. destruct user as [u|]; [|discriminate].
    unfold requirePermission, checkFn, hasAllPermissions, hasAnyPermission.
    destruct (forallb (hasPermission roles (Some u)) ps) eqn:Hall;
      [|discriminate].
    rewrite (forallb_existsb _ ps Hps Hall). reflexivity.
Qed.

(** X28. [requireOwnershipOrAdmin] lets a request pass exactly when it
    has a user who either has the role [admin] or whose id equals a
    non-empty owner id; a request without user is answered 401, any
    other 403.  A user who passes as administrator also passes
    [requirePermission] for every single permission. *)
Theorem requireOwnershipOrAdmin_spec (ownerId : option string)
    (user : option User) :
  (requireOwnershipOrAdmin ownerId user = Next <->
     exists u, user = Some u /\
       (role u = Some "admin" \/
        (ownerId = Some (user_id u) /\ user_id u <> ""))) /\
  (requireOwnershipOrAdmin ownerId user
     = Respond 401 (JObj [("error", JStr "Authentication required")])
   <-> user = None) /\
  (requireOwnershipOrAdmin ownerId user <> Next -> user <> None ->
   requireOwnershipOrAdmin ownerId user
     = Respond 403 (JObj [("error", JStr "Access denied")])) /\
  (forall u p requireAll errorMessage,
     user = Some u -> role u = Some "admin" ->
     requirePermission (OnePermission p) requireAll errorMessage roles user
       = Next).
Proof.
  split; [|split; [|split]].
  - destruct user as [u|]; simpl.
    + destruct (bool_decide (role u = Some "admin")) eqn:Hadmin.
      * apply bool_decide_eq_true in Hadmin.
        split; [intros _; exists u; auto | reflexivity].
      * apply bool_decide_eq_false in Hadmin.
        destruct ownerId as [o|]; simpl.
        -- destruct (String.eqb o "") eqn:Ho; simpl.
           ++ apply String.eqb_eq in Ho. subst o.
              split; [discriminate|].
              intros (u' & [= <-] & [H|[[= H] Hne]]); congruence.
           ++ apply String.eqb_neq in Ho.
              destruct (String.eqb o (user_id u)) eqn:Hou.
              ** apply String.eqb_eq in Hou. subst o.
                 split; [intros _; exists u; auto | reflexivity].
              ** apply String.eqb_neq in Hou.
                 split; [discriminate|].
                 intros (u' & [= <-] & [H|[[= H] Hne]]); congruence.
        -- split; [discriminate|].
           intros (u' & [= <-] & [H|[H _]]); congruence.
    + split; [discriminate | intros (u & H & _); discriminate].
  - destruct user as [u|]; simpl; [|split; reflexivity].
    split; [|discriminate].
    destruct (bool_decide _); [discriminate|].
    destruct (_ && _); discriminate.
  - destruct user as [u|]; [|congruence]. simpl. intros H _.
    destruct (bool_decide _); [congruence|].
    destruct (_ && _); [congruence | reflexivity].
  - intros u p requireAll errorMessage -> Hrole.
    unfold requirePermission, checkFn, hasPermission. rewrite Hrole.
    reflexivity.
Qed.

End MiddlewareFacts.

Section MiddlewareWitness.
Import Rbac.

Lemma requireOwnershipOrAdmin_witness :
  let user := Some (mkUser "u1" (Some "viewer")) in
  requireOwnershipOrAdmin (Some "u2") user <> Next /\
  user <> None /\
  requireOwnershipOrAdmin (Some "u2") user
    = Respond 403 (JObj [("error", JStr "Access denied")]).
Proof.
  assert (H1 : Rbac.requireOwnershipOrAdmin (Some "u2")
                 (Some (mkUser "u1" (Some "viewer"))) <> Next)
    by (vm_compute; discriminate).
  assert (H2 : Some (mkUser "u1" (Some "viewer")) <> None) by discriminate.
  split; [exact H1|]. split; [exact H2|].
  exact (proj1 (proj2 (proj2 (requireOwnershipOrAdmin_spec ∅ (Some "u2")
           (Some (mkUser "u1" (Some "viewer")))))) H1 H2).
Defined.

End MiddlewareWitness.
